(** * Indicator synchronisation of the WorldData desktop shell

    A shallow embedding of the indicator-management part of the main
    process (the code after the "Indicator management IPC" banner of
    [src/preload.cjs]): directory resolution, the version marker, the
    keytar-backed token handlers, the download pass, the handlers that
    list and read the installed files, and the periodic version check;
    and, from before the banner, the port probing of [createWindow] and
    [getAssetPath] of the preload script.

    The JavaScript code is effectful: it reads and writes files, talks to
    the network, pushes messages to the renderer and may throw.  It is
    embedded as functions in a state-and-exception monad over a [World]
    (what the code can change) and an [Env] (what is fixed for one process
    run).  What the code takes from Node and Electron is modelled as
    follows.

    - A JavaScript string is held as its UTF-8 bytes, and so is the
      content of a file.  [trim] drops the white space of JavaScript, the
      code points beyond ASCII included; reading a file as [utf8] decodes
      it, a byte that is no UTF-8 becoming U+FFFD.  [toLowerCase] is only
      used to test for the suffix [.json] and acts on the letters [A-Z].
    - [path] is the POSIX flavour of Node's module: [/] is the separator,
      [join] normalises.
    - [fs] is a map of files and a set of directories; an operation throws
      when the host denies the path it creates, changes or removes, and
      when it reads or unlinks a file that is not there.
    - An [https.get] is answered by the host: an error, a timeout, or a
      body.  The body is parsed by [JSON.parse] of the host into the
      properties the code reads: [tree] with entries that have a [path]
      and a [type], [content], [encoding].  The URLs that the code builds
      itself are well-formed [https] URLs; for a URL that comes from the
      renderer the host says whether [https.get] throws at once.
    - [fs.readdirSync] is answered by the host with the entries of a
      directory, a directory among them with what reading it gives in
      turn.
    - [keytar] is absent or a module whose calls may throw.
    - Calls to [log.*] are left out: they change nothing that the
      definitions below can observe. *)

From Stdlib Require Import Ascii String.
From stdpp Require Import base option list strings gmap pretty.

Open Scope string_scope.

(** ** Text in UTF-8

    [Utf8.parse] cuts bytes into code points, each held as its own bytes,
    the way [buf.toString('utf8')] and the reading of a file as [utf8]
    decode them: a byte that cannot start or go on a well-formed sequence
    ends what came before, which becomes U+FFFD, and is looked at
    again. *)

Module Utf8.

Definition code (a : ascii) : nat := nat_of_ascii a.

Definition within (lo hi : nat) (a : ascii) : bool :=
  ((lo <=? code a) && (code a <=? hi))%nat.

(** A continuation byte, [80..BF]. *)
Definition cont (a : ascii) : bool := within 128 191 a.

(** The second byte that may follow the lead byte [a] of a sequence of
    three, and of four: no overlong form, no surrogate, nothing beyond
    U+10FFFF. *)
Definition second3 (a b : ascii) : bool :=
  if (code a =? 224)%nat then within 160 191 b
  else if (code a =? 237)%nat then within 128 159 b
  else cont b.

Definition second4 (a b : ascii) : bool :=
  if (code a =? 240)%nat then within 144 191 b
  else if (code a =? 244)%nat then within 128 143 b
  else cont b.

(** U+FFFD *)
Definition replacement : string :=
  String "239" (String "191" (String "189" "")).

Fixpoint parse (s : string) : list string :=
  match s with
  | "" => []
  | String a s1 =>
      if within 0 127 a then String a "" :: parse s1
      else if within 194 223 a then
        match s1 with
        | String b s2 =>
            if cont b then String a (String b "") :: parse s2
            else replacement :: parse s1
        | "" => [replacement]
        end
      else if within 224 239 a then
        match s1 with
        | String b s2 =>
            if second3 a b then
              match s2 with
              | String c s3 =>
                  if cont c then String a (String b (String c "")) :: parse s3
                  else replacement :: parse s2
              | "" => [replacement]
              end
            else replacement :: parse s1
        | "" => [replacement]
        end
      else if within 240 244 a then
        match s1 with
        | String b s2 =>
            if second4 a b then
              match s2 with
              | String c s3 =>
                  if cont c then
                    match s3 with
                    | String d s4 =>
                        if cont d
                        then String a (String b (String c (String d ""))) :: parse s4
                        else replacement :: parse s3
                    | "" => [replacement]
                    end
                  else replacement :: parse s2
              | "" => [replacement]
              end
            else replacement :: parse s1
        | "" => [replacement]
        end
      else replacement :: parse s1
  end.

Definition concat (units : list string) : string := foldr String.append "" units.

(** [buf.toString('utf8')] *)
Definition decode (bytes : string) : string := concat (parse bytes).

Definition bytes (codes : list nat) : string :=
  foldr (λ n s, String (ascii_of_nat n) s) "" codes.

(** The white space and the line terminators of JavaScript: U+0009 to
    U+000D, U+0020, U+00A0, U+1680, U+2000 to U+200A, U+2028, U+2029,
    U+202F, U+205F, U+3000 and U+FEFF. *)
Definition whiteSpace : list string :=
  map bytes
    [ [9]; [10]; [11]; [12]; [13]; [32]; [194; 160]; [225; 154; 128];
      [226; 128; 128]; [226; 128; 129]; [226; 128; 130]; [226; 128; 131];
      [226; 128; 132]; [226; 128; 133]; [226; 128; 134]; [226; 128; 135];
      [226; 128; 136]; [226; 128; 137]; [226; 128; 138];
      [226; 128; 168]; [226; 128; 169]; [226; 128; 175]; [226; 129; 159];
      [227; 128; 128]; [239; 187; 191] ].

Definition isWhiteSpace (unit : string) : bool := bool_decide (unit ∈ whiteSpace).

End Utf8.

(** ** Strings as JavaScript uses them *)

Module Str.

(** A string is truthy when it is not empty. *)
Definition truthy (s : string) : bool :=
  match s with "" => false | _ => true end.

(** [s.startsWith(p)] *)
Fixpoint startsWith (s p : string) : bool :=
  match p, s with
  | "", _ => true
  | String a p', String b s' => if decide (a = b) then startsWith s' p' else false
  | String _ _, "" => false
  end.

(** [s.endsWith(suf)]: some tail of [s] is [suf]. *)
Fixpoint endsWith (s suf : string) : bool :=
  if decide (s = suf) then true
  else match s with
       | "" => false
       | String _ s' => endsWith s' suf
       end.

(** Lower-casing of one character: the letters [A-Z] move to [a-z]. *)
Definition lower (c : ascii) : ascii :=
  let n := nat_of_ascii c in
  if (65 <=? n)%nat && (n <=? 90)%nat then ascii_of_nat (n + 32) else c.

(** [s.toLowerCase()] *)
Fixpoint toLowerCase (s : string) : string :=
  match s with
  | "" => ""
  | String c s' => String (lower c) (toLowerCase s')
  end.

(** The code points that are left once the white space in front is
    dropped. *)
Fixpoint dropSpace (units : list string) : list string :=
  match units with
  | [] => []
  | unit :: rest => if Utf8.isWhiteSpace unit then dropSpace rest else units
  end.

(** [s.trim()]: the white space is dropped at both ends. *)
Definition trim (s : string) : string :=
  Utf8.concat (reverse (dropSpace (reverse (dropSpace (Utf8.parse s))))).

(** [s.replace(/\\/g, '/')] *)
Fixpoint slashes (s : string) : string :=
  match s with
  | "" => ""
  | String c s' =>
      String (if decide (c = "\"%char) then "/"%char else c) (slashes s')
  end.

(** [x || d] on a value that may be missing. *)
Definition or_else (x : option string) (d : string) : string :=
  match x with
  | Some s => if truthy s then s else d
  | None => d
  end.

(** [x || null] *)
Definition or_null (x : option string) : option string :=
  match x with
  | Some s => if truthy s then Some s else None
  | None => None
  end.

End Str.

(** ** Node's [path] module

    The POSIX flavour: paths are strings with [/] as separator. *)

Module path.

(** The parts of a path between its [/]. *)
Fixpoint segments (s : string) : list string :=
  match s with
  | "" => [""]
  | String c s' =>
      if decide (c = "/"%char) then "" :: segments s'
      else match segments s' with
           | seg :: rest => String c seg :: rest
           | [] => [String c ""]
           end
  end.

(** What [normalizeString] does at the end of one segment; [kept] holds
    the segments of [res], the last one first.  An empty segment and [.]
    are left out; [..] takes the last segment away, unless there is none
    or it is [..] itself: then [..] is kept when the path is relative and
    left out when it is absolute. *)
Definition step (allowAboveRoot : bool) (kept : list string) (seg : string)
  : list string :=
  if decide (seg = "") then kept
  else if decide (seg = ".") then kept
  else if decide (seg = "..") then
    match kept with
    | top :: rest =>
        if decide (top = "..")
        then (if allowAboveRoot then ".." :: kept else kept)
        else rest
    | [] => if allowAboveRoot then [".."] else []
    end
  else seg :: kept.

Fixpoint unsplit (segs : list string) : string :=
  match segs with
  | [] => ""
  | seg :: rest =>
      match rest with
      | [] => seg
      | _ => seg +:+ "/" +:+ unsplit rest
      end
  end.

Definition normalizeString (p : string) (allowAboveRoot : bool) : string :=
  unsplit (reverse (foldl (step allowAboveRoot) [] (segments p))).

Definition startsSlash (s : string) : bool :=
  match s with
  | String c _ => bool_decide (c = "/"%char)
  | "" => false
  end.

Fixpoint endsSlash (s : string) : bool :=
  match s with
  | "" => false
  | String c s' =>
      match s' with
      | "" => bool_decide (c = "/"%char)
      | _ => endsSlash s'
      end
  end.

(** [path.normalize(p)] *)
Definition normalize (p : string) : string :=
  if decide (p = "") then "."
  else
    let isAbsolute := startsSlash p in
    let trailingSeparator := endsSlash p in
    let res := normalizeString p (negb isAbsolute) in
    if decide (res = "") then
      (if isAbsolute then "/" else if trailingSeparator then "./" else ".")
    else
      let res := if trailingSeparator then res +:+ "/" else res in
      if isAbsolute then "/" +:+ res else res.

(** [path.join(a, b)]: the parts that are not empty, with [/] between
    them, normalised. *)
Definition join (a b : string) : string :=
  if decide (a = "") then (if decide (b = "") then "." else normalize b)
  else if decide (b = "") then normalize a
  else normalize (a +:+ "/" +:+ b).

(** The scan of [dirname] from the end of the path down to its second
    character, [r] being these characters in that order: the [/] at the
    end are passed over, then the last segment, and what is before the
    [/] that comes next is the answer; [None] when there is no such
    [/]. *)
Fixpoint dirname_go (matchedSlash : bool) (r : string) : option string :=
  match r with
  | "" => None
  | String c r' =>
      if decide (c = "/"%char)
      then (if matchedSlash then dirname_go true r' else Some r')
      else dirname_go false r'
  end.

(** [path.dirname(p)] *)
Definition dirname (p : string) : string :=
  match p with
  | "" => "."
  | String c0 t =>
      let hasRoot := bool_decide (c0 = "/"%char) in
      match dirname_go true (String.rev t) with
      | None => if hasRoot then "/" else "."
      | Some before =>
          if hasRoot && bool_decide (before = "") then "//"
          else String c0 (String.rev before)
      end
  end.

(** The proper prefixes of [s] that end just before a [/]: the
    directories above [s]. *)
Fixpoint parents_go (acc : string) (s : string) : list string :=
  match s with
  | "" => []
  | String c s' =>
      (if decide (c = "/"%char)
       then (if Str.truthy acc then [String.rev acc] else [])
       else [])
      ++ parents_go (String c acc) s'
  end.

Definition parents (p : string) : list string := parents_go "" p.

End path.

(** ** Exceptions and effectful code

    An exception is known by its message ([err.message]).  A computation
    over a state [S] either returns or throws, and leaves a state behind
    in both cases. *)

Definition Exn := string.

Inductive Outcome (A : Type) : Type :=
| Returned (a : A)
| Thrown (e : Exn).
Arguments Returned {A} a.
Arguments Thrown {A} e.

Definition St (S A : Type) : Type := S → Outcome A * S.

Definition ret {S A} (a : A) : St S A := λ s, (Returned a, s).

Definition bind {S A B} (m : St S A) (f : A → St S B) : St S B := λ s,
  match m s with
  | (Returned a, s') => f a s'
  | (Thrown e, s') => (Thrown e, s')
  end.

Notation "'do' x ← m ; k" := (bind m (λ x, k))
  (at level 10, x name, m at level 100, k at level 200,
   format "'[v' 'do'  x  ←  m ; '/' k ']'").

Definition throw {S A} (e : Exn) : St S A := λ s, (Thrown e, s).

(** [try { m } catch (e) { h e }] *)
Definition try_catch {S A} (m : St S A) (h : Exn → St S A) : St S A := λ s,
  match m s with
  | (Returned a, s') => (Returned a, s')
  | (Thrown e, s') => h e s'
  end.

(** [try { m } catch (e) { log... }]: the exception is only logged. *)
Definition attempt {S} (m : St S unit) : St S unit :=
  try_catch m (λ _, ret ()).

Definition of_outcome {S A} (o : Outcome A) : St S A := λ s, (o, s).

(** ** Node's [fs] module

    Files are a finite map from paths to contents, directories a finite
    set of paths.  [fs_denied] holds the paths at which the host refuses
    to create, change or remove an entry (no permission, read-only
    volume): an operation on such a path throws. *)

Record FS := {
  fs_files : gmap string string;
  fs_dirs : gset string;
  fs_denied : gset string;
}.

Module fs.

(** [fs.mkdirSync(p, { recursive: true })] *)
Definition mkdirSync (p : string) : St FS unit := λ s,
  if decide (p ∈ fs_denied s)
  then (Thrown ("EACCES: permission denied, mkdir '" +:+ p +:+ "'"), s)
  else (Returned (),
        {| fs_files := fs_files s;
           fs_dirs := fs_dirs s ∪ list_to_set (p :: path.parents p);
           fs_denied := fs_denied s |}).

(** [fs.writeFileSync(p, data)] *)
Definition writeFileSync (p : string) (data : string) : St FS unit := λ s,
  if decide (p ∈ fs_denied s)
  then (Thrown ("EACCES: permission denied, open '" +:+ p +:+ "'"), s)
  else (Returned (),
        {| fs_files := <[p := data]> (fs_files s);
           fs_dirs := fs_dirs s;
           fs_denied := fs_denied s |}).

(** [fs.unlinkSync(p)] *)
Definition unlinkSync (p : string) : St FS unit := λ s,
  if decide (p ∈ fs_denied s)
  then (Thrown ("EACCES: permission denied, unlink '" +:+ p +:+ "'"), s)
  else match fs_files s !! p with
       | None => (Thrown ("ENOENT: no such file or directory, unlink '" +:+ p +:+ "'"), s)
       | Some _ =>
           (Returned (),
            {| fs_files := delete p (fs_files s);
               fs_dirs := fs_dirs s;
               fs_denied := fs_denied s |})
       end.

(** [fs.existsSync(p)] *)
Definition existsSync (p : string) : St FS bool := λ s,
  (Returned (bool_decide (is_Some (fs_files s !! p)) || bool_decide (p ∈ fs_dirs s)), s).

(** [fs.readFileSync(p, 'utf8')]: the bytes of the file, decoded. *)
Definition readFileSync (p : string) : St FS string := λ s,
  match fs_files s !! p with
  | Some bytes => (Returned (Utf8.decode bytes), s)
  | None =>
      if decide (p ∈ fs_dirs s)
      then (Thrown "EISDIR: illegal operation on a directory, read", s)
      else (Thrown ("ENOENT: no such file or directory, open '" +:+ p +:+ "'"), s)
  end.

End fs.

(** ** The network, the keychain and the renderer *)

(** One [https.get(url, { headers, timeout }, ...)]. *)
Record Request := {
  url : string;
  headers : list (string * string);
  timeout : N;
}.

(** What the request object reports: ['error'], ['timeout'], or the
    response body once ['end'] fires: the string [buf] that the chunks of
    data, each turned into a string, add up to. *)
Inductive HttpResult :=
| http_error (message : string)
| http_timeout
| http_end (buf : string).

(** An entry of the tree listing.  A field is [None] when the entry does
    not have it. *)
Record TreeEntry := {
  path : option string;
  type : option string;
}.

(** A parsed response, seen through the properties the code reads. *)
Record Json := {
  tree : option (list TreeEntry);
  content : option string;
  encoding : option string;
}.

(** The result object of a download pass: [{ success: false, error }] or
    [{ success: true, downloaded, errors, dir }]. *)
Inductive Result :=
| Failed (error : string)
| Done (downloaded : nat) (errors : list (string * string)) (dir : string).

Definition success (r : Result) : bool :=
  match r with Failed _ => false | Done _ _ _ => true end.

(** Messages pushed to the renderer with [webContents.send]. *)
Inductive Event :=
| indicators_download_start (owner repo branch : string) (total : nat)
| indicators_download_progress (current total : nat) (path : string)
| indicators_download_complete (result : Result)
| indicators_updated (success : bool) (version : string) (details : Result).

(** [mainWindow]: not created yet (or closed and set to [null]), a live
    window, or a window object that was destroyed, on which every access
    throws. *)
Inductive Window := NoWindow | Live | Destroyed.

(** The keychain: passwords by (service, account). *)
Abbreviation Keychain := (gmap (string * string) string).

(** The keytar module.  Each call may throw. *)
Record Keytar := {
  setPassword : string → string → string → St Keychain unit;
  getPassword : string → string → St Keychain (option string);
  deletePassword : string → string → St Keychain bool;
}.

(** What the code can change. *)
Record World := {
  disk : FS;
  keychain : Keychain;
  requests : list Request;
  mainWindow : Window;
  sent : list Event;
}.

(** What is fixed for one run of the process. *)
Record Env := {
  isDev : bool;
  execPath : string;                      (* process.execPath *)
  userData : string;                      (* app.getPath('userData') *)
  keytar : option Keytar;                 (* None: require('keytar') failed *)
  https_get : nat → Request → HttpResult; (* answer to the n-th request *)
  JSON_parse : string → Outcome (option Json); (* Returned None: null *)
  Buffer_from : string → string → Outcome string;
  encodeURIComponent : string → string;
}.

Abbreviation M := (St World).

(** Code that only touches the disk, run in the world. *)
Definition on_disk {A} (op : St FS A) : M A := λ w,
  let '(r, d) := op (disk w) in
  (r, {| disk := d; keychain := keychain w; requests := requests w;
         mainWindow := mainWindow w; sent := sent w |}).

Definition on_keychain {A} (op : St Keychain A) : M A := λ w,
  let '(r, k) := op (keychain w) in
  (r, {| disk := disk w; keychain := k; requests := requests w;
         mainWindow := mainWindow w; sent := sent w |}).

(** [if (mainWindow && mainWindow.webContents) mainWindow.webContents.send(...)] *)
Definition send (ev : Event) : M unit := λ w,
  match mainWindow w with
  | NoWindow => (Returned (), w)
  | Destroyed => (Thrown "Object has been destroyed", w)
  | Live =>
      (Returned (),
       {| disk := disk w; keychain := keychain w; requests := requests w;
          mainWindow := mainWindow w; sent := (sent w ++ [ev])%list |})
  end.

(** One request, to a URL that the code has built itself, a well-formed
    URL of [https] that [https.get] takes: the answer is that of the
    host, and the request is recorded. *)
Definition https_get_M (env : Env) (rq : Request) : M HttpResult := λ w,
  (Returned (https_get env (List.length (requests w)) rq),
   {| disk := disk w; keychain := keychain w; requests := (requests w ++ [rq])%list;
      mainWindow := mainWindow w; sent := sent w |}).

(** ** Indicator management *)

Definition KEYTAR_SERVICE : string := "com.worlddata.indicators".

Definition ensureDir (dir : string) : St FS unit :=
  attempt (fs.mkdirSync dir).

(** Where downloaded indicators are stored: next to the executable when
    the build is a production build and that directory can be written,
    [userData/indicators] otherwise.  The inner [option] stands for the
    early [return installDirCandidate]. *)
Definition getIndicatorsDir (env : Env) : St FS string :=
  do found ← try_catch
    (if negb (isDev env) then
       let execDir := path.dirname (Str.or_else (Some (execPath env)) "") in
       if Str.truthy execDir then
         let installDirCandidate := path.join execDir "indicators" in
         try_catch
           (do _ ← fs.mkdirSync installDirCandidate;
            let testFile := path.join installDirCandidate ".write_test" in
            do _ ← fs.writeFileSync testFile "ok";
            do _ ← fs.unlinkSync testFile;
            ret (Some installDirCandidate))
           (λ _, ret None)
       else ret None
     else ret None)
    (λ _, ret None);
  match found with
  | Some installDirCandidate => ret installDirCandidate
  | None =>
      let ud := path.join (userData env) "indicators" in
      do _ ← attempt (fs.mkdirSync ud);
      ret ud
  end.

Definition readInstalledIndicatorVersion (env : Env) : St FS (option string) :=
  try_catch
    (do dir ← getIndicatorsDir env;
     let versionFile := path.join dir "indicator_version" in
     do present ← fs.existsSync versionFile;
     if negb present then ret None
     else
       do txt ← fs.readFileSync versionFile;
       ret (Str.or_null (Some (Str.trim txt))))
    (λ _, ret None).

(** [ipcMain.handle('get-installed-indicators-version', ...)] *)
Definition get_installed_indicators_version (env : Env) : M (option string) :=
  on_disk (readInstalledIndicatorVersion env).

(** *** Keytar-backed token management *)

(** [ipcMain.handle('store-indicator-token', ...)] *)
Definition store_indicator_token (env : Env) (token : option string) : M bool :=
  match keytar env with
  | None => ret false
  | Some kt =>
      try_catch
        (do _ ← on_keychain
                  (setPassword kt KEYTAR_SERVICE "indicator" (Str.or_else token ""));
         ret true)
        (λ _, ret false)
  end.

(** [ipcMain.handle('get-indicator-token', ...)] *)
Definition get_indicator_token (env : Env) : M (option string) :=
  match keytar env with
  | None => ret None
  | Some kt =>
      try_catch
        (on_keychain (getPassword kt KEYTAR_SERVICE "indicator"))
        (λ _, ret None)
  end.

(** [ipcMain.handle('delete-indicator-token', ...)] *)
Definition delete_indicator_token (env : Env) : M bool :=
  match keytar env with
  | None => ret false
  | Some kt =>
      try_catch
        (on_keychain (deletePassword kt KEYTAR_SERVICE "indicator"))
        (λ _, ret false)
  end.

(** *** The download pass *)

(** [opts]: [{ owner, repo, branch, token, version }], each of which may
    be missing. *)
Record Opts := {
  owner : option string;
  repo : option string;
  branch : option string;
  token : option string;
  version : option string;
}.

(** [headers], with [Authorization] when there is a token. *)
Definition requestHeaders (token : option string) : list (string * string) :=
  ("User-Agent", "world-data-app")
  :: match Str.or_null token with
     | Some t => [("Authorization", "token " +:+ t)]
     | None => []
     end.

(** [fetchJson] of [performDownloadIndicators]: the promise rejects on
    ['error'], on ['timeout'] and when the body does not parse. *)
Definition fetchJson (env : Env) (headers : list (string * string)) (url : string)
  : M (option Json) :=
  do r ← https_get_M env {| url := url; headers := headers; timeout := 20000%N |};
  match r with
  | http_error message => throw message
  | http_timeout => throw "timeout"
  | http_end buf => of_outcome (JSON_parse env buf)
  end.

(** The callback of [treeResp.tree.filter]. *)
Definition isCandidate (i : TreeEntry) : bool :=
  let p := Str.or_else (path i) "" in
  bool_decide (type i = Some "blob")
  && Str.startsWith p "indicators/"
  && Str.endsWith (Str.toLowerCase p) ".json".

(** [jsonFiles = treeResp.tree.filter(...)] *)
Definition jsonFiles (tree : list TreeEntry) : list TreeEntry :=
  List.filter isCandidate tree.

Definition treeUrl (owner repo branch : string) : string :=
  "https://api.github.com/repos/" +:+ owner +:+ "/" +:+ repo
  +:+ "/git/trees/" +:+ branch +:+ "?recursive=1".

Definition contentUrl (env : Env) (owner repo branch path : string) : string :=
  "https://api.github.com/repos/" +:+ owner +:+ "/" +:+ repo
  +:+ "/contents/" +:+ encodeURIComponent env path +:+ "?ref=" +:+ branch.

(** [item.path] of an entry that passed the filter. *)
Definition itemPath (item : TreeEntry) : string := Str.or_else (path item) "".

(** [path.join(indicatorsDir, item.path.replace(/\\/g,'/'))] *)
Definition outPath (indicatorsDir : string) (item : TreeEntry) : string :=
  path.join indicatorsDir (Str.slashes (itemPath item)).

Definition versionFile (indicatorsDir : string) : string :=
  path.join indicatorsDir "indicator_version".

Section Pass.

Context (env : Env).
Context (headers : list (string * string)).
Context (owner repo branch indicatorsDir : string).
Context (total : nat).                 (* jsonFiles.length *)

(** The body of [for (const item of jsonFiles)], after [i++].  The lists
    [downloaded] and [errors] are passed in and handed back. *)
Definition downloadItem (i : nat) (item : TreeEntry)
    (downloaded : list string) (errors : list (string * string))
  : M (list string * list (string * string)) :=
  try_catch
    (do fileResp ← fetchJson env headers
                     (contentUrl env owner repo branch (itemPath item));
     match Str.or_null (fileResp ≫= content) with
     | Some content =>
         do buf ← of_outcome
                    (Buffer_from env content
                       (Str.or_else (fileResp ≫= encoding) "base64"));
         let outDir := path.dirname (outPath indicatorsDir item) in
         do _ ← on_disk (ensureDir outDir);
         do _ ← on_disk (fs.writeFileSync (outPath indicatorsDir item) buf);
         do _ ← attempt (send (indicators_download_progress i total (itemPath item)));
         ret ((downloaded ++ [itemPath item])%list, errors)
     | None => ret (downloaded, (errors ++ [(itemPath item, "no content")])%list)
     end)
    (λ err, ret (downloaded, (errors ++ [(itemPath item, err)])%list)).

(** The loop, with its counter [i]. *)
Fixpoint downloadLoop (jsonFiles : list TreeEntry) (i : nat)
    (downloaded : list string) (errors : list (string * string))
  : M (list string * list (string * string)) :=
  match jsonFiles with
  | [] => ret (downloaded, errors)
  | item :: rest =>
      let i := S i in
      do r ← downloadItem i item downloaded errors;
      downloadLoop rest i r.1 r.2
  end.

End Pass.

(** What [performDownloadIndicators] does once the listing has a [tree]:
    filter, announce, download, write the version file, report. *)
Definition downloadTree (env : Env) (opts : option Opts)
    (headers : list (string * string)) (owner repo branch indicatorsDir : string)
    (tree : list TreeEntry) : M Result :=
  let jsonFiles := jsonFiles tree in
  do _ ← attempt (send (indicators_download_start owner repo branch
                          (List.length jsonFiles)));
  do r ← downloadLoop env headers owner repo branch indicatorsDir
           (List.length jsonFiles) jsonFiles 0 [] [];
  do _ ← match Str.or_null (opts ≫= version) with
         | Some version =>
             attempt (on_disk (fs.writeFileSync (versionFile indicatorsDir) version))
         | None => ret ()
         end;
  let result := Done (List.length r.1) r.2 indicatorsDir in
  do _ ← attempt (send (indicators_download_complete result));
  ret result.

(** What [performDownloadIndicators] does once it has its [token]:
    resolve the directory, ask for the listing, download. *)
Definition listAndDownload (env : Env) (opts : option Opts)
    (owner repo branch : string) (token : option string) : M Result :=
  do indicatorsDir ← on_disk (getIndicatorsDir env);
  do _ ← on_disk (ensureDir indicatorsDir);
  let headers := requestHeaders token in
  let api := treeUrl owner repo branch in
  try_catch
    (do treeResp ← fetchJson env headers api;
     match treeResp ≫= tree with
     | None => ret (Failed "no tree")
     | Some tree => downloadTree env opts headers owner repo branch indicatorsDir tree
     end)
    (λ err,
       do _ ← attempt (send (indicators_download_complete (Failed err)));
       ret (Failed err)).

(** [performDownloadIndicators(opts)] *)
Definition performDownloadIndicators (env : Env) (opts : option Opts) : M Result :=
  let owner := Str.or_else (opts ≫= owner) "" in
  let repo := Str.or_else (opts ≫= repo) "" in
  let branch := Str.or_else (opts ≫= branch) "main" in
  let token := Str.or_null (opts ≫= token) in
  if negb (Str.truthy owner) || negb (Str.truthy repo)
  then ret (Failed "missing owner or repo")
  else
    do token ← match token, keytar env with
               | None, Some kt =>
                   try_catch (on_keychain (getPassword kt KEYTAR_SERVICE "indicator"))
                             (λ _, ret None)
               | _, _ => ret token
               end;
    listAndDownload env opts owner repo branch token.

(** [ipcMain.handle('download-indicators', ...)] *)
Definition download_indicators (env : Env) (opts : option Opts) : M Result :=
  performDownloadIndicators env opts.

(** *** The periodic version check *)

Definition REMOTE_VERSION_URL : string :=
  "https://raw.githubusercontent.com/xmcllabs/V_Indicators/refs/heads/main/Indicator_version".
Definition AUTO_OWNER : string := "xmcllabs".
Definition AUTO_REPO : string := "Indicators".

(** [fetchText] of [checkAndUpdateIndicators] *)
Definition fetchText (env : Env) (url : string) : M string :=
  do r ← https_get_M env {| url := url; headers := []; timeout := 15000%N |};
  match r with
  | http_error message => throw message
  | http_timeout => throw "timeout"
  | http_end buf => ret (Str.trim buf)
  end.

Definition checkAndUpdateIndicators (env : Env) : M unit :=
  try_catch
    (do remoteVer ← try_catch (do v ← fetchText env REMOTE_VERSION_URL; ret (Some v))
                              (λ _, ret None);
     match Str.or_null remoteVer with
     | None => ret ()
     | Some remoteVer =>
         do installedVer ← on_disk (readInstalledIndicatorVersion env);
         if decide (installedVer = Some remoteVer) then ret ()
         else
           do token ← match keytar env with
                      | Some kt =>
                          try_catch
                            (on_keychain (getPassword kt KEYTAR_SERVICE "indicator"))
                            (λ _, ret None)
                      | None => ret None
                      end;
           do downloadResult ← performDownloadIndicators env
                (Some {| owner := Some AUTO_OWNER; repo := Some AUTO_REPO;
                         branch := Some "main"; token := token;
                         version := Some remoteVer |});
           attempt (send (indicators_updated (success downloadResult)
                            remoteVer downloadResult))
     end)
    (λ _, ret ()).

(** ** A concrete host

    A keychain held in memory, a percent-encoding of [/] only, and the
    scenario of a repository with two indicator files and a read-me. *)

Module Host.

Definition memKeytar : Keytar := {|
  setPassword service account password k :=
    (Returned (), <[(service, account) := password]> k);
  getPassword service account k := (Returned (k !! (service, account)), k);
  deletePassword service account k :=
    (Returned (bool_decide (is_Some (k !! (service, account)))),
     delete (service, account) k);
|}.

(** A keytar whose every call throws. *)
Definition brokenKeytar : Keytar := {|
  setPassword _ _ _ k := (Thrown "keychain locked", k);
  getPassword _ _ k := (Thrown "keychain locked", k);
  deletePassword _ _ k := (Thrown "keychain locked", k);
|}.

Fixpoint encodeSlashes (s : string) : string :=
  match s with
  | "" => ""
  | String c s' =>
      if decide (c = "/"%char) then "%2F" +:+ encodeSlashes s'
      else String c (encodeSlashes s')
  end.

Definition emptyDisk : FS :=
  {| fs_files := ∅; fs_dirs := ∅; fs_denied := ∅ |}.

Definition world0 (d : FS) (win : Window) : World :=
  {| disk := d; keychain := ∅; requests := []; mainWindow := win; sent := [] |}.

Definition remoteTree : list TreeEntry :=
  [ {| path := Some "indicators/a.json"; type := Some "blob" |};
    {| path := Some "readme.md"; type := Some "blob" |};
    {| path := Some "indicators/b.json"; type := Some "blob" |} ].

(** A tree with a path that leaves the directory, and one that comes to
    [indicators/a.json] by a detour. *)
Definition trickyTree : list TreeEntry :=
  [ {| path := Some "indicators/a.json"; type := Some "blob" |};
    {| path := Some "indicators/../../escape.json"; type := Some "blob" |};
    {| path := Some "indicators/x/../a.json"; type := Some "blob" |} ].

(** [JSON.parse] on the bodies of this host.  A body is written as a tag,
    and [parse] gives the object the tag stands for. *)
Definition parse (buf : string) : Outcome (option Json) :=
  if decide (buf = "TREE") then
    Returned (Some {| tree := Some remoteTree; content := None; encoding := None |})
  else if decide (buf = "TRICKY") then
    Returned (Some {| tree := Some trickyTree; content := None; encoding := None |})
  else if decide (buf = "A") then
    Returned (Some {| tree := None; content := Some "WzFd"; encoding := Some "base64" |})
  else if decide (buf = "B") then
    Returned (Some {| tree := None; content := Some "WzJd"; encoding := None |})
  else if decide (buf = "null") then Returned None
  else if decide (buf = "{}") then
    Returned (Some {| tree := None; content := None; encoding := None |})
  else Thrown "Unexpected token in JSON".

Definition decode (content encoding : string) : Outcome string :=
  if decide (encoding = "base64") then
    if decide (content = "WzFd") then Returned "[1]"
    else if decide (content = "WzJd") then Returned "[2]"
    else Returned content
  else Thrown "Unknown encoding".

End Host.

Module Scenario.

Definition fileUrl (p : string) : string :=
  "https://api.github.com/repos/" +:+ AUTO_OWNER +:+ "/" +:+ AUTO_REPO
  +:+ "/contents/" +:+ Host.encodeSlashes p +:+ "?ref=main".

(** The host answers by URL: the version marker is [v2] followed by a
    line feed. *)
Definition answer (n : nat) (rq : Request) : HttpResult :=
  if decide (url rq = REMOTE_VERSION_URL) then http_end ("v2" +:+ String "010" "")
  else if decide (url rq = treeUrl AUTO_OWNER AUTO_REPO "main") then http_end "TREE"
  else if decide (url rq = fileUrl "indicators/a.json") then http_end "A"
  else if decide (url rq = fileUrl "indicators/b.json") then http_end "B"
  else http_error "getaddrinfo ENOTFOUND".

(** The same host, on which the version marker is empty. *)
Definition blankVersion (n : nat) (rq : Request) : HttpResult :=
  if decide (url rq = REMOTE_VERSION_URL) then http_end (String "010" "")
  else answer n rq.

(** The same host, on which the fetch of [a.json] fails. *)
Definition flaky (n : nat) (rq : Request) : HttpResult :=
  if decide (url rq = fileUrl "indicators/a.json") then http_error "socket hang up"
  else answer n rq.

(** The same host, off line. *)
Definition offline (n : nat) (rq : Request) : HttpResult :=
  http_error "getaddrinfo ENOTFOUND".

(** A host with the tricky tree: [a.json] holds [[1]], every other file
    [[2]]. *)
Definition tricky (n : nat) (rq : Request) : HttpResult :=
  if decide (url rq = treeUrl AUTO_OWNER AUTO_REPO "main") then http_end "TRICKY"
  else if decide (url rq = fileUrl "indicators/a.json") then http_end "A"
  else http_end "B".

(** A process installed under [/opt/WorldData], as a development build
    or not, on the network [net]. *)
Definition envWith (dev : bool) (net : nat → Request → HttpResult) : Env := {|
  isDev := dev;
  execPath := "/opt/WorldData/worlddata";
  userData := "/home/u/.config/WorldData";
  keytar := Some Host.memKeytar;
  https_get := net;
  JSON_parse := Host.parse;
  Buffer_from := Host.decode;
  encodeURIComponent := Host.encodeSlashes;
|}.

Definition env (dev : bool) : Env := envWith dev answer.

(** The options of the automatic sync to version [v2]. *)
Definition autoOpts : option Opts :=
  Some {| owner := Some AUTO_OWNER; repo := Some AUTO_REPO; branch := Some "main";
          token := None; version := Some "v2" |}.

Definition start : World := Host.world0 Host.emptyDisk Live.

End Scenario.

(** ** The vocabulary of the specification *)

(** An option of [opts] is missing or empty. *)
Definition missing_or_empty (x : option string) : Prop := x = None ∨ x = Some "".

(** The entries the listing keeps, in the words of the specification: a
    blob whose path starts with [indicators/] and, lower-cased, ends with
    [.json]. *)
Definition IsIndicatorJson (i : TreeEntry) : Prop :=
  type i = Some "blob"
  ∧ ∃ p, path i = Some p
         ∧ (∃ rest, p = "indicators/" +:+ rest)
         ∧ (∃ stem, Str.toLowerCase p = stem +:+ ".json").

(** [Selects P l r]: [r] holds exactly the entries of [l] that satisfy
    [P], in the order of [l]. *)
Inductive Selects (P : TreeEntry → Prop) : list TreeEntry → list TreeEntry → Prop :=
| selects_nil : Selects P [] []
| selects_keep i l r : P i → Selects P l r → Selects P (i :: l) (i :: r)
| selects_skip i l r : ¬ P i → Selects P l r → Selects P (i :: l) r.

(** The probe file of [getIndicatorsDir]. *)
Definition installDir (env : Env) : string :=
  path.join (path.dirname (execPath env)) "indicators".
Definition probeFile (env : Env) : string :=
  path.join (installDir env) ".write_test".
Definition userDataDir (env : Env) : string :=
  path.join (userData env) "indicators".

(** The host lets the probe of the install directory through. *)
Definition installWritable (env : Env) (d : FS) : Prop :=
  (installDir env ∉ fs_denied d) ∧ (probeFile env ∉ fs_denied d).

(** The directory a call resolves to, read off the build kind and the
    permissions of the host at the time of the call. *)
Definition resolvedDir (env : Env) (d : FS) : string :=
  if isDev env then userDataDir env
  else if decide (installWritable env d) then installDir env
  else userDataDir env.

(** What one candidate file comes to when it is the [n]-th request of the
    process: the bytes that are written, or the error that is recorded.
    A file fails when its fetch fails (no answer, no JSON, no content, no
    decoding) or when the host refuses the write. *)
Definition fileOutcome (env : Env) (headers : list (string * string))
    (owner repo branch indicatorsDir : string) (denied : gset string)
    (n : nat) (item : TreeEntry) : Outcome string :=
  match https_get env n {| url := contentUrl env owner repo branch (itemPath item);
                           headers := headers; timeout := 20000%N |} with
  | http_error message => Thrown message
  | http_timeout => Thrown "timeout"
  | http_end body =>
      match JSON_parse env body with
      | Thrown e => Thrown e
      | Returned fileResp =>
          match fileResp ≫= content with
          | None | Some "" => Thrown "no content"
          | Some c =>
              match Buffer_from env c
                      (match fileResp ≫= encoding with
                       | None | Some "" => "base64"
                       | Some enc => enc
                       end) with
              | Thrown e => Thrown e
              | Returned bytes =>
                  if decide (outPath indicatorsDir item ∈ denied)
                  then Thrown ("EACCES: permission denied, open '"
                               +:+ outPath indicatorsDir item +:+ "'")
                  else Returned bytes
              end
          end
      end
  end.

(** The request made for one candidate file. *)
Definition contentRequestOf (env : Env) (hdrs : list (string * string))
    (owner repo branch : string) (item : TreeEntry) : Request :=
  {| url := contentUrl env owner repo branch (itemPath item);
     headers := hdrs; timeout := 20000%N |}.

Definition arrives {A} (o : Outcome A) : bool :=
  match o with Returned _ => true | Thrown _ => false end.

Section Expected.

Context (env : Env) (headers : list (string * string)).
Context (owner repo branch indicatorsDir : string) (denied : gset string).
Context (total : nat).

(** The files that arrive, the errors, and the progress events of a run
    over [items], the first of which is request [n] and has position
    [S i]. *)
Fixpoint arrivedFrom (n : nat) (items : list TreeEntry) : list string :=
  match items with
  | [] => []
  | item :: rest =>
      match fileOutcome env headers owner repo branch indicatorsDir denied n item with
      | Returned _ => itemPath item :: arrivedFrom (S n) rest
      | Thrown _ => arrivedFrom (S n) rest
      end
  end.

Fixpoint failedFrom (n : nat) (items : list TreeEntry) : list (string * string) :=
  match items with
  | [] => []
  | item :: rest =>
      match fileOutcome env headers owner repo branch indicatorsDir denied n item with
      | Returned _ => failedFrom (S n) rest
      | Thrown e => (itemPath item, e) :: failedFrom (S n) rest
      end
  end.

Fixpoint progressFrom (n i : nat) (items : list TreeEntry) : list Event :=
  match items with
  | [] => []
  | item :: rest =>
      match fileOutcome env headers owner repo branch indicatorsDir denied n item with
      | Returned _ =>
          (indicators_download_progress (S i) total (itemPath item))
          :: progressFrom (S n) (S i) rest
      | Thrown _ => progressFrom (S n) (S i) rest
      end
  end.

End Expected.

(** *** A pass, seen from where it starts

    What a pass started in world [w] with options [opts] works with, read
    off [opts], the host and [w]. *)

Definition passOwner (opts : option Opts) : string := Str.or_else (opts ≫= owner) "".
Definition passRepo (opts : option Opts) : string := Str.or_else (opts ≫= repo) "".
Definition passBranch (opts : option Opts) : string :=
  Str.or_else (opts ≫= branch) "main".

(** The options name an owner and a repo. *)
Definition configured (opts : option Opts) : Prop :=
  passOwner opts ≠ "" ∧ passRepo opts ≠ "".

(** The token of the pass: that of the options, else the stored one. *)
Definition passToken (env : Env) (opts : option Opts) (w : World) : option string :=
  match Str.or_null (opts ≫= token), keytar env with
  | None, Some kt =>
      match (getPassword kt KEYTAR_SERVICE "indicator" (keychain w)).1 with
      | Returned t => t
      | Thrown _ => None
      end
  | t, _ => t
  end.

Definition passHeaders (env : Env) (opts : option Opts) (w : World)
  : list (string * string) :=
  requestHeaders (passToken env opts w).

Definition passDir (env : Env) (w : World) : string := resolvedDir env (disk w).

(** The disk once the directory is resolved and ensured, before the
    listing is asked for. *)
Definition preparedDisk (env : Env) (d : FS) : FS :=
  (ensureDir (resolvedDir env d) (getIndicatorsDir env d).2).2.

Definition treeRequest (env : Env) (opts : option Opts) (w : World) : Request :=
  {| url := treeUrl (passOwner opts) (passRepo opts) (passBranch opts);
     headers := passHeaders env opts w; timeout := 20000%N |}.

(** What the listing request comes to: the parsed answer, or the error. *)
Definition treeAnswer (env : Env) (opts : option Opts) (w : World)
  : Outcome (option Json) :=
  match https_get env (length (requests w)) (treeRequest env opts w) with
  | http_error message => Thrown message
  | http_timeout => Thrown "timeout"
  | http_end body => JSON_parse env body
  end.

(** The tree of the listing; [None] when the listing fails: no answer, a
    timeout, a body that does not parse, or an answer without [tree]. *)
Definition listed (env : Env) (opts : option Opts) (w : World)
  : option (list TreeEntry) :=
  match treeAnswer env opts w with
  | Returned j => j ≫= tree
  | Thrown _ => None
  end.

(** The candidate files that arrive, the errors recorded, and the progress
    events, for the candidate files [files] of the pass. *)
Definition passArrived (env : Env) (opts : option Opts) (w : World)
    (files : list TreeEntry) : list string :=
  arrivedFrom env (passHeaders env opts w) (passOwner opts) (passRepo opts)
    (passBranch opts) (passDir env w) (fs_denied (disk w))
    (S (length (requests w))) files.

Definition passFailed (env : Env) (opts : option Opts) (w : World)
    (files : list TreeEntry) : list (string * string) :=
  failedFrom env (passHeaders env opts w) (passOwner opts) (passRepo opts)
    (passBranch opts) (passDir env w) (fs_denied (disk w))
    (S (length (requests w))) files.

Definition passProgress (env : Env) (opts : option Opts) (w : World)
    (files : list TreeEntry) : list Event :=
  progressFrom env (passHeaders env opts w) (passOwner opts) (passRepo opts)
    (passBranch opts) (passDir env w) (fs_denied (disk w)) (length files)
    (S (length (requests w))) 0 files.

(** What becomes of the [k]-th candidate file of the pass, counting from
    [0]. *)
Definition passOutcome (env : Env) (opts : option Opts) (w : World)
    (k : nat) (item : TreeEntry) : Outcome string :=
  fileOutcome env (passHeaders env opts w) (passOwner opts) (passRepo opts)
    (passBranch opts) (passDir env w) (fs_denied (disk w))
    (S (length (requests w)) + k) item.

(** The number of candidate files of the pass that fail. *)
Definition failureCount (env : Env) (opts : option Opts) (w : World)
    (files : list TreeEntry) : nat :=
  length (List.filter (λ o, negb (arrives o)) (imap (passOutcome env opts w) files)).

(** [success] of what a pass returns; a pass that throws has none. *)
Definition success_of (o : Outcome Result) : bool :=
  match o with Returned r => success r | Thrown _ => false end.

Definition downloadedCount (r : Result) : nat :=
  match r with Done n _ _ => n | Failed _ => 0 end.

Definition resultErrors (r : Result) : list (string * string) :=
  match r with Done _ errs _ => errs | Failed _ => [] end.

(** What a run from [w] adds to the messages sent to the renderer. *)
Definition newlySent {A} (w : World) (r : Outcome A * World) : list Event :=
  drop (length (sent w)) (sent r.2).

(** *** The version check, seen from where it starts *)

Definition versionRequest : Request :=
  {| url := REMOTE_VERSION_URL; headers := []; timeout := 15000%N |}.

(** The remote version the check fetches, trimmed; [None] when the fetch
    fails. *)
Definition remoteVersion (env : Env) (w : World) : option string :=
  match https_get env (length (requests w)) versionRequest with
  | http_end body => Some (Str.trim body)
  | _ => None
  end.

(** The installed version the check reads. *)
Definition installedVersion (env : Env) (w : World) : option string :=
  match (readInstalledIndicatorVersion env (disk w)).1 with
  | Returned v => v
  | Thrown _ => None
  end.

(** The check goes on to a download pass: it asks for the tree listing of
    the repository of the automatic sync. *)
Definition passAttempted (env : Env) (w : World) : bool :=
  existsb (λ rq, bool_decide (url rq = treeUrl AUTO_OWNER AUTO_REPO "main"))
    (drop (length (requests w)) (requests (checkAndUpdateIndicators env w).2)).

(** ** More of the main process and of the preload script *)

(** *** The version check on demand *)

(** What [check-indicators-version] resolves with:
    [{ success: true, version }] or [{ success: false, error }]. *)
Inductive VersionCheck :=
| version_found (version : string)
| version_failed (error : string).

(** [ipcMain.handle('check-indicators-version', ...)].  The URL comes
    from the renderer: [https_throws url] is the error that
    [https.get(url, ...)] throws at once, when [url] is no URL or not one
    of [https]; no request is made then. *)
Definition check_indicators_version (env : Env) (https_throws : string → option Exn)
    (url : string) : M VersionCheck :=
  try_catch
    (do r ← match https_throws url with
            | Some err => throw err
            | None => https_get_M env {| url := url; headers := []; timeout := 15000%N |}
            end;
     match r with
     | http_end buf => ret (version_found (Str.trim buf))
     | http_error message => ret (version_failed message)
     | http_timeout => ret (version_failed "timeout")
     end)
    (λ err, ret (version_failed err)).

(** *** Reading an installed file *)

(** [ipcMain.handle('read-indicator-file', ...)] *)
Definition read_indicator_file (env : Env) (relPath : string) : M (option string) :=
  on_disk
    (try_catch
       (do dir ← getIndicatorsDir env;
        let p := path.join dir relPath in
        do present ← fs.existsSync p;
        if negb present then ret None
        else
          do txt ← fs.readFileSync p;
          ret (Some txt))
       (λ _, ret None)).

(** *** The port of the development server *)

Definition tryPorts : list N := [5173; 5174; 5175; 5176; 5177; 5178]%N.

Section Ports.

(** Whether something answers on a port at the [n]-th probe of the
    process.  An error and a timeout both count as no answer. *)
Context (answering : nat → N → bool).

(** [probe(port)]; the state is the list of the ports probed so far. *)
Definition probe (port : N) : St (list N) bool := λ probed,
  (Returned (answering (length probed) port), (probed ++ [port])%list).

(** [for (const p of tryPorts) { if (await probe(p)) return p; } return 5173;] *)
Fixpoint findPort_from (ports : list N) : St (list N) N :=
  match ports with
  | [] => ret 5173%N
  | p :: rest =>
      do ok ← probe p;
      if ok then ret p else findPort_from rest
  end.

Definition findPort : St (list N) N := findPort_from tryPorts.

(** [startUrl] of a development build. *)
Definition devStartUrl : St (list N) string :=
  try_catch
    (do port ← findPort;
     ret ("http://localhost:" +:+ pretty port))
    (λ _, ret "http://localhost:5173").

End Ports.

(** *** Asset paths in the preload script *)

Module Regex.

(** The string is made of [/] only. *)
Fixpoint allSlashes (s : string) : bool :=
  match s with
  | "" => true
  | String c s' => bool_decide (c = "/"%char) && allSlashes s'
  end.

(** The string starts with two [/]. *)
Definition startsDouble (s : string) : bool :=
  match s with
  | String a (String b _) => bool_decide (a = "/"%char) && bool_decide (b = "/"%char)
  | _ => false
  end.

(** [s.replace(/\/\/+$/, '')]: a run of two or more [/] at the end goes. *)
Fixpoint dropTrailingSlashes (s : string) : string :=
  match s with
  | "" => ""
  | String c s' =>
      if startsDouble s && allSlashes s then ""
      else String c (dropTrailingSlashes s')
  end.

Fixpoint dropLeadingSlashes (s : string) : string :=
  match s with
  | "" => ""
  | String c s' => if decide (c = "/"%char) then dropLeadingSlashes s' else s
  end.

(** [s.replace(/\/\/+/, '/')]: the first run of two or more [/] becomes
    one [/]; later runs stay. *)
Fixpoint collapseFirstSlashes (s : string) : string :=
  match s with
  | "" => ""
  | String c s' =>
      if startsDouble s then String "/" (dropLeadingSlashes s')
      else String c (collapseFirstSlashes s')
  end.

(** Some character of the string is a backslash. *)
Fixpoint hasBackslash (s : string) : bool :=
  match s with
  | "" => false
  | String c s' => bool_decide (c = "\"%char) || hasBackslash s'
  end.

(** Two [/] follow each other somewhere in the string. *)
Fixpoint hasDoubleSlash (s : string) : bool :=
  match s with
  | "" => false
  | String c s' => startsDouble s || hasDoubleSlash s'
  end.

End Regex.

(** [getAssetPath(name)] of the preload script; [dirname] is [__dirname],
    [None] when it is not defined. *)
Definition getAssetPath (dirname : option string) (name : string) : string :=
  match dirname with
  | Some dirname =>
      let candidate :=
        Regex.dropTrailingSlashes (Str.slashes dirname) +:+ "/.." +:+ "/dist/" +:+ name in
      let normalized := Regex.collapseFirstSlashes (Str.slashes candidate) in
      "file://" +:+ normalized
  | None => "./dist/" +:+ name
  end.

(** *** Listing the installed files *)

(** An entry of a directory as [fs.readdirSync(dir, { withFileTypes: true })]
    gives it: a file, a directory, or something that is neither (a link,
    a socket).  A directory comes with what reading it in turn comes to,
    its entries or the error that [readdirSync] throws. *)
#[warnings="-register-all"]
Inductive Dirent :=
| dirent_file (name : string)
| dirent_directory (name : string) (inside : Outcome (list Dirent))
| dirent_other (name : string).

(** [path.join(base, name)] on the names of directory entries, which
    hold no [/] and are neither [.] nor [..]: [path.join] leaves an empty
    part out and finds nothing to normalise. *)
Definition relJoin (base name : string) : string :=
  if decide (base = "") then name
  else if decide (name = "") then base
  else base +:+ "/" +:+ name.

(** [results = results.concat(...)] over the entries, in order; the first
    throw ends the loop. *)
Fixpoint collect {A} (f : A → Outcome (list string)) (entries : list A)
  : Outcome (list string) :=
  match entries with
  | [] => Returned []
  | entry :: rest =>
      match f entry with
      | Thrown e => Thrown e
      | Returned found =>
          match collect f rest with
          | Thrown e => Thrown e
          | Returned more => Returned (found ++ more)%list
          end
      end
  end.

(** The body of the loop of [walk(dir, base)] for one entry. *)
Fixpoint walkEntry (base : string) (entry : Dirent) : Outcome (list string) :=
  match entry with
  | dirent_directory name inside =>
      match inside with
      | Thrown e => Thrown e
      | Returned entries => collect (walkEntry (relJoin base name)) entries
      end
  | dirent_file name =>
      if Str.endsWith (Str.toLowerCase name) ".json"
      then Returned [Str.slashes (relJoin base name)]
      else Returned []
  | dirent_other _ => Returned []
  end.

(** [walk(dir, base)], on what [readdirSync(dir)] comes to. *)
Definition walk (listing : Outcome (list Dirent)) (base : string)
  : Outcome (list string) :=
  match listing with
  | Thrown e => Thrown e
  | Returned entries => collect (walkEntry base) entries
  end.

(** [ipcMain.handle('list-indicator-files', ...)]; [readdirSync dir] is
    what the host lists under [dir]. *)
Definition list_indicator_files (env : Env)
    (readdirSync : string → Outcome (list Dirent)) : M (list string) :=
  on_disk
    (try_catch
       (do dir ← getIndicatorsDir env;
        do _ ← ensureDir dir;
        do root ← getIndicatorsDir env;
        of_outcome (walk (readdirSync root) ""))
       (λ _, ret [])).

(** *** Vocabulary for what follows *)

(** A keytar that works and keeps what it is given: what was set is what
    is got, and nothing is got once it is deleted. *)
Record LawfulKeytar (kt : Keytar) : Prop := {
  set_returns : ∀ s a p k, (setPassword kt s a p k).1 = Returned ();
  get_after_set : ∀ s a p k,
    (getPassword kt s a (setPassword kt s a p k).2).1 = Returned (Some p);
  delete_returns : ∀ s a k, ∃ b, (deletePassword kt s a k).1 = Returned b;
  get_after_delete : ∀ s a k,
    (getPassword kt s a (deletePassword kt s a k).2).1 = Returned None;
}.

(** The host answers a request the same way whenever it is made. *)
Definition answersByRequest (env : Env) : Prop :=
  ∀ n m rq, https_get env n rq = https_get env m rq.

(** The writes of the files that arrive, in the order of the loop. *)
Fixpoint writesFrom (env : Env) (hdrs : list (string * string))
    (owner repo branch indicatorsDir : string) (denied : gset string)
    (n : nat) (items : list TreeEntry) : list (string * string) :=
  match items with
  | [] => []
  | item :: rest =>
      match fileOutcome env hdrs owner repo branch indicatorsDir denied n item with
      | Returned bytes =>
          (outPath indicatorsDir item, bytes)
          :: writesFrom env hdrs owner repo branch indicatorsDir denied (S n) rest
      | Thrown _ => writesFrom env hdrs owner repo branch indicatorsDir denied (S n) rest
      end
  end.

(** Files after a list of writes, the later write winning. *)
Definition applyWrites (ws : list (string * string)) (files : gmap string string)
  : gmap string string :=
  foldl (λ m pb, <[pb.1 := pb.2]> m) files ws.

Definition passWrites (env : Env) (opts : option Opts) (w : World)
    (files : list TreeEntry) : list (string * string) :=
  writesFrom env (passHeaders env opts w) (passOwner opts) (passRepo opts)
    (passBranch opts) (passDir env w) (fs_denied (disk w))
    (S (length (requests w))) files.

(** The write of the version file at the end of a pass, when there is
    one: the options carry a version and the host accepts the write. *)
Definition versionWrite (env : Env) (opts : option Opts) (w : World)
  : list (string * string) :=
  match Str.or_null (opts ≫= version) with
  | Some v =>
      if decide (versionFile (passDir env w) ∈ fs_denied (disk w)) then []
      else [(versionFile (passDir env w), v)]
  | None => []
  end.

(** The messages that are not about a download: [indicators-updated]. *)
Definition isUpdated (ev : Event) : bool :=
  match ev with indicators_updated _ _ _ => true | _ => false end.

(** A sequence of UTF-8 that is well formed: one code point. *)
Definition validUnit (unit : string) : bool :=
  match unit with
  | String a "" => Utf8.within 0 127 a
  | String a (String b "") => Utf8.within 194 223 a && Utf8.cont b
  | String a (String b (String c "")) =>
      Utf8.within 224 239 a && Utf8.second3 a b && Utf8.cont c
  | String a (String b (String c (String d ""))) =>
      Utf8.within 240 244 a && Utf8.second4 a b && Utf8.cont c && Utf8.cont d
  | _ => false
  end.

(** No character of the string is a [/]. *)
Fixpoint noSlash (s : string) : bool :=
  match s with
  | "" => true
  | String c s' => negb (bool_decide (c = "/"%char)) && noSlash s'
  end.

(** Every character of the string is a dot. *)
Fixpoint dotsOnly (s : string) : bool :=
  match s with
  | "" => true
  | String c s' => bool_decide (c = "."%char) && dotsOnly s'
  end.

(** What the stored token comes to where keytar is asked for it and a
    failure of keytar is swallowed: the token, none without keytar or when
    the call throws, and the keychain afterwards. *)
Definition storedToken (env : Env) (k : Keychain) : option string * Keychain :=
  match keytar env with
  | Some kt =>
      match getPassword kt KEYTAR_SERVICE "indicator" k with
      | (Returned t, k') => (t, k')
      | (Thrown _, k') => (None, k')
      end
  | None => (None, k)
  end.

(** The options the check hands to the pass for the remote version [b]. *)
Definition checkOpts (env : Env) (w : World) (b : string) : option Opts :=
  Some {| owner := Some AUTO_OWNER; repo := Some AUTO_REPO; branch := Some "main";
          token := (storedToken env (keychain w)).1; version := Some b |}.

(** The world in which the pass of the check starts: the version has been
    asked for, the installed version read and the stored token fetched. *)
Definition checkStart (env : Env) (w : World) : World :=
  {| disk := (readInstalledIndicatorVersion env (disk w)).2;
     keychain := (storedToken env (keychain w)).2;
     requests := (requests w ++ [versionRequest])%list;
     mainWindow := mainWindow w; sent := sent w |}.

(** Every directory of the listing can be read. *)
Fixpoint readableEntry (entry : Dirent) : bool :=
  match entry with
  | dirent_directory _ (Returned entries) => forallb readableEntry entries
  | dirent_directory _ (Thrown _) => false
  | _ => true
  end.

Definition readable (listing : Outcome (list Dirent)) : bool :=
  match listing with
  | Returned entries => forallb readableEntry entries
  | Thrown _ => false
  end.

(** [HoldsJson entries rel]: the entries hold, at the relative path [rel],
    a file whose name ends in [.json], whatever the case of the letters. *)
Inductive HoldsJson : list Dirent → string → Prop :=
| holds_here entries name :
    dirent_file name ∈ entries →
    Str.endsWith (Str.toLowerCase name) ".json" = true →
    HoldsJson entries name
| holds_below entries name inside rel :
    dirent_directory name (Returned inside) ∈ entries →
    HoldsJson inside rel →
    HoldsJson entries (relJoin name rel).

(** * Properties *)

(** ** Strings *)

Lemma append_cons a s t : String a s +:+ t = String a (s +:+ t).
Proof. reflexivity. Qed.

Lemma append_empty_l t : "" +:+ t = t.
Proof. reflexivity. Qed.

Lemma append_assoc (s t u : string) : (s +:+ t) +:+ u = s +:+ (t +:+ u).
Proof. induction s as [|a s IH]; [done|]. by rewrite !append_cons, IH. Qed.

Lemma startsWith_spec s p : Str.startsWith s p = true ↔ ∃ rest, s = p +:+ rest.
Proof.
  revert s. induction p as [|a p IH]; intros s.
  - destruct s; simpl; (split; [|done]); intros _; eexists; reflexivity.
  - destruct s as [|b s]; simpl.
    + split; [done|]. intros [rest H]. by rewrite append_cons in H.
    + case_decide as Hab.
      * subst b. rewrite IH. split.
        -- intros [rest ->]. by exists rest.
        -- intros [rest H]. rewrite append_cons in H. exists rest. congruence.
      * split; [done|]. intros [rest H]. rewrite append_cons in H. congruence.
Qed.

Lemma endsWith_spec s suf : Str.endsWith s suf = true ↔ ∃ stem, s = stem +:+ suf.
Proof.
  induction s as [|a s IH]; simpl.
  - case_decide as H.
    + split; [|done]. intros _. exists "". by subst.
    + split; [done|]. intros [[|b stem] E]; [by rewrite append_empty_l in E|].
      by rewrite append_cons in E.
  - case_decide as H.
    + split; [|done]. intros _. exists "". by subst.
    + rewrite IH. split.
      * intros [stem ->]. by exists (String a stem).
      * intros [[|b stem] E]; [by rewrite append_empty_l in E|].
        rewrite append_cons in E. exists stem. congruence.
Qed.

Lemma truthy_true s : Str.truthy s = true ↔ s ≠ "".
Proof. destruct s; simpl; split; congruence. Qed.

(** ** Text in UTF-8 and trimming *)

Lemma append_empty_r s : s +:+ "" = s.
Proof. induction s as [|a s IH]; [done|]. by rewrite append_cons, IH. Qed.

Ltac bounds :=
  unfold Utf8.second3, Utf8.second4, Utf8.cont, Utf8.within in *;
  repeat match goal with
         | H : context [(?a =? ?b)%nat] |- _ => destruct (Nat.eqb_spec a b)
         | |- context [(?a =? ?b)%nat] => destruct (Nat.eqb_spec a b)
         end;
  rewrite ?andb_true_iff, ?andb_false_iff, ?Nat.leb_le, ?Nat.leb_gt in *;
  lia.

Lemma replacement_valid : validUnit Utf8.replacement = true.
Proof. reflexivity. Qed.

(** A well-formed sequence in front is cut off as it is. *)
Lemma parse_unit u r :
  validUnit u = true → Utf8.parse (u +:+ r) = u :: Utf8.parse r.
Proof.
  destruct u as [|a [|b [|c [|d [|e u]]]]]; try done;
    rewrite ?append_cons, ?append_empty_l; cbn [validUnit Utf8.parse].
  - by intros ->.
  - intros [Ha Hb]%andb_true_iff.
    assert (Utf8.within 0 127 a = false) as -> by bounds.
    by rewrite Ha, Hb.
  - intros [[Ha Hb]%andb_true_iff Hc]%andb_true_iff.
    assert (Utf8.within 0 127 a = false) as -> by bounds.
    assert (Utf8.within 194 223 a = false) as -> by bounds.
    by rewrite Ha, Hb, Hc.
  - intros [[[Ha Hb]%andb_true_iff Hc]%andb_true_iff Hd]%andb_true_iff.
    assert (Utf8.within 0 127 a = false) as -> by bounds.
    assert (Utf8.within 194 223 a = false) as -> by bounds.
    assert (Utf8.within 224 239 a = false) as -> by bounds.
    by rewrite Ha, Hb, Hc, Hd.
Qed.

Lemma parse_valid_upto n : ∀ s,
  (String.length s ≤ n)%nat → Forall (λ u, validUnit u = true) (Utf8.parse s).
Proof.
  induction n as [|n IH]; intros s Hn.
  { destruct s; [constructor|simpl in Hn; lia]. }
  destruct s as [|a s1]; [constructor|]. simpl in Hn.
  assert (∀ t, (String.length t ≤ String.length s1)%nat →
               Forall (λ u, validUnit u = true) (Utf8.parse t)) as IH'
    by (intros t Ht; apply IH; lia).
  cbn [Utf8.parse].
  destruct (Utf8.within 0 127 a) eqn:E1.
  { constructor; [by simpl|]. by apply IH'. }
  destruct (Utf8.within 194 223 a) eqn:E2.
  { destruct s1 as [|b s2]; [by repeat constructor|].
    destruct (Utf8.cont b) eqn:Eb.
    - constructor; [simpl; by rewrite E2, Eb|]. apply IH'. simpl. lia.
    - constructor; [done|]. by apply IH'. }
  destruct (Utf8.within 224 239 a) eqn:E3.
  { destruct s1 as [|b s2]; [by repeat constructor|].
    destruct (Utf8.second3 a b) eqn:Eb; [|constructor; [done|by apply IH']].
    destruct s2 as [|c s3]; [by repeat constructor|].
    destruct (Utf8.cont c) eqn:Ec.
    - constructor; [simpl; by rewrite E3, Eb, Ec|]. apply IH'. simpl. lia.
    - constructor; [done|]. apply IH'. simpl. lia. }
  destruct (Utf8.within 240 244 a) eqn:E4; [|constructor; [done|by apply IH']].
  destruct s1 as [|b s2]; [by repeat constructor|].
  destruct (Utf8.second4 a b) eqn:Eb; [|constructor; [done|by apply IH']].
  destruct s2 as [|c s3]; [by repeat constructor|].
  destruct (Utf8.cont c) eqn:Ec; [|constructor; [done|apply IH'; simpl; lia]].
  destruct s3 as [|d s4]; [by repeat constructor|].
  destruct (Utf8.cont d) eqn:Ed.
  - constructor; [simpl; by rewrite E4, Eb, Ec, Ed|]. apply IH'. simpl. lia.
  - constructor; [done|]. apply IH'. simpl. lia.
Qed.

(** What the decoding gives is well formed. *)
Lemma parse_valid s : Forall (λ u, validUnit u = true) (Utf8.parse s).
Proof. by apply (parse_valid_upto (String.length s)). Qed.

(** Well-formed code points are decoded as they are. *)
Lemma parse_concat us :
  Forall (λ u, validUnit u = true) us → Utf8.parse (Utf8.concat us) = us.
Proof.
  induction 1 as [|u us Hu _ IH]; [done|].
  change (Utf8.concat (u :: us)) with (u +:+ Utf8.concat us).
  by rewrite parse_unit, IH.
Qed.

Lemma decode_idempotent s : Utf8.decode (Utf8.decode s) = Utf8.decode s.
Proof. unfold Utf8.decode. by rewrite parse_concat by apply parse_valid. Qed.

Lemma dropSpace_suffix l : ∃ p, l = (p ++ Str.dropSpace l)%list.
Proof.
  induction l as [|u l [p IH]]; [by exists []|]. simpl.
  destruct (Utf8.isWhiteSpace u).
  - exists (u :: p). simpl. by rewrite <- IH.
  - by exists [].
Qed.

Lemma dropSpace_Forall (P : string → Prop) l :
  Forall P l → Forall P (Str.dropSpace l).
Proof.
  destruct (dropSpace_suffix l) as [p Hp]. intros H. rewrite Hp in H.
  by apply Forall_app in H as [_ H].
Qed.

Lemma dropSpace_fixed l : Str.dropSpace (Str.dropSpace l) = Str.dropSpace l.
Proof.
  induction l as [|u l IH]; [done|]. simpl.
  destruct (Utf8.isWhiteSpace u) eqn:E; [done|]. simpl. by rewrite E.
Qed.

(** Dropping white space at the end leaves the front as it is. *)
Lemma dropSpace_end_fixed m :
  Str.dropSpace m = m →
  Str.dropSpace (reverse (Str.dropSpace (reverse m)))
  = reverse (Str.dropSpace (reverse m)).
Proof.
  intros Hm. destruct (dropSpace_suffix (reverse m)) as [p Hp].
  assert (m = (reverse (Str.dropSpace (reverse m)) ++ reverse p)%list) as Hsplit.
  { rewrite <- reverse_app, <- Hp. by rewrite reverse_involutive. }
  destruct (reverse (Str.dropSpace (reverse m))) as [|u r]; [done|].
  simpl. destruct (Utf8.isWhiteSpace u) eqn:E; [|done].
  exfalso. rewrite Hsplit in Hm. simpl in Hm. rewrite E in Hm.
  destruct (dropSpace_suffix (r ++ reverse p)) as [q Hq].
  rewrite Hm in Hq. apply (f_equal length) in Hq.
  rewrite !length_app in Hq. simpl in Hq. rewrite !length_app in Hq. lia.
Qed.

Lemma trim_units_fixed l :
  let T := λ l, reverse (Str.dropSpace (reverse (Str.dropSpace l))) in
  T (T l) = T l.
Proof.
  intros T. unfold T at 1.
  assert (Str.dropSpace (T l) = T l) as ->
    by apply dropSpace_end_fixed, dropSpace_fixed.
  unfold T. by rewrite reverse_involutive, dropSpace_fixed.
Qed.

Lemma trim_units_valid s :
  Forall (λ u, validUnit u = true)
    (reverse (Str.dropSpace (reverse (Str.dropSpace (Utf8.parse s))))).
Proof.
  apply Forall_reverse, dropSpace_Forall, Forall_reverse, dropSpace_Forall.
  apply parse_valid.
Qed.

(** Trimming what is trimmed changes nothing. *)
Lemma trim_idempotent s : Str.trim (Str.trim s) = Str.trim s.
Proof.
  unfold Str.trim at 1. unfold Str.trim at 1.
  rewrite parse_concat by apply trim_units_valid.
  by rewrite (trim_units_fixed (Utf8.parse s)).
Qed.

(** Decoding first makes no difference to what [trim] gives, and what
    [trim] gives is well formed. *)
Lemma trim_decode s : Str.trim (Utf8.decode s) = Str.trim s.
Proof. unfold Str.trim, Utf8.decode. by rewrite parse_concat by apply parse_valid. Qed.

Lemma decode_trim s : Utf8.decode (Str.trim s) = Str.trim s.
Proof.
  unfold Utf8.decode, Str.trim at 1.
  by rewrite parse_concat by apply trim_units_valid.
Qed.

(** ** Paths *)

Lemma append_last_inj s1 s2 c1 c2 :
  s1 +:+ String c1 "" = s2 +:+ String c2 "" → s1 = s2 ∧ c1 = c2.
Proof.
  revert s2. induction s1 as [|a s1 IH]; intros [|b s2] H.
  - by injection H as ->.
  - rewrite append_cons in H. injection H as -> H. by destruct s2.
  - rewrite append_cons in H. injection H as -> H. by destruct s1.
  - rewrite !append_cons in H. injection H as -> H.
    destruct (IH _ H) as [-> ->]. done.
Qed.

Lemma segments_noSlash suf : noSlash suf = true → path.segments suf = [suf].
Proof.
  induction suf as [|c suf IH]; [done|]. simpl.
  intros [Hc Hs]%andb_true_iff. apply negb_true_iff, bool_decide_eq_false_1 in Hc.
  rewrite decide_False by done. by rewrite IH.
Qed.

(** The segments of a path that goes on without a [/]. *)
Lemma segments_app b suf :
  noSlash suf = true →
  ∃ init lastseg, path.segments b = (init ++ [lastseg])%list
                  ∧ path.segments (b +:+ suf) = (init ++ [lastseg +:+ suf])%list.
Proof.
  intros Hs. induction b as [|c b (init & lastseg & Hb & Hbs)].
  - exists [], "". split; [done|]. by rewrite append_empty_l, segments_noSlash.
  - rewrite append_cons. simpl. destruct (decide (c = "/"%char)).
    + exists ("" :: init), lastseg. by rewrite Hb, Hbs.
    + rewrite Hb, Hbs. destruct init as [|x init]; simpl.
      * exists [], (String c lastseg). done.
      * exists (String c x :: init), lastseg. done.
Qed.

Lemma dotsOnly_app x suf : dotsOnly suf = false → dotsOnly (x +:+ suf) = false.
Proof.
  intros H. induction x as [|c x IH]; [done|]. rewrite append_cons. simpl.
  by rewrite IH, andb_false_r.
Qed.

Lemma step_plain allow kept seg :
  dotsOnly seg = false → path.step allow kept seg = seg :: kept.
Proof.
  intros H. unfold path.step.
  destruct (decide (seg = "")) as [->|_]; [done|].
  destruct (decide (seg = ".")) as [->|_]; [done|].
  destruct (decide (seg = "..")) as [->|_]; done.
Qed.

Lemma unsplit_snoc l x : ∃ pre, path.unsplit (l ++ [x]) = pre +:+ x.
Proof.
  induction l as [|y l [pre IH]]; [by exists ""|].
  exists (y +:+ "/" +:+ pre). simpl. rewrite IH.
  destruct (l ++ [x])%list eqn:E; [by destruct l|].
  by rewrite !append_assoc.
Qed.

Lemma endsSlash_noSlash suf : noSlash suf = true → path.endsSlash suf = false.
Proof.
  induction suf as [|c suf IH]; [done|]. simpl.
  intros [Hc Hs]%andb_true_iff. apply negb_true_iff in Hc.
  destruct suf; [done|]. by apply IH.
Qed.

Lemma endsSlash_app b suf :
  suf ≠ "" → path.endsSlash (b +:+ suf) = path.endsSlash suf.
Proof.
  intros Hs. induction b as [|c b IH]; [done|]. rewrite append_cons.
  cbn [path.endsSlash]. rewrite IH.
  destruct (b +:+ suf) eqn:E; [|done]. destruct b; [done|discriminate].
Qed.

(** A path that ends in a name which holds a character that is not a dot
    keeps this end when it is normalised. *)
Lemma normalize_suffix stem suf :
  noSlash suf = true → dotsOnly suf = false →
  ∃ pre, path.normalize (stem +:+ suf) = pre +:+ suf.
Proof.
  intros Hs Hd.
  assert (suf ≠ "") as Hne by (by intros ->).
  assert (∀ x, x +:+ suf ≠ "") as Hne'.
  { intros x H. destruct x; [done|discriminate]. }
  unfold path.normalize. rewrite decide_False by apply Hne'.
  rewrite (endsSlash_app _ _ Hne), (endsSlash_noSlash _ Hs).
  unfold path.normalizeString.
  destruct (segments_app stem suf Hs) as (init & lastseg & _ & ->).
  rewrite foldl_app. simpl.
  rewrite step_plain by (by apply dotsOnly_app).
  rewrite reverse_cons.
  destruct (unsplit_snoc (reverse (foldl (path.step (negb (path.startsSlash (stem +:+ suf))))
                                     [] init)) (lastseg +:+ suf)) as [pre ->].
  rewrite <- append_assoc.
  rewrite decide_False by apply Hne'.
  destruct (path.startsSlash (stem +:+ suf)).
  - exists ("/" +:+ (pre +:+ lastseg)). by rewrite !append_assoc.
  - eauto.
Qed.

Lemma join_suffix a stem suf :
  noSlash suf = true → dotsOnly suf = false →
  ∃ pre, path.join a (stem +:+ suf) = pre +:+ suf.
Proof.
  intros Hs Hd. unfold path.join.
  assert (stem +:+ suf ≠ "") as Hne.
  { intros H. destruct stem; [|discriminate].
    rewrite append_empty_l in H. by subst. }
  destruct (decide (a = "")); destruct (decide (stem +:+ suf = "")); try done.
  - by apply normalize_suffix.
  - rewrite <- !append_assoc. by apply normalize_suffix.
Qed.

(** A joined path ends as its last part does, one character being
    enough to tell two such paths apart. *)
Lemma join_last a stem c :
  c ≠ "/"%char → c ≠ "."%char →
  ∃ pre, path.join a (stem +:+ String c "") = pre +:+ String c "".
Proof.
  intros H1 H2. apply join_suffix; simpl.
  - by rewrite bool_decide_eq_false_2.
  - by rewrite bool_decide_eq_false_2.
Qed.

Lemma join_last_differ a b s1 c1 s2 c2 :
  c1 ≠ "/"%char → c1 ≠ "."%char → c2 ≠ "/"%char → c2 ≠ "."%char → c1 ≠ c2 →
  path.join a (s1 +:+ String c1 "") ≠ path.join b (s2 +:+ String c2 "").
Proof.
  intros H1 H1' H2 H2' Hne Heq.
  destruct (join_last a s1 c1 H1 H1') as [p1 E1].
  destruct (join_last b s2 c2 H2 H2') as [p2 E2].
  rewrite E1, E2 in Heq. by apply append_last_inj in Heq as [_ ?].
Qed.

Lemma dirname_truthy p : Str.truthy (path.dirname p) = true.
Proof.
  unfold path.dirname. destruct p as [|c0 t]; [done|].
  destruct (path.dirname_go true (String.rev t)) as [before|].
  - by destruct (_ && _).
  - by destruct (bool_decide _).
Qed.

(** On paths made of names with nothing to normalise, [path.join] only
    puts a [/] in between. *)

Lemma segments_cons s : ∃ seg rest, path.segments s = seg :: rest.
Proof.
  induction s as [|c s (seg & rest & IH)]; [by eexists _, _|]. simpl.
  destruct (decide (c = "/"%char)); [by eexists _, _|]. rewrite IH. by eexists _, _.
Qed.

Lemma segments_sep b c :
  path.segments (b +:+ "/" +:+ c) = (path.segments b ++ path.segments c)%list.
Proof.
  induction b as [|x b IH].
  - by rewrite append_empty_l, append_cons, append_empty_l.
  - rewrite append_cons. simpl. destruct (decide (x = "/"%char)); [by rewrite IH|].
    rewrite IH. by destruct (segments_cons b) as (seg & rest & ->).
Qed.

Lemma unsplit_segments s : path.unsplit (path.segments s) = s.
Proof.
  induction s as [|c s IH]; [done|]. simpl.
  destruct (decide (c = "/"%char)) as [->|Hc].
  - destruct (segments_cons s) as (seg & rest & E). rewrite E in *.
    cbn [path.unsplit]. cbn [path.unsplit] in IH. by rewrite <- IH.
  - destruct (segments_cons s) as (seg & rest & E). rewrite E in *.
    cbn [path.unsplit] in *. destruct rest; [by rewrite IH|].
    by rewrite <- IH, append_cons.
Qed.

Lemma fold_step_plain allow segs : ∀ kept,
  Forall (λ seg, dotsOnly seg = false) segs →
  foldl (path.step allow) kept segs = (reverse segs ++ kept)%list.
Proof.
  induction segs as [|seg segs IH]; intros kept Hs; [done|].
  apply Forall_cons in Hs as [Hseg Hs]. simpl.
  rewrite step_plain by done. rewrite IH by done.
  by rewrite reverse_cons, <- app_assoc.
Qed.

Lemma endsSlash_segments s :
  path.endsSlash s = true → ∃ init, path.segments s = (init ++ [""])%list.
Proof.
  induction s as [|c s IH]; [done|]. destruct s as [|d s].
  - simpl. intros ->%bool_decide_eq_true_1. by exists [""].
  - change (path.endsSlash (String c (String d s)))
      with (path.endsSlash (String d s)).
    remember (String d s) as t. intros [init Hi]%IH. simpl. rewrite Hi.
    destruct (decide (c = "/"%char)); [by exists ("" :: init)|].
    destruct init as [|x init]; simpl.
    + exfalso. subst t. simpl in Hi.
      destruct (segments_cons s) as (seg & rest & E). rewrite E in Hi.
      by destruct (decide (d = "/"%char)).
    + by exists (String c x :: init).
Qed.

(** A relative path whose segments all hold a character that is not a
    dot is left as it is. *)
Lemma normalize_plain s :
  Forall (λ seg, dotsOnly seg = false) (path.segments s) → path.normalize s = s.
Proof.
  intros Hs.
  assert (s ≠ "") as Hne.
  { intros ->. by apply Forall_cons in Hs as [? _]. }
  assert (path.startsSlash s = false) as Hstart.
  { destruct s as [|c s]; [done|]. simpl. simpl in Hs.
    destruct (decide (c = "/"%char)); [|by rewrite bool_decide_eq_false_2].
    by apply Forall_cons in Hs as [? _]. }
  assert (path.endsSlash s = false) as Hend.
  { destruct (path.endsSlash s) eqn:E; [|done].
    apply endsSlash_segments in E as [init E]. rewrite E in Hs.
    apply Forall_app in Hs as [_ Hs]. by apply Forall_cons in Hs as [? _]. }
  unfold path.normalize, path.normalizeString.
  rewrite decide_False by done. rewrite Hstart, Hend. simpl.
  rewrite fold_step_plain by done.
  rewrite app_nil_r, reverse_involutive, unsplit_segments.
  by rewrite decide_False.
Qed.

(** The relative path of the walk is what [path.join] gives, for names as
    a directory holds them. *)
Lemma relJoin_is_join base name :
  Forall (λ seg, dotsOnly seg = false) (path.segments base) →
  noSlash name = true → dotsOnly name = false →
  relJoin base name = path.join base name
  ∧ Forall (λ seg, dotsOnly seg = false) (path.segments (relJoin base name)).
Proof.
  intros Hb Hn Hd. unfold relJoin, path.join.
  assert (base ≠ "") as Hne.
  { intros ->. by apply Forall_cons in Hb as [? _]. }
  assert (name ≠ "") as Hne' by (by intros ->).
  rewrite !(decide_False (P := base = "")) by done.
  rewrite !(decide_False (P := name = "")) by done.
  assert (Forall (λ seg, dotsOnly seg = false) (path.segments (base +:+ "/" +:+ name)))
    as Hall.
  { rewrite segments_sep. rewrite (segments_noSlash name) by done.
    apply Forall_app. split; [done|]. by apply Forall_singleton. }
  split; [|done]. symmetry. by apply normalize_plain.
Qed.

(** ** The listing filter *)

Lemma isCandidate_spec i : isCandidate i = true ↔ IsIndicatorJson i.
Proof.
  unfold isCandidate, IsIndicatorJson.
  rewrite !andb_true_iff, bool_decide_eq_true, startsWith_spec, endsWith_spec.
  split.
  - intros [[Ht [rest Hp]] Hs]. split; [done|].
    destruct (path i) as [p|] eqn:E; simpl in *.
    + destruct (Str.truthy p) eqn:Et.
      * exists p. eauto.
      * by rewrite append_cons in Hp.
    + by rewrite append_cons in Hp.
  - intros [Ht (p & -> & [rest Hp] & Hs)]. simpl.
    assert (Str.truthy p = true) as ->.
    { subst p. by rewrite append_cons. }
    eauto.
Qed.

Lemma jsonFiles_selects tree : Selects IsIndicatorJson tree (jsonFiles tree).
Proof.
  induction tree as [|i tree IH]; simpl; [constructor|].
  unfold jsonFiles in *. simpl.
  destruct (isCandidate i) eqn:E.
  - apply selects_keep; [by apply isCandidate_spec|done].
  - apply selects_skip; [|done]. rewrite <- isCandidate_spec. congruence.
Qed.

Lemma selects_functional P l r1 r2 : Selects P l r1 → Selects P l r2 → r1 = r2.
Proof.
  intros H1. revert r2. induction H1; intros r2 H2; inversion H2; subst;
    try done; f_equal; auto.
Qed.

Lemma selects_elem_of P l r i : Selects P l r → i ∈ r ↔ i ∈ l ∧ P i.
Proof.
  induction 1 as [|j l r Hj _ IH|j l r Hj _ IH].
  - split; [intros H|intros [H _]]; inversion H.
  - rewrite !elem_of_cons, IH. intuition (subst; auto).
  - rewrite elem_of_cons, IH. intuition (subst; tauto).
Qed.

Lemma selects_sublist P l r : Selects P l r → sublist r l.
Proof. induction 1; by constructor. Qed.

(** C3. Of any tree listing the filter keeps exactly the entries that are
    blobs, whose path starts with [indicators/] and whose lower-cased path
    ends with [.json], in the order of the listing: the kept list is the
    one selection of these entries, it is a sub-list of the listing, and an
    entry is kept if and only if it is listed and is such an entry. *)
Theorem candidate_filter_exact (tree : list TreeEntry) :
  Selects IsIndicatorJson tree (jsonFiles tree)
  ∧ (∀ r, Selects IsIndicatorJson tree r → r = jsonFiles tree)
  ∧ sublist (jsonFiles tree) tree
  ∧ (∀ i, i ∈ jsonFiles tree ↔ i ∈ tree ∧ IsIndicatorJson i).
Proof.
  pose proof (jsonFiles_selects tree) as H.
  split; [done|]. split; [|split].
  - intros r Hr. by eapply selects_functional.
  - by eapply selects_sublist.
  - intros i. by eapply selects_elem_of.
Qed.

(** On the tree of the scenario the filter keeps the two indicator files
    and drops the read-me. *)
Lemma candidate_filter_witness :
  let a := {| path := Some "indicators/a.json"; type := Some "blob" |} in
  let b := {| path := Some "indicators/b.json"; type := Some "blob" |} in
  Selects IsIndicatorJson Host.remoteTree [a; b]
  ∧ [a; b] = jsonFiles Host.remoteTree
  ∧ sublist [a; b] Host.remoteTree.
Proof.
  intros a b.
  destruct (candidate_filter_exact Host.remoteTree) as (Hsel & Honly & Hsub & _).
  split; [exact Hsel|]. split; [exact (Honly [a; b] Hsel)|exact Hsub].
Defined.

(** ** Missing configuration *)

(** C4. When the owner or the repo of the options is missing or empty,
    the download fails at once with the result
    [{ success: false, error: 'missing owner or repo' }] and leaves the
    world as it found it: no request is made, nothing is written, nothing
    is sent, the keychain is not consulted. *)
Theorem missing_configuration_fails_fast (env : Env) (opts : option Opts) (w : World) :
  missing_or_empty (opts ≫= owner) ∨ missing_or_empty (opts ≫= repo) →
  download_indicators env opts w = (Returned (Failed "missing owner or repo"), w).
Proof.
  unfold download_indicators, performDownloadIndicators, missing_or_empty.
  intros [[-> | ->] | [-> | ->]]; simpl; try reflexivity;
    by rewrite orb_true_r.
Qed.

(** [downloadIndicators({})]: a failure, and no request on record. *)
Lemma missing_configuration_witness :
  let opts := Some {| owner := None; repo := None; branch := None;
                      token := None; version := None |} in
  let w := Host.world0 Host.emptyDisk Live in
  (missing_or_empty (opts ≫= owner) ∨ missing_or_empty (opts ≫= repo))
  ∧ download_indicators (Scenario.env false) opts w
    = (Returned (Failed "missing owner or repo"), w)
  ∧ requests (download_indicators (Scenario.env false) opts w).2 = [].
Proof.
  intros opts w.
  assert (missing_or_empty (opts ≫= owner) ∨ missing_or_empty (opts ≫= repo)) as H
    by (left; left; reflexivity).
  split; [exact H|].
  rewrite (missing_configuration_fails_fast (Scenario.env false) opts w H).
  split; reflexivity.
Defined.

(** ** Credentials *)

(** C7. The three token handlers never throw.  Without keytar they give
    [false], [null] and [false] and change nothing; with keytar, a call
    that throws is turned into the same values. *)
Theorem credential_handlers_fail_soft (env : Env) (token : option string) (w : World) :
  (keytar env = None →
     store_indicator_token env token w = (Returned false, w)
     ∧ get_indicator_token env w = (Returned None, w)
     ∧ delete_indicator_token env w = (Returned false, w))
  ∧ (∀ kt, keytar env = Some kt →
       (∀ e, (setPassword kt KEYTAR_SERVICE "indicator" (Str.or_else token "")
                (keychain w)).1 = Thrown e →
             (store_indicator_token env token w).1 = Returned false)
       ∧ (∀ e, (getPassword kt KEYTAR_SERVICE "indicator" (keychain w)).1 = Thrown e →
               (get_indicator_token env w).1 = Returned None)
       ∧ (∀ e, (deletePassword kt KEYTAR_SERVICE "indicator" (keychain w)).1 = Thrown e →
               (delete_indicator_token env w).1 = Returned false))
  ∧ (∀ e, (store_indicator_token env token w).1 ≠ Thrown e
          ∧ (get_indicator_token env w).1 ≠ Thrown e
          ∧ (delete_indicator_token env w).1 ≠ Thrown e).
Proof.
  unfold store_indicator_token, get_indicator_token, delete_indicator_token.
  split; [|split].
  - intros ->. done.
  - intros kt ->. unfold try_catch, bind, on_keychain, ret.
    repeat split; intros e He;
      match goal with
      | |- context [?op (keychain w)] => destruct (op (keychain w)) as [[?|?] ?]
      end; simpl in *; congruence.
  - intros e. destruct (keytar env) as [kt|]; [|done].
    unfold try_catch, bind, on_keychain, ret.
    repeat split;
      match goal with
      | |- context [?op (keychain w)] => destruct (op (keychain w)) as [[?|?] ?]
      end; simpl; congruence.
Qed.

(** A host without keytar, and a host whose keytar throws at every call. *)
Lemma credential_handlers_witness :
  let bare := {| isDev := true; execPath := ""; userData := ""; keytar := None;
                 https_get := Scenario.answer; JSON_parse := Host.parse;
                 Buffer_from := Host.decode;
                 encodeURIComponent := Host.encodeSlashes |} in
  let broken := {| isDev := true; execPath := ""; userData := "";
                   keytar := Some Host.brokenKeytar;
                   https_get := Scenario.answer; JSON_parse := Host.parse;
                   Buffer_from := Host.decode;
                   encodeURIComponent := Host.encodeSlashes |} in
  let w := Host.world0 Host.emptyDisk Live in
  (store_indicator_token bare (Some "x") w = (Returned false, w)
   ∧ get_indicator_token bare w = (Returned None, w)
   ∧ delete_indicator_token bare w = (Returned false, w))
  ∧ (store_indicator_token broken (Some "x") w).1 = Returned false
  ∧ (get_indicator_token broken w).1 = Returned None
  ∧ (delete_indicator_token broken w).1 = Returned false.
Proof.
  intros bare broken w.
  split.
  - apply (credential_handlers_fail_soft bare (Some "x") w). reflexivity.
  - destruct (credential_handlers_fail_soft broken (Some "x") w) as (_ & H & _).
    destruct (H Host.brokenKeytar eq_refl) as (Hs & Hg & Hd).
    split; [|split].
    + apply (Hs "keychain locked"). reflexivity.
    + apply (Hg "keychain locked"). reflexivity.
    + apply (Hd "keychain locked"). reflexivity.
Defined.

(** ** Directory resolution *)

Ltac run :=
  unfold attempt in *; unfold bind, try_catch, ret, throw, of_outcome in *;
  cbv beta in *.

Lemma or_else_self s : Str.or_else (Some s) "" = s.
Proof. by destruct s. Qed.

Lemma mkdirSync_denied p d : fs_denied (fs.mkdirSync p d).2 = fs_denied d.
Proof. unfold fs.mkdirSync. by case_decide. Qed.

Lemma mkdirSync_files p d : fs_files (fs.mkdirSync p d).2 = fs_files d.
Proof. unfold fs.mkdirSync. by case_decide. Qed.

Lemma mkdirSync_dirs p d : fs_dirs d ⊆ fs_dirs (fs.mkdirSync p d).2.
Proof. unfold fs.mkdirSync. case_decide; simpl; [done|]. apply union_subseteq_l. Qed.

Lemma ensureDir_returns p d : (ensureDir p d).1 = Returned ().
Proof. unfold ensureDir, fs.mkdirSync. run. by case_decide. Qed.

Lemma ensureDir_state p d : (ensureDir p d).2 = (fs.mkdirSync p d).2.
Proof. unfold ensureDir, fs.mkdirSync. run. by case_decide. Qed.

Lemma getIndicatorsDir_returns env d :
  (getIndicatorsDir env d).1 = Returned (resolvedDir env d).
Proof.
  unfold getIndicatorsDir, resolvedDir, installWritable, probeFile, installDir,
    userDataDir.
  rewrite or_else_self. run.
  destruct (isDev env); simpl.
  - unfold fs.mkdirSync. by case_decide.
  - rewrite dirname_truthy.
    set (inst := path.join (path.dirname (execPath env)) "indicators").
    destruct (decide ((inst ∉ fs_denied d) ∧ (path.join inst ".write_test" ∉ fs_denied d)))
      as [[Hi Hp]|Hn].
    + unfold fs.mkdirSync, fs.writeFileSync, fs.unlinkSync. simpl.
      repeat (rewrite decide_False by done; simpl).
      by rewrite lookup_insert_eq.
    + unfold fs.mkdirSync at 1.
      destruct (decide (inst ∈ fs_denied d)) as [Hi|Hi]; simpl.
      * unfold fs.mkdirSync. by case_decide.
      * unfold fs.writeFileSync. simpl.
        destruct (decide (path.join inst ".write_test" ∈ fs_denied d)) as [Hp|Hp];
          [|by destruct Hn].
        simpl. unfold fs.mkdirSync. simpl. by case_decide.
Qed.

Ltac fs_cases :=
  unfold fs.mkdirSync, fs.writeFileSync, fs.unlinkSync;
  repeat first [ progress simpl | rewrite lookup_insert_eq | case_decide ].

Lemma getIndicatorsDir_denied env d :
  fs_denied (getIndicatorsDir env d).2 = fs_denied d.
Proof.
  unfold getIndicatorsDir. rewrite or_else_self. run.
  destruct (isDev env); simpl; [|rewrite dirname_truthy]; fs_cases; done.
Qed.

Lemma getIndicatorsDir_dirs env d :
  fs_dirs d ⊆ fs_dirs (getIndicatorsDir env d).2.
Proof.
  unfold getIndicatorsDir. rewrite or_else_self. run.
  destruct (isDev env); simpl; [|rewrite dirname_truthy]; fs_cases;
    try done; try apply union_subseteq_l;
    (etrans; [|apply union_subseteq_l]); apply union_subseteq_l.
Qed.

(** Resolution writes no file but the probe, which it removes again. *)
Lemma getIndicatorsDir_files env d p :
  p ≠ probeFile env →
  fs_files (getIndicatorsDir env d).2 !! p = fs_files d !! p.
Proof.
  intros Hp. unfold getIndicatorsDir, probeFile, installDir in *.
  rewrite or_else_self. run.
  destruct (isDev env); simpl; [|rewrite dirname_truthy]; fs_cases; try done.
  rewrite lookup_delete_ne by done. by rewrite lookup_insert_ne.
Qed.

Lemma getIndicatorsDir_dev_files env d :
  isDev env = true → fs_files (getIndicatorsDir env d).2 = fs_files d.
Proof.
  intros Hdev. unfold getIndicatorsDir. rewrite Hdev. run. simpl.
  fs_cases; done.
Qed.

Lemma resolvedDir_ext env d1 d2 :
  (installWritable env d1 ↔ installWritable env d2) →
  resolvedDir env d1 = resolvedDir env d2.
Proof.
  intros H. unfold resolvedDir. destruct (isDev env); [done|].
  destruct (decide (installWritable env d1)), (decide (installWritable env d2));
    tauto.
Qed.

(** C8, as the code has it.  Resolution keeps no memory: every call probes
    again, and what it returns is read off the build kind and the
    permissions of the host at that moment.  So two calls of one run agree
    in a development build, agree whenever the install directory is
    writable at both or at neither, and a call made in the state another
    call left agrees with that call. *)
Theorem resolution_stable_while_permissions_hold (env : Env) :
  (∀ d, (getIndicatorsDir env d).1 = Returned (resolvedDir env d))
  ∧ (isDev env = true →
     ∀ d1 d2, (getIndicatorsDir env d1).1 = (getIndicatorsDir env d2).1)
  ∧ (∀ d1 d2, (installWritable env d1 ↔ installWritable env d2) →
       (getIndicatorsDir env d1).1 = (getIndicatorsDir env d2).1)
  ∧ (∀ d, (getIndicatorsDir env (getIndicatorsDir env d).2).1
          = (getIndicatorsDir env d).1).
Proof.
  split; [apply getIndicatorsDir_returns|]. split; [|split].
  - intros Hdev d1 d2. rewrite !getIndicatorsDir_returns.
    unfold resolvedDir. by rewrite Hdev.
  - intros d1 d2 H. rewrite !getIndicatorsDir_returns. f_equal.
    by apply resolvedDir_ext.
  - intros d. rewrite !getIndicatorsDir_returns. f_equal.
    apply resolvedDir_ext. unfold installWritable.
    by rewrite getIndicatorsDir_denied.
Qed.

(** Two disks that differ in their files only resolve alike. *)
Lemma resolution_stable_witness :
  let env := Scenario.env false in
  let d1 := Host.emptyDisk in
  let d2 := {| fs_files := {[ "/opt/WorldData/indicators/indicators/a.json" := "[1]" ]};
               fs_dirs := ∅; fs_denied := ∅ |} in
  (installWritable env d1 ↔ installWritable env d2)
  ∧ (getIndicatorsDir env d1).1 = (getIndicatorsDir env d2).1
  ∧ (getIndicatorsDir (Scenario.env true) d1).1
    = (getIndicatorsDir (Scenario.env true) d2).1.
Proof.
  intros env d1 d2.
  assert (installWritable env d1 ↔ installWritable env d2) as H by done.
  split; [exact H|]. split.
  - apply (resolution_stable_while_permissions_hold env); exact H.
  - apply (resolution_stable_while_permissions_hold (Scenario.env true)).
    reflexivity.
Defined.

(** C8, as stated, fails: in one production run the first call finds the
    install directory writable and returns it; the host then withdraws
    the permission, and the next call returns the user-data directory. *)
Lemma resolution_not_memoized :
  let env := Scenario.env false in
  let d1 := Host.emptyDisk in
  let left := (getIndicatorsDir env d1).2 in
  let d2 := {| fs_files := fs_files left; fs_dirs := fs_dirs left;
               fs_denied := {[ "/opt/WorldData/indicators" ]} |} in
  (getIndicatorsDir env d1).1 = Returned "/opt/WorldData/indicators"
  ∧ (getIndicatorsDir env d2).1 = Returned "/home/u/.config/WorldData/indicators"
  ∧ (getIndicatorsDir env d1).1 ≠ (getIndicatorsDir env d2).1.
Proof.
  intros env d1 left d2.
  assert ((getIndicatorsDir env d1).1 = Returned "/opt/WorldData/indicators") as H1
    by (vm_compute; reflexivity).
  assert ((getIndicatorsDir env d2).1
          = Returned "/home/u/.config/WorldData/indicators") as H2
    by (vm_compute; reflexivity).
  split; [exact H1|]. split; [exact H2|].
  rewrite H1, H2. discriminate.
Qed.

(** ** The download loop *)

Section LoopFacts.

Context (env : Env) (hdrs : list (string * string)).
Context (owner repo branch indicatorsDir : string).
Context (total : nat).

#[local] Abbreviation item_run :=
  (downloadItem env hdrs owner repo branch indicatorsDir total).
#[local] Abbreviation loop_run :=
  (downloadLoop env hdrs owner repo branch indicatorsDir total).
#[local] Abbreviation outcome_at :=
  (fileOutcome env hdrs owner repo branch indicatorsDir).
#[local] Abbreviation contentRequest :=
  (contentRequestOf env hdrs owner repo branch).

Lemma downloadItem_spec i item dl errs w :
  let o := outcome_at (fs_denied (disk w)) (List.length (requests w)) item in
  let r := item_run i item dl errs w in
  r.1 = Returned (match o with
                  | Returned _ => ((dl ++ [itemPath item])%list, errs)
                  | Thrown e => (dl, (errs ++ [(itemPath item, e)])%list)
                  end)
  ∧ requests r.2 = (requests w ++ [contentRequest item])%list
  ∧ keychain r.2 = keychain w
  ∧ mainWindow r.2 = mainWindow w
  ∧ fs_denied (disk r.2) = fs_denied (disk w)
  ∧ sent r.2 = (sent w ++ match o, mainWindow w with
                          | Returned _, Live =>
                              [indicators_download_progress i total (itemPath item)]
                          | _, _ => []
                          end)%list.
Proof.
  unfold downloadItem, fileOutcome, fetchJson, https_get_M, contentRequestOf. run.
  simpl.
  destruct (https_get env _ _) as [m| |body]; simpl;
    try (by rewrite ?app_nil_r).
  destruct (JSON_parse env body) as [fileResp|e]; simpl;
    try (by rewrite ?app_nil_r).
  destruct (fileResp ≫= content) as [[|a c]|]; simpl;
    try (by rewrite ?app_nil_r).
  destruct (Buffer_from env _ _) as [bytes|e] eqn:Eb; simpl.
  2:{ assert (Str.or_else (fileResp ≫= encoding) "base64"
              = match fileResp ≫= encoding with
                | None | Some "" => "base64" | Some enc => enc end) as Henc
        by (by destruct (fileResp ≫= encoding) as [[|? ?]|]).
      rewrite Henc in Eb. rewrite Eb. simpl. by rewrite app_nil_r. }
  assert (Str.or_else (fileResp ≫= encoding) "base64"
          = match fileResp ≫= encoding with
            | None | Some "" => "base64" | Some enc => enc end) as Henc
    by (by destruct (fileResp ≫= encoding) as [[|? ?]|]).
  rewrite Henc in Eb. rewrite Eb. clear Henc Eb.
  unfold on_disk, ensureDir, send. run. simpl.
  unfold fs.mkdirSync, fs.writeFileSync. simpl.
  destruct (decide (path.dirname (outPath indicatorsDir item) ∈ fs_denied (disk w)));
    simpl;
    (destruct (decide (outPath indicatorsDir item ∈ fs_denied (disk w))); simpl;
     [by rewrite app_nil_r|]);
    destruct (mainWindow w); simpl; by rewrite ?app_nil_r.
Qed.

Lemma downloadLoop_spec items : ∀ i dl errs w,
  let n := List.length (requests w) in
  let denied := fs_denied (disk w) in
  let r := loop_run items i dl errs w in
  r.1 = Returned
          ((dl ++ arrivedFrom env hdrs owner repo branch indicatorsDir denied n items)%list,
           (errs ++ failedFrom env hdrs owner repo branch indicatorsDir denied n items)%list)
  ∧ requests r.2 = (requests w ++ map contentRequest items)%list
  ∧ keychain r.2 = keychain w
  ∧ mainWindow r.2 = mainWindow w
  ∧ fs_denied (disk r.2) = fs_denied (disk w)
  ∧ sent r.2 = (sent w ++ match mainWindow w with
                          | Live => progressFrom env hdrs owner repo branch
                                      indicatorsDir denied total n i items
                          | _ => []
                          end)%list.
Proof.
  induction items as [|item rest IH]; intros i dl errs w; simpl.
  - unfold ret. simpl. rewrite !app_nil_r.
    repeat split. destruct (mainWindow w); by rewrite app_nil_r.
  - destruct (downloadItem_spec (S i) item dl errs w)
      as (H1 & Hrq & Hk & Hm & Hd & Hs).
    unfold bind.
    destruct (item_run (S i) item dl errs w) as [o w1]. simpl in *.
    subst o.
    specialize (IH (S i)).
    destruct (fileOutcome env hdrs owner repo branch indicatorsDir
                (fs_denied (disk w)) (List.length (requests w)) item)
      as [bytes|e] eqn:Eo; simpl.
    + destruct (IH (dl ++ [itemPath item])%list errs w1)
        as (J1 & Jrq & Jk & Jm & Jd & Js).
      rewrite Hrq, length_app, Hd in J1, Js. simpl in J1, Js.
      rewrite Nat.add_1_r in J1, Js.
      rewrite J1, Jrq, Jk, Jm, Jd, Js, Hrq, Hk, Hm, Hd, Hs.
      rewrite <- !app_assoc. simpl.
      repeat split; try done;
        destruct (mainWindow w); simpl; by rewrite ?app_nil_r.
    + destruct (IH dl (errs ++ [(itemPath item, e)])%list w1)
        as (J1 & Jrq & Jk & Jm & Jd & Js).
      rewrite Hrq, length_app, Hd in J1, Js. simpl in J1, Js.
      rewrite Nat.add_1_r in J1, Js.
      rewrite J1, Jrq, Jk, Jm, Jd, Js, Hrq, Hk, Hm, Hd, Hs.
      rewrite <- !app_assoc. simpl.
      repeat split; try done;
        destruct (mainWindow w); simpl; by rewrite ?app_nil_r.
Qed.

End LoopFacts.

(** ** The pass *)

Lemma attempt_send_spec ev w :
  let r := attempt (send ev) w in
  r.1 = Returned ()
  ∧ disk r.2 = disk w
  ∧ keychain r.2 = keychain w
  ∧ requests r.2 = requests w
  ∧ mainWindow r.2 = mainWindow w
  ∧ sent r.2 = (sent w ++ match mainWindow w with Live => [ev] | _ => [] end)%list.
Proof.
  unfold send. run. destruct (mainWindow w) eqn:E; simpl;
    rewrite ?app_nil_r, ?E; done.
Qed.

Lemma write_version_spec dir (version : option string) w :
  let r := match Str.or_null version with
           | Some v => attempt (on_disk (fs.writeFileSync (versionFile dir) v))
           | None => ret ()
           end w in
  r.1 = Returned ()
  ∧ keychain r.2 = keychain w
  ∧ requests r.2 = requests w
  ∧ mainWindow r.2 = mainWindow w
  ∧ sent r.2 = sent w
  ∧ fs_denied (disk r.2) = fs_denied (disk w)
  ∧ (∀ v, Str.or_null version = Some v → versionFile dir ∉ fs_denied (disk w) →
          fs_files (disk r.2) !! versionFile dir = Some v)
  ∧ (∀ p, p ≠ versionFile dir → fs_files (disk r.2) !! p = fs_files (disk w) !! p).
Proof.
  destruct (Str.or_null version) as [v|]; simpl.
  - unfold on_disk, fs.writeFileSync. run.
    destruct (decide (versionFile dir ∈ fs_denied (disk w))); simpl.
    + repeat split; done.
    + repeat split; try done.
      * intros v' [= ->] _. apply lookup_insert_eq.
      * intros p Hp. by apply lookup_insert_ne.
  - repeat split; done.
Qed.

Lemma downloadTree_spec env opts hdrs owner repo branch dir tr w :
  let files := jsonFiles tr in
  let n := length (requests w) in
  let denied := fs_denied (disk w) in
  let result :=
    Done (length (arrivedFrom env hdrs owner repo branch dir denied n files))
         (failedFrom env hdrs owner repo branch dir denied n files) dir in
  let r := downloadTree env opts hdrs owner repo branch dir tr w in
  r.1 = Returned result
  ∧ requests r.2
    = (requests w ++ map (contentRequestOf env hdrs owner repo branch) files)%list
  ∧ keychain r.2 = keychain w
  ∧ mainWindow r.2 = mainWindow w
  ∧ fs_denied (disk r.2) = denied
  ∧ sent r.2
    = (sent w ++ match mainWindow w with
                 | Live =>
                     indicators_download_start owner repo branch (length files)
                     :: progressFrom env hdrs owner repo branch dir denied
                          (length files) n 0 files
                     ++ [indicators_download_complete result]
                 | _ => []
                 end)%list
  ∧ (∀ v, Str.or_null (opts ≫= version) = Some v → versionFile dir ∉ denied →
          fs_files (disk r.2) !! versionFile dir = Some v).
Proof.
  intros files n denied result r. subst r. unfold downloadTree.
  fold files. unfold bind.
  pose proof (attempt_send_spec
                (indicators_download_start owner repo branch (length files)) w) as Ha.
  destruct (attempt (send _) w) as [oa wa]. simpl in Ha.
  destruct Ha as (-> & Had & Hak & Har & Ham & Has).
  pose proof (downloadLoop_spec env hdrs owner repo branch dir (length files)
                files 0 [] [] wa) as Hl.
  destruct (downloadLoop _ _ _ _ _ _ _ _ _ _ _ wa) as [ol wl]. simpl in Hl.
  rewrite Har, Had, Hak, Ham, Has in Hl. fold n denied in Hl.
  destruct Hl as (-> & Hlr & Hlk & Hlm & Hld & Hls). simpl.
  pose proof (write_version_spec dir (opts ≫= version) wl) as Hv.
  cbv zeta in Hv.
  match type of Hv with (?m).1 = _ ∧ _ => destruct m as [ov wv] end.
  simpl in Hv. destruct Hv as (-> & Hvk & Hvr & Hvm & Hvs & Hvd & Hvf & _).
  pose proof (attempt_send_spec (indicators_download_complete result) wv) as Hc.
  fold result.
  destruct (attempt (send _) wv) as [oc wc]. simpl in Hc.
  destruct Hc as (-> & Hcd & Hck & Hcr & Hcm & Hcs). simpl.
  rewrite Hcr, Hvr, Hlr, Hck, Hvk, Hlk, Hcm, Hvm, Hlm, Hcd, Hvd, Hld, Hcs, Hvs, Hls.
  rewrite ?Hvm, ?Hlm, ?Ham.
  repeat split; try done.
  - destruct (mainWindow w); simpl; rewrite <- ?app_assoc; simpl;
      by rewrite ?app_nil_r.
  - intros v Hv Hden. apply Hvf; [done|]. by rewrite Hld.
Qed.

Lemma on_disk_getIndicatorsDir env w :
  on_disk (getIndicatorsDir env) w
  = (Returned (resolvedDir env (disk w)),
     {| disk := (getIndicatorsDir env (disk w)).2; keychain := keychain w;
        requests := requests w; mainWindow := mainWindow w; sent := sent w |}).
Proof.
  unfold on_disk. pose proof (getIndicatorsDir_returns env (disk w)) as H.
  destruct (getIndicatorsDir env (disk w)) as [o d]. simpl in *. by subst o.
Qed.

Lemma on_disk_ensureDir p w :
  on_disk (ensureDir p) w
  = (Returned (),
     {| disk := (ensureDir p (disk w)).2; keychain := keychain w;
        requests := requests w; mainWindow := mainWindow w; sent := sent w |}).
Proof.
  unfold on_disk. pose proof (ensureDir_returns p (disk w)) as H.
  destruct (ensureDir p (disk w)) as [o d]. simpl in *. by subst o.
Qed.

(** The pass after the token is known, case by case on the listing. *)
Lemma listAndDownload_eq env opts owner repo branch tok w :
  let dir := resolvedDir env (disk w) in
  let hdrs := requestHeaders tok in
  let rq := {| url := treeUrl owner repo branch; headers := hdrs;
               timeout := 20000%N |} in
  let w2 := {| disk := preparedDisk env (disk w); keychain := keychain w;
               requests := (requests w ++ [rq])%list;
               mainWindow := mainWindow w; sent := sent w |} in
  listAndDownload env opts owner repo branch tok w
  = match match https_get env (length (requests w)) rq with
          | http_error message => Thrown message
          | http_timeout => Thrown "timeout"
          | http_end body => JSON_parse env body
          end with
    | Thrown e =>
        (Returned (Failed e),
         (attempt (send (indicators_download_complete (Failed e))) w2).2)
    | Returned j =>
        match j ≫= tree with
        | None => (Returned (Failed "no tree"), w2)
        | Some tr => downloadTree env opts hdrs owner repo branch dir tr w2
        end
    end.
Proof.
  intros dir hdrs rq w2. unfold listAndDownload.
  unfold bind at 1. rewrite on_disk_getIndicatorsDir.
  unfold bind at 1. rewrite on_disk_ensureDir. simpl.
  fold dir hdrs. unfold preparedDisk in w2. fold dir in w2.
  unfold try_catch, fetchJson, https_get_M. unfold bind at 1 2. simpl.
  fold rq. fold w2.
  destruct (https_get env (length (requests w)) rq) as [m| |body]; simpl.
  - unfold throw, bind.
    pose proof (attempt_send_spec (indicators_download_complete (Failed m)) w2) as H.
    destruct (attempt _ w2) as [o w3]; simpl in *. by destruct H as [-> _].
  - unfold throw, bind.
    pose proof (attempt_send_spec (indicators_download_complete (Failed "timeout")) w2)
      as H.
    destruct (attempt _ w2) as [o w3]; simpl in *. by destruct H as [-> _].
  - unfold of_outcome. destruct (JSON_parse env body) as [j|e]; simpl.
    + destruct (j ≫= tree) as [tr|]; simpl; [|done].
      pose proof (downloadTree_spec env opts hdrs owner repo branch dir tr w2) as H.
      destruct (downloadTree _ _ _ _ _ _ _ _ w2) as [o w3]; simpl in *.
      by destruct H as [-> _].
    + unfold bind.
      pose proof (attempt_send_spec (indicators_download_complete (Failed e)) w2) as H.
      destruct (attempt _ w2) as [o w3]; simpl in *. by destruct H as [-> _].
Qed.

Lemma preparedDisk_denied env d : fs_denied (preparedDisk env d) = fs_denied d.
Proof.
  unfold preparedDisk. rewrite ensureDir_state, mkdirSync_denied.
  apply getIndicatorsDir_denied.
Qed.

Lemma preparedDisk_files env d p :
  p ≠ probeFile env → fs_files (preparedDisk env d) !! p = fs_files d !! p.
Proof.
  intros Hp. unfold preparedDisk. rewrite ensureDir_state, mkdirSync_files.
  by apply getIndicatorsDir_files.
Qed.

Lemma preparedDisk_dirs env d : fs_dirs d ⊆ fs_dirs (preparedDisk env d).
Proof.
  unfold preparedDisk. rewrite ensureDir_state.
  etrans; [apply getIndicatorsDir_dirs|apply mkdirSync_dirs].
Qed.

Lemma configured_truthy opts :
  configured opts →
  negb (Str.truthy (Str.or_else (opts ≫= owner) ""))
  || negb (Str.truthy (Str.or_else (opts ≫= repo) "")) = false.
Proof.
  intros [Ho Hr]. apply truthy_true in Ho, Hr.
  unfold passOwner, passRepo in *. by rewrite Ho, Hr.
Qed.

(** A configured pass is the pass after the token, run in a world that
    differs from the first at most in the keychain. *)
Lemma perform_eq env opts w :
  configured opts →
  ∃ k, performDownloadIndicators env opts w
       = listAndDownload env opts (passOwner opts) (passRepo opts) (passBranch opts)
           (passToken env opts w)
           {| disk := disk w; keychain := k; requests := requests w;
              mainWindow := mainWindow w; sent := sent w |}.
Proof.
  intros Hc. unfold performDownloadIndicators.
  rewrite (configured_truthy opts Hc).
  fold (passOwner opts) (passRepo opts) (passBranch opts).
  unfold passToken, bind at 1.
  destruct (Str.or_null (opts ≫= token)) as [tk|] eqn:Etk.
  - exists (keychain w). unfold ret. by destruct w.
  - destruct (keytar env) as [kt|].
    + unfold try_catch, on_keychain, ret.
      destruct (getPassword kt KEYTAR_SERVICE "indicator" (keychain w))
        as [[t|e] k]; simpl; by exists k.
    + exists (keychain w). unfold ret. by destruct w.
Qed.

Lemma perform_listed env opts w tr :
  configured opts → listed env opts w = Some tr →
  let files := jsonFiles tr in
  let result := Done (length (passArrived env opts w files))
                     (passFailed env opts w files) (passDir env w) in
  let r := performDownloadIndicators env opts w in
  r.1 = Returned result
  ∧ requests r.2
    = (requests w ++ treeRequest env opts w
         :: map (contentRequestOf env (passHeaders env opts w) (passOwner opts)
                   (passRepo opts) (passBranch opts)) files)%list
  ∧ mainWindow r.2 = mainWindow w
  ∧ fs_denied (disk r.2) = fs_denied (disk w)
  ∧ sent r.2
    = (sent w ++ match mainWindow w with
                 | Live =>
                     indicators_download_start (passOwner opts) (passRepo opts)
                       (passBranch opts) (length files)
                     :: passProgress env opts w files
                     ++ [indicators_download_complete result]
                 | _ => []
                 end)%list
  ∧ (∀ v, Str.or_null (opts ≫= version) = Some v →
          versionFile (passDir env w) ∉ fs_denied (disk w) →
          fs_files (disk r.2) !! versionFile (passDir env w) = Some v).
Proof.
  intros Hc Hl files result r. subst r.
  destruct (perform_eq env opts w Hc) as [k ->].
  rewrite listAndDownload_eq. simpl.
  unfold listed, treeAnswer, treeRequest, passHeaders in Hl.
  destruct (match https_get env (length (requests w)) _ with
            | http_error message => Thrown message
            | http_timeout => Thrown "timeout"
            | http_end body => JSON_parse env body
            end) as [j|e]; [|done].
  rewrite Hl.
  match goal with
  | |- context [downloadTree ?e ?o ?h ?ow ?rp ?b ?d ?t ?w2] =>
      pose proof (downloadTree_spec e o h ow rp b d t w2) as H;
      destruct (downloadTree e o h ow rp b d t w2) as [o3 w3]
  end.
  simpl in H. rewrite preparedDisk_denied, length_app in H. simpl in H.
  rewrite Nat.add_1_r in H.
  destruct H as (-> & Hr & _ & Hm & Hd & Hs & Hv). simpl.
  rewrite Hr, Hm, Hd, Hs, <- app_assoc. simpl.
  repeat split; try done.
Qed.

Lemma perform_not_listed env opts w :
  configured opts → listed env opts w = None →
  let r := performDownloadIndicators env opts w in
  (∃ e, r.1 = Returned (Failed e))
  ∧ disk r.2 = preparedDisk env (disk w)
  ∧ requests r.2 = (requests w ++ [treeRequest env opts w])%list
  ∧ mainWindow r.2 = mainWindow w.
Proof.
  intros Hc Hl r. subst r.
  destruct (perform_eq env opts w Hc) as [k ->].
  rewrite listAndDownload_eq. simpl.
  unfold listed, treeAnswer, treeRequest, passHeaders in Hl.
  destruct (match https_get env (length (requests w)) _ with
            | http_error message => Thrown message
            | http_timeout => Thrown "timeout"
            | http_end body => JSON_parse env body
            end) as [j|e].
  - rewrite Hl. simpl. eauto.
  - simpl.
    match goal with
    | |- context [attempt (send ?ev) ?w2] =>
        pose proof (attempt_send_spec ev w2) as H;
        destruct (attempt (send ev) w2) as [o3 w3]
    end.
    simpl in *. destruct H as (_ & -> & _ & -> & -> & _). eauto.
Qed.

(** ** Counting what arrives and what fails *)

Section Counting.

Context (env : Env) (hdrs : list (string * string)).
Context (owner repo branch dir : string) (denied : gset string) (total : nat).

#[local] Abbreviation outcome := (fileOutcome env hdrs owner repo branch dir denied).
#[local] Abbreviation arrived := (arrivedFrom env hdrs owner repo branch dir denied).
#[local] Abbreviation failed := (failedFrom env hdrs owner repo branch dir denied).
#[local] Abbreviation progress :=
  (progressFrom env hdrs owner repo branch dir denied total).

Lemma arrived_failed_length items : ∀ n,
  length (arrived n items) + length (failed n items) = length items.
Proof.
  induction items as [|item rest IH]; intros n; simpl; [done|].
  destruct (outcome n item); simpl; rewrite <- (IH (S n)); lia.
Qed.

Lemma failed_count items : ∀ n,
  length (failed n items)
  = length (List.filter (λ o, negb (arrives o))
              (imap (λ k item, outcome (n + k) item) items)).
Proof.
  induction items as [|item rest IH]; intros n; [done|].
  rewrite imap_cons. simpl. rewrite Nat.add_0_r.
  rewrite (imap_ext _ (λ k item, outcome (S n + k) item))
    by (intros k x _; simpl; f_equal; lia).
  destruct (outcome n item); simpl; by rewrite IH.
Qed.

Lemma progress_length items : ∀ n i,
  length (progress n i items) = length (arrived n items).
Proof.
  induction items as [|item rest IH]; intros n i; simpl; [done|].
  destruct (outcome n item); simpl; by rewrite IH.
Qed.

(** The progress events are those of the files that arrive, each with its
    position in the list. *)
Lemma progress_elem_of items : ∀ n i cur tot p,
  indicators_download_progress cur tot p ∈ progress n i items
  ↔ ∃ k item, items !! k = Some item
              ∧ arrives (outcome (n + k) item) = true
              ∧ cur = S (i + k) ∧ tot = total ∧ p = itemPath item.
Proof.
  induction items as [|item rest IH]; intros n i cur tot p; simpl.
  - split; [intros H; inversion H|]. intros (k & item & Hk & _). by destruct k.
  - assert (indicators_download_progress cur tot p ∈ progress (S n) (S i) rest
            ↔ ∃ k item', (item :: rest) !! S k = Some item'
                ∧ arrives (outcome (n + S k) item') = true
                ∧ cur = S (i + S k) ∧ tot = total ∧ p = itemPath item') as Htail.
    { rewrite IH. split; intros (k & it & Hk & Ha & Hc & Ht & Hp);
        exists k, it; simpl in *;
        replace (n + S k) with (S (n + k)) in * by lia;
        replace (i + S k) with (S (i + k)) in * by lia; done. }
    destruct (outcome n item) as [bytes|e] eqn:Eo.
    + rewrite elem_of_cons, Htail. split.
      * intros [[= -> -> ->]|(k & it & H)].
        -- exists 0, item. rewrite !Nat.add_0_r, Eo. done.
        -- exists (S k), it. done.
      * intros ([|k] & it & Hk & Ha & Hc & Ht & Hp).
        -- left. simpl in Hk. injection Hk as <-. rewrite Nat.add_0_r in Hc.
           by subst.
        -- right. exists k, it. done.
    + rewrite Htail. split.
      * intros (k & it & H). exists (S k), it. done.
      * intros ([|k] & it & Hk & Ha & Hc & Ht & Hp).
        -- simpl in Hk. injection Hk as <-. rewrite Nat.add_0_r, Eo in Ha. done.
        -- exists k, it. done.
Qed.

Lemma progress_all_progress items : ∀ n i,
  Forall (λ ev, ∃ cur p, ev = indicators_download_progress cur total p)
         (progress n i items).
Proof.
  induction items as [|item rest IH]; intros n i; simpl; [constructor|].
  destruct (outcome n item); [constructor; eauto|]; apply IH.
Qed.

End Counting.

(** ** Partial failure *)

Lemma failureCount_eq env opts w files :
  failureCount env opts w files = length (passFailed env opts w files).
Proof. unfold failureCount, passFailed, passOutcome. by rewrite failed_count. Qed.

Lemma passArrived_length env opts w files :
  length (passArrived env opts w files)
  = length files - failureCount env opts w files.
Proof.
  rewrite failureCount_eq. unfold passArrived, passFailed.
  match goal with
  | |- length (arrivedFrom ?e ?h ?o ?r ?b ?d ?dn ?n ?l) = _ =>
      pose proof (arrived_failed_length e h o r b d dn l n)
  end. lia.
Qed.



(** ** Events of a pass *)



(** Without a live window ([mainWindow] unset, or destroyed) the same pass
    runs to the same result and sends nothing. *)
Lemma pass_without_window_is_silent (env : Env) (opts : option Opts) (w : World)
    (tr : list TreeEntry) :
  configured opts → listed env opts w = Some tr → mainWindow w ≠ Live →
  let r := performDownloadIndicators env opts w in
  success_of r.1 = true ∧ sent r.2 = sent w.
Proof.
  intros Hc Hl Hw r.
  destruct (perform_listed env opts w tr Hc Hl) as (Hr & _ & _ & _ & Hs & _).
  fold r in Hr, Hs. rewrite Hr, Hs. split; [done|].
  destruct (mainWindow w); by rewrite ?app_nil_r.
Qed.

(** The end-to-end scenario, through the periodic check: the remote
    version is [v2], nothing is installed; the check downloads the two
    indicator files, leaves the read-me out, writes [v2] as version and
    sends start (total 2), two progress events, complete, then
    [indicators-updated]. *)
Example end_to_end_scenario :
  let r := checkAndUpdateIndicators (Scenario.env false) Scenario.start in
  r.1 = Returned ()
  ∧ map_to_list (fs_files (disk r.2))
    = [ ("/opt/WorldData/indicators/indicator_version", "v2");
        ("/opt/WorldData/indicators/indicators/a.json", "[1]");
        ("/opt/WorldData/indicators/indicators/b.json", "[2]") ]
  ∧ sent r.2
    = [ indicators_download_start "xmcllabs" "Indicators" "main" 2;
        indicators_download_progress 1 2 "indicators/a.json";
        indicators_download_progress 2 2 "indicators/b.json";
        indicators_download_complete (Done 2 [] "/opt/WorldData/indicators");
        indicators_updated true "v2" (Done 2 [] "/opt/WorldData/indicators") ].
Proof. vm_compute. repeat split. Qed.

Lemma newlySent_app {A} w (r : Outcome A * World) evs :
  sent r.2 = (sent w ++ evs)%list → newlySent w r = evs.
Proof. intros H. unfold newlySent. rewrite H. by rewrite drop_app_length. Qed.

Lemma failureCount_pos env opts w files j item :
  files !! j = Some item →
  arrives (passOutcome env opts w j item) = false →
  0 < failureCount env opts w files.
Proof.
  intros Hj Hf. unfold failureCount.
  assert (In (passOutcome env opts w j item)
             (List.filter (λ o, negb (arrives o)) (imap (passOutcome env opts w) files)))
    as Hin.
  { apply filter_In. split; [|by rewrite Hf].
    apply list_elem_of_In, list_elem_of_lookup. exists j.
    by rewrite list_lookup_imap, Hj. }
  destruct (List.filter _ _); [done|simpl; lia].
Qed.



(** ** A listing that fails *)

(** The version file is never the probe file. *)
Lemma versionFile_not_probe env dir : versionFile dir ≠ probeFile env.
Proof.
  unfold versionFile, probeFile.
  by apply (join_last_differ dir (installDir env) "indicator_versio" "n" ".write_tes" "t").
Qed.

Lemma toLowerCase_last s t x :
  Str.toLowerCase s = t +:+ String x "" →
  ∃ s0 c, s = s0 +:+ String c "" ∧ Str.lower c = x.
Proof.
  revert t. induction s as [|a s IH]; intros t H; simpl in H.
  - by destruct t.
  - destruct t as [|b t].
    + rewrite append_empty_l in H. injection H as Ha Hs.
      destruct s; [|done]. by exists "", a.
    + rewrite append_cons in H. injection H as Ha Hs.
      destruct (IH t Hs) as (s0 & c & -> & Hc).
      by exists (String a s0), c.
Qed.

Lemma slashes_last s c :
  Str.slashes (s +:+ String c "")
  = Str.slashes s +:+ String (if decide (c = "\"%char) then "/"%char else c) "".
Proof. induction s as [|a s IH]; simpl; [done|]. by rewrite !append_cons, IH. Qed.

(** Nor is the place a candidate file is written to. *)
Lemma outPath_not_probe env dir item :
  isCandidate item = true → outPath dir item ≠ probeFile env.
Proof.
  intros Hi. apply isCandidate_spec in Hi.
  destruct Hi as (_ & p & Hp & [rest Hr] & [stem Hs]).
  change ".json" with (".jso" +:+ String "n" "") in Hs.
  rewrite <- append_assoc in Hs.
  apply toLowerCase_last in Hs. destruct Hs as (s0 & c & Hp' & Hc).
  unfold outPath, itemPath, probeFile. rewrite Hp. simpl.
  assert (Str.truthy p = true) as Ht by (subst p; by destruct s0).
  rewrite Ht, Hp', slashes_last.
  rewrite decide_False by (intros ->; discriminate).
  apply (join_last_differ _ _ _ c ".write_tes" "t"); try done;
    intros ->; discriminate.
Qed.

(** C5, as the code has it.  When the listing fails the pass returns a
    failure result and has asked for nothing but the listing.  No file is
    written or changed except the probe file of the directory resolution:
    the version file and the place of every candidate file are as they
    were.  The disk is the one that resolving and ensuring the directory
    leaves: directories may have been created, none is removed; in a
    development build no file is touched at all. *)
Theorem failed_listing_writes_no_file (env : Env) (opts : option Opts) (w : World) :
  configured opts → listed env opts w = None →
  let r := performDownloadIndicators env opts w in
  (∃ e, r.1 = Returned (Failed e))
  ∧ requests r.2 = (requests w ++ [treeRequest env opts w])%list
  ∧ disk r.2 = preparedDisk env (disk w)
  ∧ (∀ p, p ≠ probeFile env → fs_files (disk r.2) !! p = fs_files (disk w) !! p)
  ∧ (∀ dir, fs_files (disk r.2) !! versionFile dir
            = fs_files (disk w) !! versionFile dir)
  ∧ (∀ dir item, isCandidate item = true →
       fs_files (disk r.2) !! outPath dir item = fs_files (disk w) !! outPath dir item)
  ∧ fs_dirs (disk w) ⊆ fs_dirs (disk r.2)
  ∧ (isDev env = true → fs_files (disk r.2) = fs_files (disk w)).
Proof.
  intros Hc Hl r.
  destruct (perform_not_listed env opts w Hc Hl) as (He & Hd & Hr & _).
  fold r in He, Hd, Hr. rewrite Hd.
  split; [done|]. split; [done|]. split; [done|].
  split; [intros p Hp; by apply preparedDisk_files|].
  split; [intros dir; apply preparedDisk_files, versionFile_not_probe|].
  split; [intros dir item Hi; by apply preparedDisk_files, outPath_not_probe|].
  split; [apply preparedDisk_dirs|].
  intros Hdev. unfold preparedDisk.
  rewrite ensureDir_state, mkdirSync_files. by apply getIndicatorsDir_dev_files.
Qed.

(** Off line, with version [v1] installed: the pass fails and [v1] stays. *)
Lemma failed_listing_witness :
  let env := Scenario.envWith false Scenario.offline in
  let w := {| disk := {| fs_files :=
                           {[ "/opt/WorldData/indicators/indicator_version" := "v1" ]};
                         fs_dirs := {[ "/opt/WorldData/indicators" ]};
                         fs_denied := ∅ |};
              keychain := ∅; requests := []; mainWindow := Live; sent := [] |} in
  let r := performDownloadIndicators env Scenario.autoOpts w in
  (configured Scenario.autoOpts ∧ listed env Scenario.autoOpts w = None)
  ∧ r.1 = Returned (Failed "getaddrinfo ENOTFOUND")
  ∧ fs_files (disk r.2) !! versionFile "/opt/WorldData/indicators" = Some "v1".
Proof.
  intros env w r.
  assert (configured Scenario.autoOpts) as Hc by (split; discriminate).
  assert (listed env Scenario.autoOpts w = None) as Hl by (vm_compute; reflexivity).
  split; [done|].
  destruct (failed_listing_writes_no_file env Scenario.autoOpts w Hc Hl)
    as (_ & _ & _ & _ & Hv & _).
  split; [vm_compute; reflexivity|].
  fold r in Hv. rewrite Hv. vm_compute. reflexivity.
Defined.

(** C5, as stated, fails: off line, on a fresh disk, the pass that fails
    at the listing has created the indicators directory and the
    directories above it. *)
Lemma failed_listing_touches_directories :
  let env := Scenario.envWith false Scenario.offline in
  let r := performDownloadIndicators env Scenario.autoOpts Scenario.start in
  configured Scenario.autoOpts
  ∧ listed env Scenario.autoOpts Scenario.start = None
  ∧ r.1 = Returned (Failed "getaddrinfo ENOTFOUND")
  ∧ elements (fs_dirs (disk Scenario.start)) = []
  ∧ elements (fs_dirs (disk r.2))
    = [ "/opt/WorldData/indicators"; "/opt/WorldData"; "/opt" ]
  ∧ disk r.2 ≠ disk Scenario.start.
Proof.
  intros env r.
  split; [split; discriminate|].
  split; [vm_compute; reflexivity|].
  split; [vm_compute; reflexivity|].
  split; [vm_compute; reflexivity|].
  assert (elements (fs_dirs (disk r.2))
          = [ "/opt/WorldData/indicators"; "/opt/WorldData"; "/opt" ]) as H
    by (vm_compute; reflexivity).
  split; [exact H|]. intros Heq. rewrite Heq in H. vm_compute in H. discriminate.
Qed.

(** ** The version marker *)

(** What reading the installed version gives, from the content of the
    version file in the resolved directory. *)
Lemma readInstalledIndicatorVersion_spec env d :
  (readInstalledIndicatorVersion env d).1
  = Returned match fs_files d !! versionFile (resolvedDir env d) with
             | Some txt => if decide (Str.trim txt = "") then None
                           else Some (Str.trim txt)
             | None => None
             end.
Proof.
  unfold readInstalledIndicatorVersion. run.
  pose proof (getIndicatorsDir_returns env d) as Hr.
  pose proof (getIndicatorsDir_files env d (versionFile (resolvedDir env d))
                (versionFile_not_probe env _)) as Hf.
  destruct (getIndicatorsDir env d) as [o d1]. simpl in Hr, Hf. subst o.
  fold (versionFile (resolvedDir env d)).
  unfold fs.existsSync, fs.readFileSync. rewrite Hf.
  destruct (bool_decide (is_Some (fs_files d !! versionFile (resolvedDir env d)))
            || bool_decide (versionFile (resolvedDir env d) ∈ fs_dirs d1)) eqn:Ex;
    simpl.
  - rewrite Hf.
    destruct (fs_files d !! versionFile (resolvedDir env d)) as [txt|]; simpl.
    + rewrite trim_decode. destruct (Str.trim txt); by simpl.
    + by destruct (decide (versionFile (resolvedDir env d) ∈ fs_dirs d1)).
  - apply orb_false_elim in Ex as [Ex _]. apply bool_decide_eq_false_1 in Ex.
    destruct (fs_files d !! versionFile (resolvedDir env d)) as [txt|]; [|done].
    destruct Ex. eauto.
Qed.



(** ** The version check *)

Lemma perform_requests env opts w :
  configured opts →
  ∃ more, requests (performDownloadIndicators env opts w).2
          = (requests w ++ treeRequest env opts w :: more)%list.
Proof.
  intros Hc. destruct (listed env opts w) as [tr|] eqn:Hl.
  - destruct (perform_listed env opts w tr Hc Hl) as (_ & Hr & _). eauto.
  - destruct (perform_not_listed env opts w Hc Hl) as (_ & _ & Hr & _).
    exists []. exact Hr.
Qed.

Lemma on_disk_read env w :
  on_disk (readInstalledIndicatorVersion env) w
  = (Returned (installedVersion env w),
     {| disk := (readInstalledIndicatorVersion env (disk w)).2;
        keychain := keychain w; requests := requests w;
        mainWindow := mainWindow w; sent := sent w |}).
Proof.
  unfold on_disk, installedVersion.
  pose proof (readInstalledIndicatorVersion_spec env (disk w)) as H.
  destruct (readInstalledIndicatorVersion env (disk w)) as [o d]. simpl in *.
  by subst o.
Qed.

Lemma try_catch_bind {S A B} (m : St S A) (k : A → St S B) (h : Exn → St S B) s :
  try_catch (do x ← m; k x) h s
  = match m s with
    | (Returned a, s') => try_catch (k a) h s'
    | (Thrown e, s') => h e s'
    end.
Proof. unfold try_catch, bind. by destruct (m s) as [[a|e] s']. Qed.

(** The world after the version request. *)
Lemma fetch_remote env w :
  try_catch (do v ← fetchText env REMOTE_VERSION_URL; ret (Some v)) (λ _, ret None) w
  = (Returned (remoteVersion env w),
     {| disk := disk w; keychain := keychain w;
        requests := (requests w ++ [versionRequest])%list;
        mainWindow := mainWindow w; sent := sent w |}).
Proof.
  unfold fetchText, https_get_M, remoteVersion. fold versionRequest. run. simpl.
  by destruct (https_get env (length (requests w)) versionRequest).
Qed.

Lemma stored_token env w :
  ∃ tok k,
    match keytar env with
    | Some kt =>
        try_catch (on_keychain (getPassword kt KEYTAR_SERVICE "indicator"))
                  (λ _, ret None)
    | None => ret None
    end w
    = (Returned tok,
       {| disk := disk w; keychain := k; requests := requests w;
          mainWindow := mainWindow w; sent := sent w |}).
Proof.
  destruct (keytar env) as [kt|].
  - unfold try_catch, on_keychain, ret.
    destruct (getPassword kt KEYTAR_SERVICE "indicator" (keychain w)) as [[t|e] k];
      eauto.
  - exists None, (keychain w). unfold ret. by destruct w.
Qed.

(** The check stops after the version request when no remote version is
    retrieved or when the installed version is the remote one. *)
Lemma check_skips env w :
  remoteVersion env w = None ∨ remoteVersion env w = Some ""
  ∨ (∃ b, remoteVersion env w = Some b ∧ installedVersion env w = Some b) →
  let r := checkAndUpdateIndicators env w in
  r.1 = Returned ()
  ∧ requests r.2 = (requests w ++ [versionRequest])%list
  ∧ sent r.2 = sent w
  ∧ keychain r.2 = keychain w.
Proof.
  intros H r. subst r. unfold checkAndUpdateIndicators.
  rewrite try_catch_bind, fetch_remote.
  destruct (remoteVersion env w) as [[|a b]|] eqn:Er; simpl; try done.
  destruct H as [H|[H|(b' & [= <-] & Hi)]]; try done.
  rewrite try_catch_bind, on_disk_read.
  change (installedVersion env _) with (installedVersion env w).
  by destruct (decide (installedVersion env w = Some (String a b))).
Qed.

(** Otherwise it goes on to the pass and asks for the listing. *)
Lemma check_syncs env w b :
  remoteVersion env w = Some b → b ≠ "" → installedVersion env w ≠ Some b →
  let r := checkAndUpdateIndicators env w in
  ∃ rq more,
    url rq = treeUrl AUTO_OWNER AUTO_REPO "main"
    ∧ requests r.2 = (requests w ++ versionRequest :: rq :: more)%list.
Proof.
  intros Hb Hne Hi r. subst r. unfold checkAndUpdateIndicators.
  rewrite try_catch_bind, fetch_remote, Hb.
  destruct b as [|a b]; [done|]. simpl.
  rewrite try_catch_bind, on_disk_read.
  change (installedVersion env _) with (installedVersion env w).
  destruct (decide (installedVersion env w = Some (String a b))); [done|].
  rewrite try_catch_bind.
  match goal with
  | |- context [match keytar env with Some _ => _ | None => _ end ?w1] =>
      destruct (stored_token env w1) as (tok & k & ->)
  end.
  simpl. rewrite try_catch_bind.
  set (opts := Some {| owner := Some AUTO_OWNER; repo := Some AUTO_REPO;
                       branch := Some "main"; token := tok;
                       version := Some (String a b) |}).
  assert (configured opts) as Hc by (split; discriminate).
  match goal with
  | |- context [performDownloadIndicators env opts ?w3] =>
      destruct (perform_requests env opts w3 Hc) as [more Hm];
      exists (treeRequest env opts w3), more;
      destruct (performDownloadIndicators env opts w3) as [[res|e] w4]
  end; simpl in *.
  - split; [done|]. unfold try_catch.
    pose proof (attempt_send_spec
                  (indicators_updated (success res) (String a b) res) w4) as Hs.
    destruct (attempt _ w4) as [[[]|e] w5]; simpl in *;
      destruct Hs as (_ & _ & _ & -> & _); by rewrite Hm, <- app_assoc.
  - split; [done|]. unfold ret. simpl. by rewrite Hm, <- app_assoc.
Qed.

Lemma passAttempted_skip env w :
  requests (checkAndUpdateIndicators env w).2 = (requests w ++ [versionRequest])%list →
  passAttempted env w = false.
Proof. intros H. unfold passAttempted. rewrite H, drop_app_length. reflexivity. Qed.

Lemma passAttempted_sync env w rq more :
  url rq = treeUrl AUTO_OWNER AUTO_REPO "main" →
  requests (checkAndUpdateIndicators env w).2
  = (requests w ++ versionRequest :: rq :: more)%list →
  passAttempted env w = true.
Proof.
  intros Hu H. unfold passAttempted. rewrite H, drop_app_length. simpl.
  rewrite (bool_decide_eq_true_2 _ Hu). simpl. by rewrite ?orb_true_r.
Qed.

(** C2, as the code has it.  When the remote version that is fetched is
    not empty, the check goes on to a download pass exactly when the
    installed version differs from it, case and all and both trimmed; with
    nothing installed it always does.  When the remote version cannot be
    fetched or is empty, the check stops there, whatever is installed:
    no pass, nothing sent. *)
Theorem sync_decision (env : Env) (w : World) :
  (∀ b, remoteVersion env w = Some b → b ≠ "" →
        passAttempted env w = bool_decide (installedVersion env w ≠ Some b)
        ∧ (installedVersion env w = None → passAttempted env w = true))
  ∧ (remoteVersion env w = None ∨ remoteVersion env w = Some "" →
       passAttempted env w = false
       ∧ sent (checkAndUpdateIndicators env w).2 = sent w).
Proof.
  split.
  - intros b Hb Hne.
    assert (installedVersion env w ≠ Some b → passAttempted env w = true) as Hsync.
    { intros Hi. destruct (check_syncs env w b Hb Hne Hi) as (rq & more & Hu & Hr).
      by eapply passAttempted_sync. }
    split.
    + destruct (decide (installedVersion env w = Some b)) as [Hi|Hi].
      * rewrite bool_decide_eq_false_2 by (intros Hn; by apply Hn).
        apply passAttempted_skip.
        apply (check_skips env w). right. right. eauto.
      * rewrite bool_decide_eq_true_2 by done. by apply Hsync.
    + intros Hi. apply Hsync. by rewrite Hi.
  - intros H.
    assert (remoteVersion env w = None ∨ remoteVersion env w = Some ""
            ∨ (∃ b, remoteVersion env w = Some b ∧ installedVersion env w = Some b))
      as H' by tauto.
    destruct (check_skips env w H') as (_ & Hr & Hs & _).
    split; [by apply passAttempted_skip|done].
Qed.

(** Remote version [v2]: with nothing installed the check syncs, with
    [v2] installed it does not, also when the remote marker has a
    no-break space after [v2]; and a remote marker that holds a
    byte-order mark and nothing else counts as empty. *)
Lemma sync_decision_witness :
  let env := Scenario.env false in
  let serving := λ body (n : nat) (rq : Request),
    if decide (url rq = REMOTE_VERSION_URL) then http_end body
    else Scenario.answer n rq in
  let spaced := Scenario.envWith false (serving (Utf8.bytes [118; 50; 194; 160])) in
  let marked := Scenario.envWith false (serving (Utf8.bytes [239; 187; 191])) in
  let installed := {| disk := {| fs_files :=
                                   {[ "/opt/WorldData/indicators/indicator_version"
                                      := "v2" ]};
                                 fs_dirs := ∅; fs_denied := ∅ |};
                      keychain := ∅; requests := []; mainWindow := Live; sent := [] |} in
  (remoteVersion env Scenario.start = Some "v2"
   ∧ installedVersion env Scenario.start = None
   ∧ installedVersion env installed = Some "v2"
   ∧ remoteVersion spaced installed = Some "v2"
   ∧ remoteVersion marked Scenario.start = Some "")
  ∧ passAttempted env Scenario.start = true
  ∧ passAttempted env installed = false
  ∧ passAttempted spaced installed = false
  ∧ passAttempted marked Scenario.start = false.
Proof.
  intros env serving spaced marked installed.
  split; [vm_compute; repeat split|].
  destruct (sync_decision env Scenario.start) as [H1 _].
  destruct (sync_decision env installed) as [H2 _].
  destruct (sync_decision spaced installed) as [H3 _].
  destruct (sync_decision marked Scenario.start) as [_ H4].
  split; [|split; [|split]].
  - apply (H1 "v2"); [vm_compute; reflexivity|discriminate|vm_compute; reflexivity].
  - destruct (H2 "v2") as [-> _]; [vm_compute; reflexivity|discriminate|].
    apply bool_decide_eq_false_2. intros Hn. apply Hn. vm_compute. reflexivity.
  - destruct (H3 "v2") as [-> _]; [vm_compute; reflexivity|discriminate|].
    apply bool_decide_eq_false_2. intros Hn. apply Hn. vm_compute. reflexivity.
  - apply H4. right. vm_compute. reflexivity.
Defined.

(** C2, as stated, fails: the remote marker is there but empty, nothing is
    installed, so the two versions differ, and the check makes no sync
    attempt. *)
Lemma empty_remote_version_never_syncs :
  let env := Scenario.envWith false Scenario.blankVersion in
  let r := checkAndUpdateIndicators env Scenario.start in
  remoteVersion env Scenario.start = Some ""
  ∧ installedVersion env Scenario.start = None
  ∧ bool_decide (installedVersion env Scenario.start ≠ Some "") = true
  ∧ passAttempted env Scenario.start = false
  ∧ map url (requests r.2) = [REMOTE_VERSION_URL]
  ∧ sent r.2 = []
  ∧ passAttempted env Scenario.start
    ≠ bool_decide (installedVersion env Scenario.start ≠ Some "").
Proof.
  intros env r.
  assert (installedVersion env Scenario.start = None) as Hi
    by (vm_compute; reflexivity).
  assert (passAttempted env Scenario.start = false) as Hp
    by (vm_compute; reflexivity).
  split; [vm_compute; reflexivity|]. split; [exact Hi|].
  assert (bool_decide (installedVersion env Scenario.start ≠ Some "") = true) as Hb
    by (apply bool_decide_eq_true_2; rewrite Hi; discriminate).
  split; [exact Hb|]. split; [exact Hp|].
  split; [vm_compute; reflexivity|]. split; [vm_compute; reflexivity|].
  rewrite Hp, Hb. discriminate.
Qed.

(** * More properties *)

(** ** The version check on demand *)

(** X1. The handler [check-indicators-version] never throws and leaves
    disk, keychain and renderer alone.  For a string that [https.get]
    refuses at once (no URL, or not one of [https]) it makes no request
    and reports the error that was thrown.  Otherwise it makes one
    request without headers; the version it reports is the body with the
    white space of JavaScript trimmed at both ends, and asked for the URL
    of the periodic check it reports a version exactly when the periodic
    check retrieves that version. *)
Theorem manual_check_sees_periodic_version (env : Env)
    (https_throws : string → option Exn) (url : string) (w : World) :
  let r := check_indicators_version env https_throws url w in
  (∃ res, r.1 = Returned res)
  ∧ (∀ err, https_throws url = Some err → r = (Returned (version_failed err), w))
  ∧ (https_throws url = None →
     r.2 = {| disk := disk w; keychain := keychain w;
              requests := (requests w
                           ++ [{| url := url; headers := []; timeout := 15000%N |}])%list;
              mainWindow := mainWindow w; sent := sent w |}
     ∧ (∀ body, https_get env (length (requests w))
                  {| url := url; headers := []; timeout := 15000%N |} = http_end body →
                r.1 = Returned (version_found (Str.trim body)))
     ∧ (url = REMOTE_VERSION_URL →
        ∀ v, r.1 = Returned (version_found v) ↔ remoteVersion env w = Some v))
  ∧ (∀ v, r.1 = Returned (version_found v) → Str.trim v = v)
  ∧ disk r.2 = disk w ∧ keychain r.2 = keychain w ∧ sent r.2 = sent w.
Proof.
  unfold check_indicators_version, https_get_M, remoteVersion, versionRequest.
  destruct (https_throws url) as [err|]; run; simpl.
  { split; [eauto|]. split; [by intros ? [= <-]|]. split; [done|]. split; [done|].
    by destruct w. }
  destruct (https_get env (length (requests w))
              {| url := url; headers := []; timeout := 15000%N |}) as [m| |buf] eqn:E;
    simpl.
  - split; [eauto|]. split; [done|]. split; [|done].
    intros _. split; [done|]. split; [done|].
    intros -> v. rewrite E. done.
  - split; [eauto|]. split; [done|]. split; [|done].
    intros _. split; [done|]. split; [done|].
    intros -> v. rewrite E. done.
  - split; [eauto|]. split; [done|]. split; [|split; [|done]].
    + intros _. split; [done|]. split; [by intros body [= <-]|].
      intros -> v. rewrite E. split; intros [= <-]; done.
    + intros v [= <-]. apply trim_idempotent.
Qed.

(** The URL of the periodic check gives [v2]; its body on a host that
    puts a byte-order mark in front and a no-break space behind gives
    [v2] as well; and a string that is no URL gives the error, with no
    request on record. *)
Lemma manual_check_witness :
  let env := Scenario.env false in
  let marked := Scenario.envWith false
                  (λ _ _, http_end (Utf8.bytes [239; 187; 191; 118; 50; 194; 160; 10])) in
  let refuse := λ url : string,
    if decide (url = "not a url") then Some "Invalid URL" else None in
  (refuse REMOTE_VERSION_URL = None ∧ refuse "not a url" = Some "Invalid URL")
  ∧ (check_indicators_version env refuse REMOTE_VERSION_URL Scenario.start).1
    = Returned (version_found "v2")
  ∧ remoteVersion env Scenario.start = Some "v2"
  ∧ (check_indicators_version marked refuse REMOTE_VERSION_URL Scenario.start).1
    = Returned (version_found "v2")
  ∧ check_indicators_version env refuse "not a url" Scenario.start
    = (Returned (version_failed "Invalid URL"), Scenario.start).
Proof.
  intros env marked refuse.
  split; [done|].
  destruct (manual_check_sees_periodic_version env refuse REMOTE_VERSION_URL
              Scenario.start) as (_ & _ & H & _).
  destruct (H eq_refl) as (_ & Hbody & Hsame).
  destruct (manual_check_sees_periodic_version marked refuse REMOTE_VERSION_URL
              Scenario.start) as (_ & _ & H' & _).
  destruct (H' eq_refl) as (_ & Hbody' & _).
  destruct (manual_check_sees_periodic_version env refuse "not a url"
              Scenario.start) as (_ & Herr & _).
  assert ((check_indicators_version env refuse REMOTE_VERSION_URL Scenario.start).1
          = Returned (version_found "v2")) as Hr.
  { rewrite (Hbody _ eq_refl). vm_compute. reflexivity. }
  split; [exact Hr|]. split; [apply (Hsame eq_refl); exact Hr|]. split.
  - rewrite (Hbody' _ eq_refl). vm_compute. reflexivity.
  - exact (Herr _ eq_refl).
Defined.

(** ** The port of the development server *)

Lemma findPort_from_spec answering ports : ∀ probed,
  let r := findPort_from answering ports probed in
  (∃ k port, ports !! k = Some port
     ∧ r = (Returned port, (probed ++ take (S k) ports)%list)
     ∧ answering (length probed + k) port = true
     ∧ ∀ i q, i < k → ports !! i = Some q → answering (length probed + i) q = false)
  ∨ (r = (Returned 5173%N, (probed ++ ports)%list)
     ∧ ∀ i q, ports !! i = Some q → answering (length probed + i) q = false).
Proof.
  induction ports as [|p rest IH]; intros probed; simpl.
  - right. unfold ret. rewrite app_nil_r. split; [done|]. by intros i q.
  - unfold bind, probe.
    destruct (answering (length probed) p) eqn:Ea.
    + left. exists 0, p. rewrite Nat.add_0_r, take_0. unfold ret.
      repeat split; try done. intros i q Hi. lia.
    + destruct (IH (probed ++ [p])%list) as [(k & port & Hk & Hr & Ha & Hb)|[Hr Hb]].
      * left. exists (S k), port. simpl. rewrite Hr, <- app_assoc. simpl.
        rewrite length_app in Ha. simpl in Ha.
        replace (length probed + S k) with (length probed + 1 + k) by lia.
        repeat split; try done.
        intros [|i] q Hi Hq; simpl in Hq.
        -- injection Hq as <-. by rewrite Nat.add_0_r.
        -- specialize (Hb i q ltac:(lia) Hq). rewrite length_app in Hb. simpl in Hb.
           by replace (length probed + S i) with (length probed + 1 + i) by lia.
      * right. rewrite Hr, <- app_assoc. simpl. split; [done|].
        intros [|i] q Hq; simpl in Hq.
        -- injection Hq as <-. by rewrite Nat.add_0_r.
        -- specialize (Hb i q Hq). rewrite length_app in Hb. simpl in Hb.
           by replace (length probed + S i) with (length probed + 1 + i) by lia.
Qed.

(** X2. [findPort] probes the six ports in order and stops at the first
    that answers, which it returns, having probed none of the later ones;
    when none answers it has probed all six and returns 5173.  The start
    URL of a development build is [http://localhost:] followed by that
    port, one of the six; it is never the fall-back of the [catch]. *)
Theorem findPort_first_answering (answering : nat → N → bool) :
  let r := findPort answering [] in
  ((∃ k port, tryPorts !! k = Some port
      ∧ r = (Returned port, take (S k) tryPorts)
      ∧ answering k port = true
      ∧ ∀ i q, i < k → tryPorts !! i = Some q → answering i q = false)
   ∨ (r = (Returned 5173%N, tryPorts)
      ∧ ∀ i q, tryPorts !! i = Some q → answering i q = false))
  ∧ ∃ port, port ∈ tryPorts
      ∧ devStartUrl answering [] = (Returned ("http://localhost:" +:+ pretty port), r.2).
Proof.
  intros r.
  assert (devStartUrl answering []
          = match r with
            | (Returned port, s') => (Returned ("http://localhost:" +:+ pretty port), s')
            | (Thrown _, s') => (Returned "http://localhost:5173", s')
            end) as Hurl.
  { unfold devStartUrl, try_catch, bind, ret.
    change (findPort answering []) with r. by destruct r as [[?|?] ?]. }
  pose proof (findPort_from_spec answering tryPorts []) as H. cbv zeta in H.
  change (findPort_from answering tryPorts []) with r in H.
  clearbody r. rewrite Hurl. clear Hurl.
  split; [exact H|].
  destruct H as [(k & port & Hk & -> & _)|[-> _]]; simpl.
  - exists port. split; [|done]. by eapply list_elem_of_lookup_2.
  - exists 5173%N. split; [|done]. by apply list_elem_of_here.
Qed.

(** ** Asset paths *)

Lemma slashes_app s t : Str.slashes (s +:+ t) = Str.slashes s +:+ Str.slashes t.
Proof. induction s as [|a s IH]; [done|]. rewrite append_cons. simpl. by rewrite IH. Qed.

Lemma hasBackslash_slashes s : Regex.hasBackslash (Str.slashes s) = false.
Proof.
  induction s as [|a s IH]; simpl; [done|]. rewrite IH.
  case_decide; by rewrite bool_decide_eq_false_2.
Qed.

Lemma slashes_id s : Regex.hasBackslash s = false → Str.slashes s = s.
Proof.
  induction s as [|a s IH]; simpl; [done|].
  intros [Ha Hs]%orb_false_elim. apply bool_decide_eq_false_1 in Ha.
  rewrite decide_False by done. by rewrite IH.
Qed.

Lemma hasBackslash_app s t :
  Regex.hasBackslash (s +:+ t) = Regex.hasBackslash s || Regex.hasBackslash t.
Proof.
  induction s as [|a s IH]; [done|]. rewrite append_cons. simpl.
  by rewrite IH, orb_assoc.
Qed.

Lemma hasBackslash_dropTrailing s :
  Regex.hasBackslash s = false → Regex.hasBackslash (Regex.dropTrailingSlashes s) = false.
Proof.
  induction s as [|a s IH]; [done|].
  intros H. pose proof H as [Ha Hs]%orb_false_elim.
  cbn [Regex.dropTrailingSlashes].
  destruct (Regex.startsDouble (String a s) && Regex.allSlashes (String a s)); [done|].
  simpl. by rewrite Ha, IH.
Qed.

Lemma hasBackslash_dropLeading s :
  Regex.hasBackslash s = false → Regex.hasBackslash (Regex.dropLeadingSlashes s) = false.
Proof.
  induction s as [|a s IH]; [done|].
  intros H. pose proof H as [Ha Hs]%orb_false_elim.
  cbn [Regex.dropLeadingSlashes].
  destruct (decide (a = "/"%char)); [by apply IH|done].
Qed.

Lemma hasBackslash_collapse s :
  Regex.hasBackslash s = false →
  Regex.hasBackslash (Regex.collapseFirstSlashes s) = false.
Proof.
  induction s as [|a s IH]; [done|].
  intros H. pose proof H as [Ha Hs]%orb_false_elim.
  cbn [Regex.collapseFirstSlashes].
  destruct (Regex.startsDouble (String a s)).
  - simpl. by apply hasBackslash_dropLeading.
  - simpl. by rewrite Ha, IH.
Qed.

(** The asset path, with the backslashes of both inputs turned first. *)
Lemma getAssetPath_eq dirname name :
  getAssetPath (Some dirname) name
  = "file://" +:+ Regex.collapseFirstSlashes
                    (Regex.dropTrailingSlashes (Str.slashes dirname)
                     +:+ "/../dist/" +:+ Str.slashes name).
Proof.
  unfold getAssetPath. rewrite !slashes_app.
  rewrite (slashes_id (Regex.dropTrailingSlashes _))
    by apply hasBackslash_dropTrailing, hasBackslash_slashes.
  reflexivity.
Qed.

(** X3. With [__dirname] defined, the asset path starts with [file://]
    and holds no backslash, whatever the directory and the asset name
    are; and backslashes in the directory or in the name count as
    slashes: turning them beforehand gives the same path. *)
Theorem getAssetPath_forward_slashes (dirname name : string) :
  Str.startsWith (getAssetPath (Some dirname) name) "file://" = true
  ∧ Regex.hasBackslash (getAssetPath (Some dirname) name) = false
  ∧ getAssetPath (Some dirname) name
    = getAssetPath (Some (Str.slashes dirname)) (Str.slashes name).
Proof.
  split; [|split].
  - apply startsWith_spec. rewrite getAssetPath_eq. eauto.
  - rewrite getAssetPath_eq, hasBackslash_app. simpl.
    apply hasBackslash_collapse. rewrite !hasBackslash_app.
    rewrite hasBackslash_dropTrailing by apply hasBackslash_slashes.
    simpl. apply hasBackslash_slashes.
  - rewrite !getAssetPath_eq.
    by rewrite !(slashes_id (Str.slashes _)) by apply hasBackslash_slashes.
Qed.

Lemma startsDouble_app s t :
  Regex.startsDouble s = true → Regex.startsDouble (s +:+ t) = true.
Proof. by destruct s as [|a [|b s]]. Qed.

Lemma hasDoubleSlash_app_l s t :
  Regex.hasDoubleSlash (s +:+ t) = false → Regex.hasDoubleSlash s = false.
Proof.
  induction s as [|a s IH]; [done|]. rewrite append_cons.
  cbn [Regex.hasDoubleSlash]. rewrite <- append_cons.
  intros [Hd Hs]%orb_false_elim.
  destruct (Regex.startsDouble (String a s)) eqn:E.
  - by rewrite (startsDouble_app _ t E) in Hd.
  - simpl. by apply IH.
Qed.

Lemma dropTrailing_id s :
  Regex.hasDoubleSlash s = false → Regex.dropTrailingSlashes s = s.
Proof.
  induction s as [|a s IH]; [done|]. cbn [Regex.hasDoubleSlash Regex.dropTrailingSlashes].
  intros [-> Hs]%orb_false_elim. simpl. by rewrite IH.
Qed.

Lemma collapse_id s :
  Regex.hasDoubleSlash s = false → Regex.collapseFirstSlashes s = s.
Proof.
  induction s as [|a s IH]; [done|].
  cbn [Regex.hasDoubleSlash Regex.collapseFirstSlashes].
  intros [-> Hs]%orb_false_elim. by rewrite IH.
Qed.

(** X4. When neither the directory nor the name holds a backslash and the
    path made of the directory, [/../dist/] and the name has no two
    slashes in a row, the asset path is that path after [file://],
    unchanged. *)
Theorem getAssetPath_clean (dirname name : string) :
  Regex.hasBackslash dirname = false →
  Regex.hasBackslash name = false →
  Regex.hasDoubleSlash (dirname +:+ "/../dist/" +:+ name) = false →
  getAssetPath (Some dirname) name = "file://" +:+ dirname +:+ "/../dist/" +:+ name.
Proof.
  intros Hd Hn Hdd. rewrite getAssetPath_eq.
  rewrite (slashes_id _ Hd), (slashes_id _ Hn).
  rewrite (dropTrailing_id dirname) by by eapply hasDoubleSlash_app_l.
  by rewrite collapse_id.
Qed.

Lemma getAssetPath_clean_witness :
  getAssetPath (Some "/opt/WorldData/resources/app") "icons/logo.png"
  = "file:///opt/WorldData/resources/app/../dist/icons/logo.png".
Proof.
  apply (getAssetPath_clean "/opt/WorldData/resources/app" "icons/logo.png");
    reflexivity.
Defined.

(** ** Tokens kept by a working keytar *)

(** X5. With a keytar that works and keeps what it is given, storing a
    token answers [true] and getting it back gives the string that was
    stored: the token itself, or the empty string when the token was
    missing; after a delete nothing is got.  The three handlers address
    the same entry of the keychain and touch nothing but the keychain. *)
Theorem token_round_trip (env : Env) (kt : Keytar) (token : option string) (w : World) :
  keytar env = Some kt → LawfulKeytar kt →
  let stored := store_indicator_token env token w in
  let deleted := delete_indicator_token env stored.2 in
  stored.1 = Returned true
  ∧ (get_indicator_token env stored.2).1 = Returned (Some (Str.or_else token ""))
  ∧ (∃ b, deleted.1 = Returned b)
  ∧ (get_indicator_token env deleted.2).1 = Returned None
  ∧ disk deleted.2 = disk w ∧ requests deleted.2 = requests w
  ∧ sent deleted.2 = sent w.
Proof.
  intros Hk [Hset Hget Hdel Hgone].
  unfold store_indicator_token, get_indicator_token, delete_indicator_token.
  rewrite Hk. unfold try_catch, bind, on_keychain, ret. simpl.
  specialize (Hset KEYTAR_SERVICE "indicator" (Str.or_else token "") (keychain w)).
  specialize (Hget KEYTAR_SERVICE "indicator" (Str.or_else token "") (keychain w)).
  destruct (setPassword kt KEYTAR_SERVICE "indicator" (Str.or_else token "")
              (keychain w)) as [o k1]. simpl in *. subst o. simpl.
  split; [done|]. split.
  { destruct (getPassword kt KEYTAR_SERVICE "indicator" k1) as [o k2]. simpl in *.
    by subst o. }
  specialize (Hdel KEYTAR_SERVICE "indicator" k1).
  specialize (Hgone KEYTAR_SERVICE "indicator" k1).
  destruct (deletePassword kt KEYTAR_SERVICE "indicator" k1) as [o k2].
  simpl in *. destruct Hdel as [b ->]. simpl.
  split; [eauto|]. split; [|done].
  destruct (getPassword kt KEYTAR_SERVICE "indicator" k2) as [o k3]. simpl in *.
  by subst o.
Qed.

Lemma memKeytar_lawful : LawfulKeytar Host.memKeytar.
Proof.
  split; simpl; intros; eauto.
  - by rewrite lookup_insert_eq.
  - by rewrite lookup_delete_eq.
Qed.

Lemma token_round_trip_witness :
  let env := Scenario.env false in
  let stored := store_indicator_token env (Some "ghp_x") Scenario.start in
  let blank := store_indicator_token env None Scenario.start in
  (keytar env = Some Host.memKeytar ∧ LawfulKeytar Host.memKeytar)
  ∧ (get_indicator_token env stored.2).1 = Returned (Some "ghp_x")
  ∧ (get_indicator_token env blank.2).1 = Returned (Some "")
  ∧ (get_indicator_token env (delete_indicator_token env stored.2).2).1 = Returned None.
Proof.
  intros env stored blank.
  split; [split; [reflexivity|apply memKeytar_lawful]|].
  destruct (token_round_trip env Host.memKeytar (Some "ghp_x") Scenario.start
              eq_refl memKeytar_lawful) as (_ & H1 & _ & H2 & _).
  destruct (token_round_trip env Host.memKeytar None Scenario.start
              eq_refl memKeytar_lawful) as (_ & H3 & _).
  split; [exact H1|]. split; [exact H3|exact H2].
Defined.

(** ** Directories *)

(** X6. [ensureDir] never throws and does nothing the second time.  When
    the host allows it the directory and the directories above it are
    there afterwards; when the host denies it the disk is as it was.  No
    file is touched either way. *)
Theorem ensureDir_idempotent (dir : string) (d : FS) :
  let r := ensureDir dir d in
  r.1 = Returned ()
  ∧ ensureDir dir r.2 = r
  ∧ fs_files r.2 = fs_files d
  ∧ fs_dirs d ⊆ fs_dirs r.2
  ∧ (dir ∉ fs_denied d →
     dir ∈ fs_dirs r.2 ∧ ∀ p, p ∈ path.parents dir → p ∈ fs_dirs r.2)
  ∧ (dir ∈ fs_denied d → r.2 = d).
Proof.
  unfold ensureDir, fs.mkdirSync. run. simpl.
  destruct (decide (dir ∈ fs_denied d)) as [Hd|Hd]; simpl.
  - rewrite decide_True by done. simpl. repeat split; done.
  - rewrite decide_False by done. simpl.
    split; [done|]. split.
    { do 2 f_equal. apply set_eq. intros x.
      rewrite !elem_of_union, !elem_of_list_to_set. tauto. }
    split; [done|]. split; [apply union_subseteq_l|]. split; [|done].
    intros _. split.
    + apply elem_of_union_r, elem_of_union_l. by apply elem_of_singleton.
    + intros p Hp. apply elem_of_union_r, elem_of_union_r.
      by apply elem_of_list_to_set.
Qed.

Lemma ensureDir_witness :
  let r := ensureDir "/home/u/.config/WorldData/indicators" Host.emptyDisk in
  ("/home/u/.config/WorldData/indicators" ∉ fs_denied Host.emptyDisk)
  ∧ "/home/u/.config/WorldData/indicators" ∈ fs_dirs r.2
  ∧ "/home/u/.config" ∈ fs_dirs r.2.
Proof.
  intros r.
  assert ("/home/u/.config/WorldData/indicators" ∉ fs_denied Host.emptyDisk) as Hd
    by (simpl; apply not_elem_of_empty).
  destruct (ensureDir_idempotent "/home/u/.config/WorldData/indicators" Host.emptyDisk)
    as (_ & _ & _ & _ & H & _).
  destruct (H Hd) as [H1 H2].
  split; [exact Hd|]. split; [exact H1|].
  apply H2. vm_compute. apply list_elem_of_In. simpl. tauto.
Defined.

Lemma getIndicatorsDir_files_eq env d :
  fs_files (getIndicatorsDir env d).2
  = if isDev env then fs_files d
    else if decide (installWritable env d) then delete (probeFile env) (fs_files d)
    else fs_files d.
Proof.
  unfold getIndicatorsDir, installWritable, probeFile, installDir.
  rewrite or_else_self. run.
  destruct (isDev env); simpl; [|rewrite dirname_truthy].
  - fs_cases; done.
  - set (inst := path.join (path.dirname (execPath env)) "indicators").
    destruct (decide ((inst ∉ fs_denied d) ∧ (path.join inst ".write_test" ∉ fs_denied d)))
      as [[Hi Hp]|Hn].
    + unfold fs.mkdirSync, fs.writeFileSync, fs.unlinkSync. simpl.
      repeat (rewrite decide_False by done; simpl).
      rewrite lookup_insert_eq. simpl. apply delete_insert_eq.
    + unfold fs.mkdirSync at 1.
      destruct (decide (inst ∈ fs_denied d)) as [Hi|Hi]; simpl.
      * fs_cases; done.
      * unfold fs.writeFileSync. simpl.
        destruct (decide (path.join inst ".write_test" ∈ fs_denied d)) as [Hp|Hp];
          [|by destruct Hn].
        simpl. fs_cases; done.
Qed.

Lemma getIndicatorsDir_dir_exists env d :
  resolvedDir env d ∉ fs_denied d →
  resolvedDir env d ∈ fs_dirs (getIndicatorsDir env d).2.
Proof.
  unfold getIndicatorsDir, resolvedDir, installWritable, probeFile, installDir,
    userDataDir.
  rewrite or_else_self. run.
  destruct (isDev env); simpl; [|rewrite dirname_truthy].
  - intros Hd. unfold fs.mkdirSync. rewrite decide_False by done. simpl.
    apply elem_of_union_r, elem_of_union_l. by apply elem_of_singleton.
  - set (inst := path.join (path.dirname (execPath env)) "indicators").
    destruct (decide ((inst ∉ fs_denied d) ∧ (path.join inst ".write_test" ∉ fs_denied d)))
      as [[Hi Hp]|Hn]; intros Hd.
    + unfold fs.mkdirSync, fs.writeFileSync, fs.unlinkSync. simpl.
      repeat (rewrite decide_False by done; simpl).
      rewrite lookup_insert_eq. simpl.
      apply elem_of_union_r, elem_of_union_l. by apply elem_of_singleton.
    + unfold fs.mkdirSync at 1.
      destruct (decide (inst ∈ fs_denied d)) as [Hi|Hi]; simpl.
      * unfold fs.mkdirSync. rewrite decide_False by done. simpl.
        apply elem_of_union_r, elem_of_union_l. by apply elem_of_singleton.
      * unfold fs.writeFileSync. simpl.
        destruct (decide (path.join inst ".write_test" ∈ fs_denied d)) as [Hp|Hp];
          [|by destruct Hn].
        simpl. unfold fs.mkdirSync. simpl. rewrite decide_False by done. simpl.
        apply elem_of_union_r, elem_of_union_l. by apply elem_of_singleton.
Qed.

(** X7. Resolving the indicators directory never throws and leaves the
    disk tidy: the directory it returns is there afterwards unless the
    host denies creating it, no directory is removed, and no file is
    changed but the probe file.  In a production build with a writable
    install directory it returns that directory and the probe file is
    gone again; in a development build, or when the install directory
    cannot be written, no file is touched at all. *)
Theorem getIndicatorsDir_leaves_no_probe (env : Env) (d : FS) :
  let r := getIndicatorsDir env d in
  (∃ dir, r.1 = Returned dir ∧ (dir ∉ fs_denied d → dir ∈ fs_dirs r.2))
  ∧ fs_dirs d ⊆ fs_dirs r.2
  ∧ fs_denied r.2 = fs_denied d
  ∧ (∀ p, p ≠ probeFile env → fs_files r.2 !! p = fs_files d !! p)
  ∧ (isDev env = false → installWritable env d →
     r.1 = Returned (installDir env) ∧ fs_files r.2 !! probeFile env = None)
  ∧ (isDev env = true ∨ ¬ installWritable env d → fs_files r.2 = fs_files d).
Proof.
  intros r. subst r.
  split.
  { exists (resolvedDir env d). split; [apply getIndicatorsDir_returns|].
    apply getIndicatorsDir_dir_exists. }
  split; [apply getIndicatorsDir_dirs|].
  split; [apply getIndicatorsDir_denied|].
  split; [intros p; apply getIndicatorsDir_files|].
  rewrite getIndicatorsDir_files_eq, getIndicatorsDir_returns.
  unfold resolvedDir. split.
  - intros -> Hw. rewrite !decide_True by done. split; [done|apply lookup_delete_eq].
  - intros [->|Hn]; [done|]. destruct (isDev env); [done|].
    by rewrite decide_False.
Qed.

Lemma getIndicatorsDir_witness :
  let env := Scenario.env false in
  let d := {| fs_files := {[ "/opt/WorldData/indicators/.write_test" := "stale" ]};
              fs_dirs := ∅; fs_denied := ∅ |} in
  let r := getIndicatorsDir env d in
  (isDev env = false ∧ installWritable env d)
  ∧ r.1 = Returned "/opt/WorldData/indicators"
  ∧ fs_files r.2 !! "/opt/WorldData/indicators/.write_test" = None
  ∧ "/opt/WorldData/indicators" ∈ fs_dirs r.2.
Proof.
  intros env d r.
  assert (installWritable env d) as Hw by done.
  destruct (getIndicatorsDir_leaves_no_probe env d) as ((dir & Hr & Hdir) & _ & _ & _ & Hp & _).
  destruct (Hp eq_refl Hw) as [H1 H2].
  split; [done|]. split; [exact H1|]. split; [exact H2|].
  fold r in Hr, H1. rewrite H1 in Hr. injection Hr as <-.
  apply Hdir. simpl. apply not_elem_of_empty.
Defined.

(** ** The files of a pass *)

Lemma applyWrites_app ws1 ws2 m :
  applyWrites (ws1 ++ ws2) m = applyWrites ws2 (applyWrites ws1 m).
Proof. unfold applyWrites. apply foldl_app. Qed.

Lemma applyWrites_cons p b ws m :
  applyWrites ((p, b) :: ws) m = applyWrites ws (<[p := b]> m).
Proof. reflexivity. Qed.

Lemma downloadItem_files env hdrs owner repo branch dir total i item dl errs w :
  fs_files (disk (downloadItem env hdrs owner repo branch dir total i item dl errs w).2)
  = match fileOutcome env hdrs owner repo branch dir (fs_denied (disk w))
            (length (requests w)) item with
    | Returned bytes => <[outPath dir item := bytes]> (fs_files (disk w))
    | Thrown _ => fs_files (disk w)
    end.
Proof.
  unfold downloadItem, fileOutcome, fetchJson, https_get_M. run. simpl.
  destruct (https_get env _ _) as [m| |body]; simpl; try done.
  destruct (JSON_parse env body) as [fileResp|e]; simpl; try done.
  destruct (fileResp ≫= content) as [[|a c]|]; simpl; try done.
  assert (Str.or_else (fileResp ≫= encoding) "base64"
          = match fileResp ≫= encoding with
            | None | Some "" => "base64" | Some enc => enc end) as ->
    by (by destruct (fileResp ≫= encoding) as [[|? ?]|]).
  destruct (Buffer_from env _ _) as [bytes|e]; simpl; [|done].
  unfold on_disk, ensureDir, send. run. simpl.
  unfold fs.mkdirSync, fs.writeFileSync. simpl.
  destruct (decide (path.dirname (outPath dir item) ∈ fs_denied (disk w))); simpl;
    (destruct (decide (outPath dir item ∈ fs_denied (disk w))); simpl; [done|]);
    by destruct (mainWindow w).
Qed.

Lemma downloadLoop_files env hdrs owner repo branch dir total items : ∀ i dl errs w,
  fs_files (disk (downloadLoop env hdrs owner repo branch dir total items i dl errs w).2)
  = applyWrites (writesFrom env hdrs owner repo branch dir (fs_denied (disk w))
                   (length (requests w)) items)
      (fs_files (disk w)).
Proof.
  induction items as [|item rest IH]; intros i dl errs w; simpl; [done|].
  pose proof (downloadItem_spec env hdrs owner repo branch dir total (S i) item dl errs w)
    as (H1 & Hrq & _ & _ & Hd & _).
  pose proof (downloadItem_files env hdrs owner repo branch dir total (S i) item dl errs w)
    as Hf.
  unfold bind.
  destruct (downloadItem env hdrs owner repo branch dir total (S i) item dl errs w)
    as [o w1]. simpl in *. subst o.
  destruct (fileOutcome env hdrs owner repo branch dir (fs_denied (disk w))
              (length (requests w)) item) as [bytes|e]; simpl;
    rewrite IH, Hrq, Hd, Hf, length_app; simpl; rewrite Nat.add_1_r; done.
Qed.

Lemma write_version_files dir (version : option string) w :
  let r := match Str.or_null version with
           | Some v => attempt (on_disk (fs.writeFileSync (versionFile dir) v))
           | None => ret ()
           end w in
  r.1 = Returned ()
  ∧ fs_files (disk r.2)
    = applyWrites match Str.or_null version with
                  | Some v => if decide (versionFile dir ∈ fs_denied (disk w)) then []
                              else [(versionFile dir, v)]
                  | None => []
                  end (fs_files (disk w)).
Proof.
  destruct (Str.or_null version) as [v|]; simpl; [|done].
  unfold on_disk, fs.writeFileSync. run.
  by destruct (decide (versionFile dir ∈ fs_denied (disk w))).
Qed.

(** What is on disk after the part of a pass that follows the listing. *)
Lemma downloadTree_files env opts hdrs owner repo branch dir tr w :
  fs_files (disk (downloadTree env opts hdrs owner repo branch dir tr w).2)
  = applyWrites
      (writesFrom env hdrs owner repo branch dir (fs_denied (disk w))
         (length (requests w)) (jsonFiles tr)
       ++ match Str.or_null (opts ≫= version) with
          | Some v => if decide (versionFile dir ∈ fs_denied (disk w)) then []
                      else [(versionFile dir, v)]
          | None => []
          end)
      (fs_files (disk w)).
Proof.
  unfold downloadTree. unfold bind.
  pose proof (attempt_send_spec
                (indicators_download_start owner repo branch (length (jsonFiles tr))) w)
    as Ha.
  destruct (attempt (send _) w) as [oa wa]. simpl in Ha.
  destruct Ha as (-> & Had & _ & Har & _ & _).
  pose proof (downloadLoop_spec env hdrs owner repo branch dir (length (jsonFiles tr))
                (jsonFiles tr) 0 [] [] wa) as Hl.
  pose proof (downloadLoop_files env hdrs owner repo branch dir (length (jsonFiles tr))
                (jsonFiles tr) 0 [] [] wa) as Hf.
  destruct (downloadLoop _ _ _ _ _ _ _ _ _ _ _ wa) as [ol wl]. simpl in Hl, Hf.
  rewrite Har, Had in Hl, Hf.
  destruct Hl as (-> & _ & _ & _ & Hld & _). simpl.
  rewrite applyWrites_app, <- Hf, <- Hld.
  pose proof (write_version_files dir (opts ≫= version) wl) as Hv.
  cbv zeta in Hv.
  match type of Hv with (?m).1 = _ ∧ _ => destruct m as [ov wv] end.
  simpl in Hv. destruct Hv as [-> Hv]. rewrite <- Hv.
  match goal with
  | |- context [attempt (send ?ev) wv] =>
      pose proof (attempt_send_spec ev wv) as Hc;
      destruct (attempt (send ev) wv) as [oc wc]
  end.
  simpl in Hc. destruct Hc as (-> & Hcd & _). simpl. by rewrite Hcd.
Qed.

Lemma perform_files env opts w tr :
  configured opts → listed env opts w = Some tr →
  fs_files (disk (performDownloadIndicators env opts w).2)
  = applyWrites (passWrites env opts w (jsonFiles tr) ++ versionWrite env opts w)
      (fs_files (preparedDisk env (disk w))).
Proof.
  intros Hc Hl.
  destruct (perform_eq env opts w Hc) as [k ->].
  rewrite listAndDownload_eq. simpl.
  unfold listed, treeAnswer, treeRequest, passHeaders in Hl.
  destruct (match https_get env (length (requests w)) _ with
            | http_error message => Thrown message
            | http_timeout => Thrown "timeout"
            | http_end body => JSON_parse env body
            end) as [j|e]; [|done].
  rewrite Hl, downloadTree_files. simpl.
  rewrite preparedDisk_denied, length_app. simpl. rewrite Nat.add_1_r.
  reflexivity.
Qed.

Lemma applyWrites_union ws : ∀ m,
  applyWrites ws m = list_to_map (reverse ws) ∪ m.
Proof.
  induction ws as [|[p b] ws IH]; intros m.
  - simpl. by rewrite (left_id_L ∅ (∪)).
  - rewrite applyWrites_cons, IH, reverse_cons, list_to_map_app.
    rewrite <- (assoc_L (∪)). f_equal. simpl.
    by rewrite insert_union_singleton_l, insert_empty.
Qed.

(** Writing the same list of files twice is writing it once. *)
Lemma applyWrites_twice ws m : applyWrites ws (applyWrites ws m) = applyWrites ws m.
Proof.
  rewrite !applyWrites_union, (assoc_L (∪)).
  by rewrite (idemp_L (∪) (list_to_map (reverse ws))).
Qed.

Lemma applyWrites_lookup_notin ws : ∀ m p,
  p ∉ ws.*1 → applyWrites ws m !! p = m !! p.
Proof.
  induction ws as [|[q b] ws IH]; intros m p Hp; [done|].
  rewrite fmap_cons, not_elem_of_cons in Hp. destruct Hp as [Hq Hp]. simpl in Hq.
  rewrite applyWrites_cons, IH by done. by apply lookup_insert_ne.
Qed.

Lemma applyWrites_lookup_last ws1 ws2 m p b :
  p ∉ ws2.*1 → applyWrites (ws1 ++ (p, b) :: ws2) m !! p = Some b.
Proof.
  intros Hp. rewrite applyWrites_app, applyWrites_cons.
  rewrite applyWrites_lookup_notin by done. apply lookup_insert_eq.
Qed.

Section Writes.

Context (env : Env) (hdrs : list (string * string)).
Context (owner repo branch dir : string) (denied : gset string).

#[local] Abbreviation outcome' := (fileOutcome env hdrs owner repo branch dir denied).
#[local] Abbreviation writes := (writesFrom env hdrs owner repo branch dir denied).

Lemma writesFrom_app l1 : ∀ n l2,
  writes n (l1 ++ l2) = (writes n l1 ++ writes (n + length l1) l2)%list.
Proof.
  induction l1 as [|item l1 IH]; intros n l2; simpl.
  - by rewrite Nat.add_0_r.
  - rewrite IH. replace (S n + length l1) with (n + S (length l1)) by lia.
    by destruct (outcome' n item).
Qed.

(** A path that no arriving file is written to is not among the writes. *)
Lemma writesFrom_notin l p : ∀ n,
  (∀ j item, l !! j = Some item → outPath dir item = p →
             arrives (outcome' (n + j) item) = false) →
  p ∉ (writes n l).*1.
Proof.
  induction l as [|item l IH]; intros n H; simpl.
  - apply not_elem_of_nil.
  - assert (p ∉ (writes (S n) l).*1) as Hrest.
    { apply IH. intros j it Hj Hp.
      replace (S n + j) with (n + S j) by lia. by apply H. }
    destruct (outcome' n item) as [bytes|e] eqn:Eo; [|done].
    rewrite fmap_cons, not_elem_of_cons. split; [|done]. simpl.
    intros ->. specialize (H 0 item eq_refl eq_refl).
    rewrite Nat.add_0_r, Eo in H. done.
Qed.

(** Every write is the write of a file of the list. *)
Lemma writesFrom_keys l : ∀ n p,
  p ∈ (writes n l).*1 → ∃ item, item ∈ l ∧ p = outPath dir item.
Proof.
  induction l as [|item l IH]; intros n p; simpl.
  - intros H. by apply elem_of_nil in H.
  - destruct (outcome' n item) as [bytes|e].
    + rewrite fmap_cons, elem_of_cons. simpl. intros [->|H].
      * exists item. split; [apply list_elem_of_here|done].
      * destruct (IH _ _ H) as (it & Hit & ->).
        exists it. split; [by apply list_elem_of_further|done].
    + intros H. destruct (IH _ _ H) as (it & Hit & ->).
      exists it. split; [by apply list_elem_of_further|done].
Qed.

End Writes.

Lemma jsonFiles_candidate tr item : item ∈ jsonFiles tr → isCandidate item = true.
Proof.
  intros H. apply list_elem_of_In in H. unfold jsonFiles in H.
  by apply filter_In in H as [_ H].
Qed.

Lemma append_three_inj s1 s2 a1 b1 c1 a2 b2 c2 :
  s1 +:+ String a1 (String b1 (String c1 ""))
  = s2 +:+ String a2 (String b2 (String c2 "")) →
  a1 = a2 ∧ b1 = b2 ∧ c1 = c2.
Proof.
  intros H.
  change (String a1 (String b1 (String c1 "")))
    with ((String a1 "" +:+ String b1 "") +:+ String c1 "") in H.
  change (String a2 (String b2 (String c2 "")))
    with ((String a2 "" +:+ String b2 "") +:+ String c2 "") in H.
  rewrite <- !append_assoc in H.
  apply append_last_inj in H as [H ->].
  apply append_last_inj in H as [H ->].
  by apply append_last_inj in H as [_ ->].
Qed.

Lemma toLowerCase_snoc s t x :
  Str.toLowerCase s = t +:+ String x "" →
  ∃ s0 c, s = s0 +:+ String c "" ∧ Str.lower c = x ∧ Str.toLowerCase s0 = t.
Proof.
  revert t. induction s as [|a s IH]; intros t H; simpl in H.
  - by destruct t.
  - destruct t as [|b t].
    + rewrite append_empty_l in H. injection H as Ha Hs.
      destruct s; [|done]. by exists "", a.
    + rewrite append_cons in H. injection H as Ha Hs.
      destruct (IH t Hs) as (s0 & c & -> & Hc & Ht).
      exists (String a s0), c. simpl. by rewrite Ha, Ht.
Qed.

(** A path that ends in [.json], whatever the case of the letters, ends
    in three characters that lower-casing turns into [son]. *)
Lemma json_last_three p :
  Str.endsWith (Str.toLowerCase p) ".json" = true →
  ∃ s0 c1 c2 c3,
    p = s0 +:+ String c1 (String c2 (String c3 ""))
    ∧ Str.lower c1 = "s"%char ∧ Str.lower c2 = "o"%char ∧ Str.lower c3 = "n"%char.
Proof.
  intros [stem Hs]%endsWith_spec.
  change ".json" with (((".j" +:+ String "s" "") +:+ String "o" "") +:+ String "n" "")
    in Hs.
  rewrite <- !append_assoc in Hs.
  apply toLowerCase_snoc in Hs as (s3 & c3 & -> & H3 & Hs).
  apply toLowerCase_snoc in Hs as (s2 & c2 & -> & H2 & Hs).
  apply toLowerCase_snoc in Hs as (s1 & c1 & -> & H1 & Hs).
  exists s1, c1, c2, c3. by rewrite !append_assoc.
Qed.

(** The place of a candidate file is never the version file. *)
Lemma outPath_not_versionFile dir item :
  isCandidate item = true → outPath dir item ≠ versionFile dir.
Proof.
  intros Hi Heq. apply isCandidate_spec in Hi.
  destruct Hi as (_ & p & Hp & _ & Hj).
  apply endsWith_spec, json_last_three in Hj as (s0 & c1 & c2 & c3 & Hp' & H1 & H2 & H3).
  unfold outPath, versionFile, itemPath in Heq. rewrite Hp in Heq. simpl in Heq.
  assert (Str.truthy p = true) as Ht by (subst p; by destruct s0).
  rewrite Ht, Hp', slashes_app in Heq. simpl in Heq.
  rewrite !decide_False in Heq by (intros ->; discriminate).
  destruct (join_suffix dir (Str.slashes s0) (String c1 (String c2 (String c3 ""))))
    as [pre E].
  { simpl. rewrite !bool_decide_eq_false_2 by (intros ->; discriminate). done. }
  { simpl. rewrite (bool_decide_eq_false_2 (c1 = "."%char)) by (intros ->; discriminate).
    done. }
  destruct (join_suffix dir "indicator_vers" "ion") as [pre' E']; [done|done|].
  change ("indicator_vers" +:+ "ion") with "indicator_version" in E'.
  rewrite E, E' in Heq. apply append_three_inj in Heq as (-> & _ & _). discriminate.
Qed.

(** ** Reading an installed file *)

(** The handler comes to the file at the joined path, as the disk has it
    once the directory is resolved. *)
Lemma read_indicator_file_eq env rel w :
  let d := (getIndicatorsDir env (disk w)).2 in
  read_indicator_file env rel w
  = (Returned (Utf8.decode <$> fs_files d !! path.join (resolvedDir env (disk w)) rel),
     {| disk := d; keychain := keychain w; requests := requests w;
        mainWindow := mainWindow w; sent := sent w |}).
Proof.
  intros d. subst d. unfold read_indicator_file, on_disk.
  pose proof (getIndicatorsDir_returns env (disk w)) as H.
  unfold try_catch, bind at 1.
  destruct (getIndicatorsDir env (disk w)) as [o d]. simpl in *. subst o.
  unfold bind, fs.existsSync, fs.readFileSync, ret. simpl.
  set (p := path.join (resolvedDir env (disk w)) rel).
  destruct (fs_files d !! p) as [txt|] eqn:E; simpl.
  - by rewrite ?E.
  - destruct (bool_decide (p ∈ fs_dirs d)); simpl; [|done]. rewrite E.
    by destruct (decide (p ∈ fs_dirs d)).
Qed.

(** X8. [read-indicator-file] never throws: it resolves with the content,
    decoded as UTF-8, of the file at the given path joined to the
    indicators directory, and with [null] when there is no file there
    (nothing at all, or a directory).  The joined path is normalised, so
    a path with [..] in it reaches a file outside the indicators
    directory.  The handler makes no request, sends nothing, leaves the
    keychain alone and changes no file other than the probe file of the
    resolution. *)
Theorem read_indicator_file_reads (env : Env) (relPath : string) (w : World) :
  let p := path.join (passDir env w) relPath in
  let r := read_indicator_file env relPath w in
  (∃ res, r.1 = Returned res)
  ∧ (p ≠ probeFile env → r.1 = Returned (Utf8.decode <$> fs_files (disk w) !! p))
  ∧ (requests r.2 = requests w ∧ sent r.2 = sent w ∧ keychain r.2 = keychain w
     ∧ mainWindow r.2 = mainWindow w)
  ∧ fs_denied (disk r.2) = fs_denied (disk w)
  ∧ (∀ q, q ≠ probeFile env → fs_files (disk r.2) !! q = fs_files (disk w) !! q).
Proof.
  intros p r. subst p r. rewrite read_indicator_file_eq. simpl.
  split; [eauto|]. split.
  { intros Hp. do 2 f_equal. by apply getIndicatorsDir_files. }
  split; [done|]. split; [apply getIndicatorsDir_denied|].
  intros q Hq. by apply getIndicatorsDir_files.
Qed.

(** An installed file is read; a missing one gives [null]; a path with
    [..] reads a file next to the indicators directory; and bytes that
    are no UTF-8 come back as U+FFFD. *)
Lemma read_indicator_file_witness :
  let env := Scenario.env false in
  let w := Host.world0
             {| fs_files := {[ "/opt/WorldData/indicators/indicators/a.json" := "[1]";
                               "/opt/WorldData/notes.txt" := "mine";
                               "/opt/WorldData/indicators/raw.json"
                                 := Utf8.bytes [255; 65] ]};
                fs_dirs := ∅; fs_denied := ∅ |} Live in
  (path.join (passDir env w) "indicators/a.json" ≠ probeFile env
   ∧ path.join (passDir env w) "../notes.txt" = "/opt/WorldData/notes.txt")
  ∧ (read_indicator_file env "indicators/a.json" w).1 = Returned (Some "[1]")
  ∧ (read_indicator_file env "indicators/b.json" w).1 = Returned None
  ∧ (read_indicator_file env "../notes.txt" w).1 = Returned (Some "mine")
  ∧ (read_indicator_file env "raw.json" w).1
    = Returned (Some (Utf8.replacement +:+ "A")).
Proof.
  intros env w.
  assert (∀ rel, path.join (passDir env w) rel ≠ probeFile env →
                 (read_indicator_file env rel w).1
                 = Returned (Utf8.decode
                               <$> fs_files (disk w) !! path.join (passDir env w) rel))
    as H.
  { intros rel Hrel.
    destruct (read_indicator_file_reads env rel w) as (_ & H & _). exact (H Hrel). }
  split; [split; [done|reflexivity]|].
  split; [by rewrite H|]. split; [by rewrite H|]. split; by rewrite H.
Defined.

(** ** What a pass writes *)

(** A candidate file that arrives is on disk after the pass, at its
    place, unless a later one that arrives is written to the same
    place. *)
Lemma perform_writes_item env opts w tr k item bytes :
  configured opts → listed env opts w = Some tr →
  jsonFiles tr !! k = Some item →
  passOutcome env opts w k item = Returned bytes →
  (∀ j item', k < j → jsonFiles tr !! j = Some item' →
     outPath (passDir env w) item' = outPath (passDir env w) item →
     arrives (passOutcome env opts w j item') = false) →
  fs_files (disk (performDownloadIndicators env opts w).2)
    !! outPath (passDir env w) item = Some bytes.
Proof.
  intros Hc Hl Hk Ho Hlater.
  assert (isCandidate item = true) as Hcand.
  { apply (jsonFiles_candidate tr). by apply list_elem_of_lookup_2 in Hk. }
  rewrite (perform_files env opts w tr Hc Hl), applyWrites_app.
  rewrite (applyWrites_lookup_notin (versionWrite env opts w)).
  2:{ unfold versionWrite. destruct (Str.or_null (opts ≫= version)) as [v|];
        [|apply not_elem_of_nil].
      case_decide; [apply not_elem_of_nil|].
      rewrite fmap_cons, not_elem_of_cons. split; [|apply not_elem_of_nil].
      simpl. by apply outPath_not_versionFile. }
  rewrite <- (take_drop_middle _ _ _ Hk). unfold passWrites.
  rewrite writesFrom_app. cbn [writesFrom].
  unfold passOutcome in Ho.
  assert (length (take k (jsonFiles tr)) = k) as Hlen.
  { rewrite length_take. apply lookup_lt_Some in Hk. lia. }
  rewrite Hlen, Ho. apply applyWrites_lookup_last.
  apply writesFrom_notin. intros j item' Hj Hsame.
  rewrite lookup_drop in Hj.
  replace (S (S (length (requests w)) + k) + j)
    with (S (length (requests w)) + (S k + j)) by lia.
  apply (Hlater (S k + j) item'); [lia|done|done].
Qed.



(** ** A pass run again *)

Section Stable.

Context (env : Env) (Hstable : answersByRequest env).
Context (hdrs : list (string * string)).
Context (owner repo branch dir : string) (denied : gset string).

Lemma fileOutcome_shift n m item :
  fileOutcome env hdrs owner repo branch dir denied n item
  = fileOutcome env hdrs owner repo branch dir denied m item.
Proof. unfold fileOutcome. by rewrite (Hstable n m). Qed.

Lemma writesFrom_shift l : ∀ n m,
  writesFrom env hdrs owner repo branch dir denied n l
  = writesFrom env hdrs owner repo branch dir denied m l.
Proof.
  induction l as [|item l IH]; intros n m; simpl; [done|].
  by rewrite (fileOutcome_shift n m), (IH (S n) (S m)).
Qed.

Lemma arrivedFrom_shift l : ∀ n m,
  arrivedFrom env hdrs owner repo branch dir denied n l
  = arrivedFrom env hdrs owner repo branch dir denied m l.
Proof.
  induction l as [|item l IH]; intros n m; simpl; [done|].
  by rewrite (fileOutcome_shift n m), (IH (S n) (S m)).
Qed.

Lemma failedFrom_shift l : ∀ n m,
  failedFrom env hdrs owner repo branch dir denied n l
  = failedFrom env hdrs owner repo branch dir denied m l.
Proof.
  induction l as [|item l IH]; intros n m; simpl; [done|].
  by rewrite (fileOutcome_shift n m), (IH (S n) (S m)).
Qed.

End Stable.

(** No write of a pass goes to the probe file. *)
Lemma pass_writes_not_probe env opts w tr :
  probeFile env
  ∉ ((passWrites env opts w (jsonFiles tr) ++ versionWrite env opts w)%list).*1.
Proof.
  rewrite fmap_app, not_elem_of_app. split.
  - intros H. apply writesFrom_keys in H as (item & Hitem & Heq).
    apply jsonFiles_candidate in Hitem.
    symmetry in Heq. by apply outPath_not_probe in Heq.
  - unfold versionWrite. destruct (Str.or_null (opts ≫= version)) as [v|];
      [|apply not_elem_of_nil].
    case_decide; [apply not_elem_of_nil|].
    rewrite fmap_cons, not_elem_of_cons. split; [|apply not_elem_of_nil].
    simpl. intros Heq. symmetry in Heq. by apply versionFile_not_probe in Heq.
Qed.

Lemma preparedDisk_files_eq env d :
  fs_files (preparedDisk env d)
  = if isDev env then fs_files d
    else if decide (installWritable env d) then delete (probeFile env) (fs_files d)
    else fs_files d.
Proof.
  unfold preparedDisk. rewrite ensureDir_state, mkdirSync_files.
  apply getIndicatorsDir_files_eq.
Qed.



(** ** What a pass never does *)

(** A failed listing, case by case: a request that fails or a body that
    does not parse is reported to the renderer, an answer without [tree]
    is not. *)
Lemma perform_failed_listing env opts w :
  configured opts →
  let r := performDownloadIndicators env opts w in
  match treeAnswer env opts w with
  | Thrown e =>
      r.1 = Returned (Failed e)
      ∧ sent r.2
        = (sent w ++ match mainWindow w with
                     | Live => [indicators_download_complete (Failed e)]
                     | _ => []
                     end)%list
  | Returned j =>
      j ≫= tree = None → r.1 = Returned (Failed "no tree") ∧ sent r.2 = sent w
  end.
Proof.
  intros Hc r. subst r.
  destruct (perform_eq env opts w Hc) as [k ->].
  rewrite listAndDownload_eq. simpl.
  unfold treeAnswer, treeRequest, passHeaders.
  destruct (match https_get env (length (requests w)) _ with
            | http_error message => Thrown message
            | http_timeout => Thrown "timeout"
            | http_end body => JSON_parse env body
            end) as [j|e].
  - intros ->. done.
  - simpl.
    match goal with
    | |- context [attempt (send ?ev) ?w2] =>
        pose proof (attempt_send_spec ev w2) as H;
        destruct (attempt (send ev) w2) as [o3 w3]
    end.
    simpl in *. by destruct H as (_ & _ & _ & _ & _ & ->).
Qed.

Lemma configured_dec opts :
  negb (Str.truthy (Str.or_else (opts ≫= owner) ""))
  || negb (Str.truthy (Str.or_else (opts ≫= repo) "")) = false
  ↔ configured opts.
Proof.
  split; [|apply configured_truthy].
  intros H. apply orb_false_elim in H as [Ho Hr].
  apply negb_false_iff in Ho, Hr. by split; apply truthy_true.
Qed.

(** X11. [download-indicators] never throws, whatever the options, the
    host and the network: every failure comes back as a result.  The
    result is a success exactly when the options name an owner and a repo
    and the listing succeeds.  The pass never removes a request or a
    message on record, and leaves the window and the permissions of the
    host alone. *)
Theorem download_never_throws (env : Env) (opts : option Opts) (w : World) :
  let r := download_indicators env opts w in
  (∃ res, r.1 = Returned res
          ∧ (success res = true ↔ configured opts ∧ is_Some (listed env opts w)))
  ∧ requests w `prefix_of` requests r.2
  ∧ sent w `prefix_of` sent r.2
  ∧ mainWindow r.2 = mainWindow w
  ∧ fs_denied (disk r.2) = fs_denied (disk w).
Proof.
  intros r. subst r. unfold download_indicators.
  destruct (negb (Str.truthy (Str.or_else (opts ≫= owner) ""))
            || negb (Str.truthy (Str.or_else (opts ≫= repo) ""))) eqn:E.
  - assert (¬ configured opts) as Hn.
    { intros Hc. apply configured_dec in Hc. congruence. }
    unfold performDownloadIndicators. rewrite E. simpl.
    split; [|done]. eexists. split; [done|]. simpl. split; [done|tauto].
  - apply configured_dec in E. rename E into Hc.
    destruct (listed env opts w) as [tr|] eqn:Hl.
    + destruct (perform_listed env opts w tr Hc Hl) as (Hr & Hq & Hm & Hd & Hs & _).
      split; [|split; [|split]].
      * eexists. split; [exact Hr|]. simpl. split; [eauto|done].
      * rewrite Hq. by apply prefix_app_r.
      * rewrite Hs. by apply prefix_app_r.
      * done.
    + destruct (perform_not_listed env opts w Hc Hl) as ((e & Hr) & Hdisk & Hq & Hm).
      pose proof (perform_failed_listing env opts w Hc) as Hf. cbv zeta in Hf.
      split; [|split; [|split; [|split]]].
      * eexists. split; [exact Hr|]. simpl. split; [done|].
        intros [_ [? ?]]. done.
      * rewrite Hq. by apply prefix_app_r.
      * unfold listed in Hl. destruct (treeAnswer env opts w) as [j|e'].
        -- destruct (Hf Hl) as [_ ->]. done.
        -- destruct Hf as [_ ->]. by apply prefix_app_r.
      * done.
      * rewrite Hdisk. apply preparedDisk_denied.
Qed.

(** X12. How a failed listing is reported.  When the listing request
    fails or its body does not parse, the pass returns the failure and,
    with a live window, sends one [indicators-download-complete] that
    carries it.  When the listing is answered but holds no tree, the pass
    returns the failure [no tree] and sends nothing at all.  Either way a
    single request is made and no [indicators-download-start] is sent. *)
Theorem failed_listing_report (env : Env) (opts : option Opts) (w : World) :
  configured opts →
  let r := performDownloadIndicators env opts w in
  (∀ e, treeAnswer env opts w = Thrown e →
     r.1 = Returned (Failed e)
     ∧ requests r.2 = (requests w ++ [treeRequest env opts w])%list
     ∧ (mainWindow w = Live →
        sent r.2 = (sent w ++ [indicators_download_complete (Failed e)])%list)
     ∧ (mainWindow w ≠ Live → sent r.2 = sent w))
  ∧ (∀ j, treeAnswer env opts w = Returned j → j ≫= tree = None →
     r.1 = Returned (Failed "no tree")
     ∧ requests r.2 = (requests w ++ [treeRequest env opts w])%list
     ∧ sent r.2 = sent w).
Proof.
  intros Hc r. subst r.
  pose proof (perform_failed_listing env opts w Hc) as Hf. cbv zeta in Hf.
  split.
  - intros e He. rewrite He in Hf. destruct Hf as [Hr Hs].
    assert (listed env opts w = None) as Hl by (unfold listed; by rewrite He).
    destruct (perform_not_listed env opts w Hc Hl) as (_ & _ & Hq & _).
    split; [done|]. split; [done|]. rewrite Hs. split.
    + by intros ->.
    + intros Hw. destruct (mainWindow w); by rewrite ?app_nil_r.
  - intros j Hj Ht. rewrite Hj in Hf. destruct (Hf Ht) as [Hr Hs].
    assert (listed env opts w = None) as Hl by (unfold listed; by rewrite Hj).
    destruct (perform_not_listed env opts w Hc Hl) as (_ & _ & Hq & _).
    done.
Qed.

(** Off line the failure is reported to the window; on a host that
    answers [{}] to everything it is not. *)
Lemma failed_listing_report_witness :
  let off := Scenario.envWith false Scenario.offline in
  let bare := Scenario.envWith false (λ _ _, http_end "{}") in
  configured Scenario.autoOpts
  ∧ sent (performDownloadIndicators off Scenario.autoOpts Scenario.start).2
    = [indicators_download_complete (Failed "getaddrinfo ENOTFOUND")]
  ∧ (performDownloadIndicators bare Scenario.autoOpts Scenario.start).1
    = Returned (Failed "no tree")
  ∧ sent (performDownloadIndicators bare Scenario.autoOpts Scenario.start).2 = [].
Proof.
  intros off bare.
  assert (configured Scenario.autoOpts) as Hc by (split; discriminate).
  split; [exact Hc|].
  destruct (failed_listing_report off Scenario.autoOpts Scenario.start Hc) as [Hoff _].
  destruct (failed_listing_report bare Scenario.autoOpts Scenario.start Hc) as [_ Hbare].
  destruct (Hoff "getaddrinfo ENOTFOUND" eq_refl) as (_ & _ & Hs & _).
  destruct (Hbare (Some {| tree := None; content := None; encoding := None |})
              eq_refl eq_refl) as (Hr & _ & Hs').
  split; [exact (Hs eq_refl)|]. split; [exact Hr|exact Hs'].
Defined.

(** ** The token of a pass *)

(** The keychain after a pass: read once when the options carry no token
    and there is a keytar, and not touched otherwise. *)
Lemma perform_keychain env opts w :
  configured opts →
  keychain (performDownloadIndicators env opts w).2
  = match Str.or_null (opts ≫= token), keytar env with
    | None, Some kt => (getPassword kt KEYTAR_SERVICE "indicator" (keychain w)).2
    | _, _ => keychain w
    end.
Proof.
  intros Hc.
  assert (∀ tok w0,
            keychain (listAndDownload env opts (passOwner opts) (passRepo opts)
                        (passBranch opts) tok w0).2 = keychain w0) as Hk.
  { intros tok w0. rewrite listAndDownload_eq. cbv zeta.
    destruct (match https_get env _ _ with
              | http_error message => Thrown message
              | http_timeout => Thrown "timeout"
              | http_end body => JSON_parse env body
              end) as [j|e].
    - destruct (j ≫= tree) as [tr|]; [|done].
      match goal with
      | |- context [downloadTree ?e ?o ?h ?ow ?rp ?b ?d ?t ?w2] =>
          pose proof (downloadTree_spec e o h ow rp b d t w2) as H
      end.
      cbv zeta in H. by destruct H as (_ & _ & -> & _).
    - simpl.
      match goal with
      | |- context [attempt (send ?ev) ?w2] =>
          pose proof (attempt_send_spec ev w2) as H
      end.
      cbv zeta in H. by destruct H as (_ & _ & -> & _). }
  unfold performDownloadIndicators.
  rewrite (configured_truthy opts Hc).
  fold (passOwner opts) (passRepo opts) (passBranch opts).
  unfold bind at 1.
  destruct (Str.or_null (opts ≫= token)) as [tk|] eqn:Etk.
  - unfold ret. by rewrite Hk.
  - destruct (keytar env) as [kt|].
    + unfold try_catch, on_keychain, ret.
      destruct (getPassword kt KEYTAR_SERVICE "indicator" (keychain w))
        as [[t|e] k]; simpl; by rewrite Hk.
    + unfold ret. by rewrite Hk.
Qed.

(** X13. The token of a pass.  Every request of a pass carries the same
    headers: [User-Agent], and [Authorization] when the pass has a token
    that is not empty.  A non-empty token in the options is the token of
    the pass, whatever is stored, and the keychain is then not consulted;
    without it the stored token is used; and when there is no keytar or
    keytar throws, the pass goes on without a token. *)
Theorem token_precedence (env : Env) (opts : option Opts) (w : World) :
  configured opts →
  let r := performDownloadIndicators env opts w in
  (∀ rq, rq ∈ drop (length (requests w)) (requests r.2) →
     headers rq
     = ("User-Agent", "world-data-app")
       :: match passToken env opts w with
          | None | Some "" => []
          | Some t => [("Authorization", "token " +:+ t)]
          end)
  ∧ (∀ t, opts ≫= token = Some t → t ≠ "" →
       passToken env opts w = Some t ∧ keychain r.2 = keychain w)
  ∧ (Str.or_null (opts ≫= token) = None →
     match keytar env with
     | None => passToken env opts w = None ∧ keychain r.2 = keychain w
     | Some kt =>
         match (getPassword kt KEYTAR_SERVICE "indicator" (keychain w)).1 with
         | Returned stored => passToken env opts w = stored
         | Thrown _ => passToken env opts w = None
         end
     end).
Proof.
  intros Hc r. subst r.
  pose proof (perform_keychain env opts w Hc) as Hk.
  split; [|split].
  - assert (requestHeaders (passToken env opts w)
            = ("User-Agent", "world-data-app")
              :: match passToken env opts w with
                 | None | Some "" => []
                 | Some t => [("Authorization", "token " +:+ t)]
                 end) as <-.
    { unfold requestHeaders. by destruct (passToken env opts w) as [[|? ?]|]. }
    fold (passHeaders env opts w).
    intros rq Hrq. destruct (listed env opts w) as [tr|] eqn:Hl.
    + destruct (perform_listed env opts w tr Hc Hl) as (_ & Hq & _).
      rewrite Hq, drop_app_length in Hrq.
      apply elem_of_cons in Hrq as [->|Hrq]; [done|].
      apply list_elem_of_In, in_map_iff in Hrq as (item & <- & _). done.
    + destruct (perform_not_listed env opts w Hc Hl) as (_ & _ & Hq & _).
      rewrite Hq, drop_app_length in Hrq.
      apply elem_of_cons in Hrq as [->|Hrq]; [done|].
      by apply elem_of_nil in Hrq.
  - intros t Ht Hne. unfold passToken in *. rewrite Ht in *. simpl in *.
    destruct t as [|a t]; [done|]. simpl in *. done.
  - intros Hn. unfold passToken. rewrite Hn in *.
    destruct (keytar env) as [kt|]; [|done].
    by destruct ((getPassword kt KEYTAR_SERVICE "indicator" (keychain w)).1).
Qed.

(** A token is stored, the options carry another: every request of the
    pass is authorised with the token of the options. *)
Lemma token_precedence_witness :
  let env := Scenario.env false in
  let opts := Some {| owner := Some AUTO_OWNER; repo := Some AUTO_REPO;
                      branch := Some "main"; token := Some "explicit";
                      version := None |} in
  let w := {| disk := Host.emptyDisk;
              keychain := {[ (KEYTAR_SERVICE, "indicator") := "stored" ]};
              requests := []; mainWindow := Live; sent := [] |} in
  let r := performDownloadIndicators env opts w in
  configured opts
  ∧ passToken env opts w = Some "explicit"
  ∧ passToken env Scenario.autoOpts w = Some "stored"
  ∧ keychain r.2 = keychain w.
Proof.
  intros env opts w r.
  assert (configured opts) as Hc by (split; discriminate).
  assert (configured Scenario.autoOpts) as Hc' by (split; discriminate).
  destruct (token_precedence env opts w Hc) as (_ & H & _).
  destruct (token_precedence env Scenario.autoOpts w Hc') as (_ & _ & H').
  destruct (H "explicit" eq_refl ltac:(discriminate)) as [H1 H2].
  split; [exact Hc|]. split; [exact H1|]. split; [exact (H' eq_refl)|exact H2].
Defined.

(** ** The check, end to end *)

Lemma readInstalled_state env d :
  (readInstalledIndicatorVersion env d).2 = (getIndicatorsDir env d).2.
Proof.
  unfold readInstalledIndicatorVersion. run.
  destruct (getIndicatorsDir env d) as [[dir|e] d1]; simpl; [|done].
  unfold fs.existsSync, fs.readFileSync. simpl.
  destruct (negb _); simpl; [done|].
  destruct (fs_files d1 !! path.join dir "indicator_version"); [done|].
  by destruct (decide (path.join dir "indicator_version" ∈ fs_dirs d1)).
Qed.

Lemma stored_token_eq env w :
  match keytar env with
  | Some kt =>
      try_catch (on_keychain (getPassword kt KEYTAR_SERVICE "indicator"))
                (λ _, ret None)
  | None => ret None
  end w
  = (Returned (storedToken env (keychain w)).1,
     {| disk := disk w; keychain := (storedToken env (keychain w)).2;
        requests := requests w; mainWindow := mainWindow w; sent := sent w |}).
Proof.
  unfold storedToken. destruct (keytar env) as [kt|].
  - unfold try_catch, on_keychain, ret.
    by destruct (getPassword kt KEYTAR_SERVICE "indicator" (keychain w)) as [[t|e] k].
  - unfold ret. by destruct w.
Qed.

Lemma perform_returns env opts w :
  ∃ res, (performDownloadIndicators env opts w).1 = Returned res.
Proof.
  destruct (negb (Str.truthy (Str.or_else (opts ≫= owner) ""))
            || negb (Str.truthy (Str.or_else (opts ≫= repo) ""))) eqn:E.
  - unfold performDownloadIndicators. rewrite E. by eexists.
  - apply configured_dec in E.
    destruct (listed env opts w) as [tr|] eqn:Hl.
    + destruct (perform_listed env opts w tr E Hl) as (Hr & _). eauto.
    + destruct (perform_not_listed env opts w E Hl) as ((e & Hr) & _). eauto.
Qed.

(** A check that syncs is the pass, run where the check has got to, and
    then the notification. *)
Lemma check_sync_eq env w b :
  remoteVersion env w = Some b → b ≠ "" → installedVersion env w ≠ Some b →
  let p := performDownloadIndicators env (checkOpts env w b) (checkStart env w) in
  checkAndUpdateIndicators env w
  = (Returned (),
     match p.1 with
     | Returned res => (attempt (send (indicators_updated (success res) b res)) p.2).2
     | Thrown _ => p.2
     end).
Proof.
  intros Hb Hne Hi p. subst p. unfold checkAndUpdateIndicators.
  rewrite try_catch_bind, fetch_remote, Hb.
  destruct b as [|a b]; [done|]. simpl.
  rewrite try_catch_bind, on_disk_read.
  change (installedVersion env _) with (installedVersion env w).
  destruct (decide (installedVersion env w = Some (String a b))); [done|].
  rewrite try_catch_bind, stored_token_eq. simpl.
  rewrite try_catch_bind.
  fold (checkOpts env w (String a b)). fold (checkStart env w).
  destruct (performDownloadIndicators env (checkOpts env w (String a b)) (checkStart env w))
    as [[res|e] w4]; simpl; [|done].
  unfold try_catch.
  pose proof (attempt_send_spec (indicators_updated (success res) (String a b) res) w4)
    as Hs.
  destruct (attempt _ w4) as [[[]|e] w5]; simpl in *; by destruct Hs as (? & _).
Qed.

(** X14. A check that finds a new version runs one pass and then tells
    the renderer.  The pass is for the repository of the automatic sync,
    branch [main], with the stored token and the remote version as
    version to record.  The check never throws; it adds nothing to what
    the pass does except, with a live window, one [indicators-updated]
    that comes last and carries the remote version, the result of the
    pass and its success. *)
Theorem check_sync_notifies (env : Env) (w : World) (b : string) :
  remoteVersion env w = Some b → b ≠ "" → installedVersion env w ≠ Some b →
  let p := performDownloadIndicators env (checkOpts env w b) (checkStart env w) in
  let r := checkAndUpdateIndicators env w in
  ∃ res, p.1 = Returned res
    ∧ r.1 = Returned ()
    ∧ disk r.2 = disk p.2 ∧ requests r.2 = requests p.2 ∧ keychain r.2 = keychain p.2
    ∧ sent r.2
      = (sent p.2 ++ match mainWindow w with
                     | Live => [indicators_updated (success res) b res]
                     | _ => []
                     end)%list.
Proof.
  intros Hb Hne Hi p r. subst r.
  rewrite (check_sync_eq env w b Hb Hne Hi). fold p.
  destruct (perform_returns env (checkOpts env w b) (checkStart env w)) as [res Hres].
  assert (mainWindow p.2 = mainWindow w) as Hm.
  { subst p.
    destruct (listed env (checkOpts env w b) (checkStart env w)) as [tr|] eqn:Hl.
    - by destruct (perform_listed env (checkOpts env w b) (checkStart env w) tr
                     ltac:(split; discriminate) Hl) as (_ & _ & -> & _).
    - by destruct (perform_not_listed env (checkOpts env w b) (checkStart env w)
                     ltac:(split; discriminate) Hl) as (_ & _ & _ & ->). }
  fold p in Hres. exists res. rewrite Hres. simpl.
  pose proof (attempt_send_spec (indicators_updated (success res) b res) p.2) as Hs.
  cbv zeta in Hs. destruct Hs as (_ & -> & -> & -> & _ & ->). by rewrite Hm.
Qed.

Lemma check_sync_witness :
  let env := Scenario.env false in
  let r := checkAndUpdateIndicators env Scenario.start in
  (remoteVersion env Scenario.start = Some "v2"
   ∧ installedVersion env Scenario.start ≠ Some "v2")
  ∧ r.1 = Returned ()
  ∧ last (sent r.2)
    = Some (indicators_updated true "v2"
              (Done 2 [] "/opt/WorldData/indicators")).
Proof.
  intros env r.
  assert (remoteVersion env Scenario.start = Some "v2") as Hb by (vm_compute; reflexivity).
  assert (installedVersion env Scenario.start ≠ Some "v2") as Hi
    by (vm_compute; discriminate).
  split; [done|].
  destruct (check_sync_notifies env Scenario.start "v2" Hb ltac:(discriminate) Hi)
    as (res & Hres & Hr & _ & _ & _ & Hs).
  split; [exact Hr|].
  fold r in Hs. rewrite Hs. simpl. rewrite last_snoc.
  assert (Returned res
          = Returned (Done 2 [] "/opt/WorldData/indicators")) as Heq
    by (rewrite <- Hres; vm_compute; reflexivity).
  by injection Heq as ->.
Defined.



(** ** What a pass leaves alone *)

Lemma applyWrites_keeps ws : ∀ m p,
  is_Some (m !! p) → is_Some (applyWrites ws m !! p).
Proof.
  induction ws as [|[q b] ws IH]; intros m p Hp; [done|].
  rewrite applyWrites_cons. apply IH. rewrite lookup_insert_is_Some.
  destruct (decide (q = p)); [by left|by right].
Qed.



(** ** From the stored token to the requests *)

Lemma perform_headers env opts w rq :
  configured opts →
  rq ∈ drop (length (requests w)) (requests (performDownloadIndicators env opts w).2) →
  headers rq = passHeaders env opts w.
Proof.
  intros Hc Hrq. destruct (listed env opts w) as [tr|] eqn:Hl.
  - destruct (perform_listed env opts w tr Hc Hl) as (_ & Hq & _).
    rewrite Hq, drop_app_length in Hrq.
    apply elem_of_cons in Hrq as [->|Hrq]; [done|].
    apply list_elem_of_In, in_map_iff in Hrq as (item & <- & _). done.
  - destruct (perform_not_listed env opts w Hc Hl) as (_ & _ & Hq & _).
    rewrite Hq, drop_app_length in Hrq.
    apply elem_of_cons in Hrq as [->|Hrq]; [done|].
    by apply elem_of_nil in Hrq.
Qed.

(** X17. The token that [store-indicator-token] stores is the token of
    the passes that follow.  With a keytar that works and keeps what it
    is given, and options that carry no token, every request of a pass
    made after storing [t] is authorised with [t]; after storing a
    missing or empty token, or after [delete-indicator-token], no request
    carries an [Authorization] header. *)
Theorem stored_token_authorises_pass (env : Env) (kt : Keytar) (opts : option Opts)
    (t : option string) (w : World) :
  keytar env = Some kt → LawfulKeytar kt →
  configured opts → Str.or_null (opts ≫= token) = None →
  let stored := (store_indicator_token env t w).2 in
  let deleted := (delete_indicator_token env stored).2 in
  (∀ rq, rq ∈ drop (length (requests stored))
                (requests (performDownloadIndicators env opts stored).2) →
     headers rq
     = ("User-Agent", "world-data-app")
       :: match Str.or_null t with
          | Some t' => [("Authorization", "token " +:+ t')]
          | None => []
          end)
  ∧ (∀ rq, rq ∈ drop (length (requests deleted))
                  (requests (performDownloadIndicators env opts deleted).2) →
       headers rq = [("User-Agent", "world-data-app")]).
Proof.
  intros Hk [Hset Hget Hdel Hgone] Hc Hn stored deleted.
  assert (passToken env opts stored = Some (Str.or_else t "")) as Hs.
  { unfold passToken. rewrite Hn, Hk. subst stored.
    unfold store_indicator_token. rewrite Hk.
    unfold try_catch, bind, on_keychain, ret.
    specialize (Hget KEYTAR_SERVICE "indicator" (Str.or_else t "") (keychain w)).
    destruct (setPassword kt KEYTAR_SERVICE "indicator" (Str.or_else t "") (keychain w))
      as [[[]|e] k1]; simpl in *; by rewrite Hget. }
  assert (passToken env opts deleted = None) as Hd.
  { unfold passToken. rewrite Hn, Hk. subst deleted.
    unfold delete_indicator_token. rewrite Hk.
    unfold try_catch, on_keychain, ret.
    specialize (Hgone KEYTAR_SERVICE "indicator" (keychain stored)).
    destruct (deletePassword kt KEYTAR_SERVICE "indicator" (keychain stored))
      as [[b|e] k1]; simpl in *; by rewrite Hgone. }
  split.
  - intros rq Hrq. rewrite (perform_headers env opts stored rq Hc Hrq).
    unfold passHeaders, requestHeaders. rewrite Hs.
    by destruct t as [[|a t]|].
  - intros rq Hrq. rewrite (perform_headers env opts deleted rq Hc Hrq).
    unfold passHeaders, requestHeaders. by rewrite Hd.
Qed.

Lemma stored_token_witness :
  let env := Scenario.env false in
  let stored := (store_indicator_token env (Some "ghp_x") Scenario.start).2 in
  let r := performDownloadIndicators env Scenario.autoOpts stored in
  (keytar env = Some Host.memKeytar ∧ configured Scenario.autoOpts)
  ∧ length (requests r.2) = 3
  ∧ ∀ rq, rq ∈ requests r.2 →
          headers rq
          = [("User-Agent", "world-data-app"); ("Authorization", "token ghp_x")].
Proof.
  intros env stored r.
  assert (configured Scenario.autoOpts) as Hc by (split; discriminate).
  split; [done|]. split; [vm_compute; reflexivity|].
  destruct (stored_token_authorises_pass env Host.memKeytar Scenario.autoOpts
              (Some "ghp_x") Scenario.start eq_refl memKeytar_lawful Hc eq_refl)
    as [H _].
  intros rq Hrq. exact (H rq Hrq).
Defined.

(** ** Listing the installed files *)

Lemma Dirent_nested_ind (P : Dirent → Prop) :
  (∀ name, P (dirent_file name)) →
  (∀ name, P (dirent_other name)) →
  (∀ name e, P (dirent_directory name (Thrown e))) →
  (∀ name entries, Forall P entries → P (dirent_directory name (Returned entries))) →
  ∀ entry, P entry.
Proof.
  intros Hf Ho Ht Hd. fix IH 1. intros [name|name [entries|e]|name].
  - apply Hf.
  - apply Hd. induction entries as [|e rest IHr]; constructor; [apply IH|exact IHr].
  - apply Ht.
  - apply Ho.
Qed.

Lemma collect_elem {A} (f : A → Outcome (list string)) entries : ∀ paths p,
  collect f entries = Returned paths → p ∈ paths →
  ∃ entry found, entry ∈ entries ∧ f entry = Returned found ∧ p ∈ found.
Proof.
  induction entries as [|e rest IH]; intros paths p; simpl.
  - intros [= <-] H. by apply elem_of_nil in H.
  - destruct (f e) as [found|err] eqn:Ef; [|done].
    destruct (collect f rest) as [more|err] eqn:Ec; [|done].
    intros [= <-] [H|H]%elem_of_app.
    + exists e, found. split; [apply list_elem_of_here|done].
    + destruct (IH more p eq_refl H) as (e' & found' & He' & Hf' & Hp).
      exists e', found'. split; [by apply list_elem_of_further|done].
Qed.

Lemma collect_incl {A} (f : A → Outcome (list string)) entries : ∀ paths entry found p,
  collect f entries = Returned paths → entry ∈ entries → f entry = Returned found →
  p ∈ found → p ∈ paths.
Proof.
  induction entries as [|e rest IH]; intros paths entry found p; simpl.
  - intros _ H. by apply elem_of_nil in H.
  - destruct (f e) as [found'|err] eqn:Ef; [|done].
    destruct (collect f rest) as [more|err] eqn:Ec; [|done].
    intros [= <-] [->|He]%elem_of_cons Hf Hp; apply elem_of_app.
    + left. rewrite Ef in Hf. by injection Hf as ->.
    + right. by apply (IH more entry found p).
Qed.

Lemma collect_returns {A} (f : A → Outcome (list string)) entries :
  Forall (λ e, ∃ found, f e = Returned found) entries →
  ∃ paths, collect f entries = Returned paths.
Proof.
  induction 1 as [|e rest [found Hf] _ [more IH]]; simpl; [eauto|].
  rewrite Hf, IH. eauto.
Qed.

Lemma collect_throws {A} (f : A → Outcome (list string)) entries :
  Exists (λ e, ∃ err, f e = Thrown err) entries →
  ∃ err, collect f entries = Thrown err.
Proof.
  induction 1 as [e rest [err Hf]|e rest _ [err IH]]; simpl.
  - rewrite Hf. eauto.
  - destruct (f e) as [found|err']; [|eauto]. rewrite IH. eauto.
Qed.

Lemma sep_not_empty a b : a +:+ "/" +:+ b ≠ "".
Proof. destruct a; discriminate. Qed.

Lemma relJoin_empty_l s : relJoin "" s = s.
Proof. reflexivity. Qed.

Lemma relJoin_assoc a b c : relJoin a (relJoin b c) = relJoin (relJoin a b) c.
Proof.
  unfold relJoin.
  destruct (decide (a = "")) as [->|Ha], (decide (b = "")) as [->|Hb],
    (decide (c = "")) as [->|Hc]; simpl;
    rewrite ?decide_True by done; rewrite ?decide_False by done;
    rewrite ?(decide_False (P := _ +:+ "/" +:+ _ = "")) by apply sep_not_empty;
    try done.
  by rewrite !append_assoc.
Qed.

Lemma HoldsJson_mono entries entries' rel :
  (∀ e, e ∈ entries → e ∈ entries') → HoldsJson entries rel → HoldsJson entries' rel.
Proof.
  intros Hsub H. inversion H as [es name Hin Hj|es name inside rel' Hin Hh]; subst.
  - apply holds_here; auto.
  - eapply holds_below; eauto.
Qed.

(** What the walk finds is held by the listing. *)
Lemma walkEntry_sound : ∀ entry base paths p,
  walkEntry base entry = Returned paths → p ∈ paths →
  ∃ rel, HoldsJson [entry] rel ∧ p = Str.slashes (relJoin base rel).
Proof.
  induction entry as [name|name|name e|name entries IH] using Dirent_nested_ind;
    intros base paths p; simpl.
  - destruct (Str.endsWith (Str.toLowerCase name) ".json") eqn:Ej.
    + intros [= <-] Hp. apply list_elem_of_singleton in Hp as ->.
      exists name. split; [|done]. apply holds_here; [apply list_elem_of_here|done].
    + intros [= <-] Hp. by apply elem_of_nil in Hp.
  - intros [= <-] Hp. by apply elem_of_nil in Hp.
  - done.
  - intros Hc Hp.
    destruct (collect_elem _ _ _ _ Hc Hp) as (e & found & He & Hf & Hpf).
    rewrite Forall_forall in IH.
    destruct (IH e He _ _ _ Hf Hpf) as (rel & Hh & ->).
    exists (relJoin name rel). split; [|by rewrite relJoin_assoc].
    eapply holds_below; [apply list_elem_of_here|].
    eapply HoldsJson_mono; [|exact Hh].
    intros e' ->%list_elem_of_singleton. exact He.
Qed.

Lemma walkEntry_returns : ∀ entry base,
  readableEntry entry = true → ∃ paths, walkEntry base entry = Returned paths.
Proof.
  induction entry as [name|name|name e|name entries IH] using Dirent_nested_ind;
    intros base; simpl; try done.
  - destruct (Str.endsWith _ _); eauto.
  - eauto.
  - intros Hr. apply collect_returns.
    rewrite forallb_forall in Hr. rewrite Forall_forall in IH |- *.
    intros e He. apply IH; [done|]. by apply Hr, list_elem_of_In.
Qed.

Lemma walkEntry_throws : ∀ entry base,
  readableEntry entry = false → ∃ err, walkEntry base entry = Thrown err.
Proof.
  induction entry as [name|name|name e|name entries IH] using Dirent_nested_ind;
    intros base; simpl; try done.
  - eauto.
  - intros Hr. apply collect_throws.
    assert (¬ Forall (λ e, readableEntry e = true) entries) as Hn.
    { intros Hall. rewrite Forall_forall in Hall.
      assert (forallb readableEntry entries = true) as Ht; [|congruence].
      apply forallb_forall. intros e He. by apply Hall, list_elem_of_In. }
    apply not_Forall_Exists in Hn; [|intros e; apply _].
    rewrite Exists_exists in Hn |- *. destruct Hn as (e & He & Hne).
    exists e. split; [done|]. rewrite Forall_forall in IH.
    apply IH; [done|]. simpl in Hne. by destruct (readableEntry e).
Qed.

Lemma collect_walk_returns entries base :
  forallb readableEntry entries = true →
  ∃ paths, collect (walkEntry base) entries = Returned paths.
Proof.
  intros Hr. apply collect_returns. rewrite forallb_forall in Hr.
  rewrite Forall_forall. intros e He. apply walkEntry_returns.
  by apply Hr, list_elem_of_In.
Qed.

(** What the listing holds the walk finds, when every directory can be
    read. *)
Lemma walk_complete entries rel :
  HoldsJson entries rel → forallb readableEntry entries = true →
  ∀ base, ∃ paths, collect (walkEntry base) entries = Returned paths
                   ∧ Str.slashes (relJoin base rel) ∈ paths.
Proof.
  induction 1 as [es name Hin Hj|es name inside rel Hin Hh IH]; intros Hr base.
  - destruct (collect_walk_returns es base Hr) as [paths Hc].
    exists paths. split; [done|].
    eapply (collect_incl _ _ _ _ _ _ Hc Hin).
    + simpl. by rewrite Hj.
    + apply list_elem_of_here.
  - destruct (collect_walk_returns es base Hr) as [paths Hc].
    exists paths. split; [done|].
    assert (forallb readableEntry inside = true) as Hri.
    { rewrite forallb_forall in Hr.
      by apply (Hr (dirent_directory name (Returned inside))), list_elem_of_In. }
    destruct (IH Hri (relJoin base name)) as (found & Hf & Hp).
    rewrite relJoin_assoc.
    by eapply (collect_incl _ _ _ _ _ _ Hc Hin).
Qed.

Lemma lower_slash_comm c :
  Str.lower (if decide (c = "\"%char) then "/"%char else c)
  = if decide (Str.lower c = "\"%char) then "/"%char else Str.lower c.
Proof. destruct c as [[] [] [] [] [] [] [] []]; reflexivity. Qed.

Lemma toLowerCase_slashes s :
  Str.toLowerCase (Str.slashes s) = Str.slashes (Str.toLowerCase s).
Proof. induction s as [|a s IH]; simpl; [done|]. by rewrite lower_slash_comm, IH. Qed.

Lemma toLowerCase_app s t :
  Str.toLowerCase (s +:+ t) = Str.toLowerCase s +:+ Str.toLowerCase t.
Proof. induction s as [|a s IH]; [done|]. rewrite append_cons. simpl. by rewrite IH. Qed.

Lemma HoldsJson_json entries rel :
  HoldsJson entries rel → Str.endsWith (Str.toLowerCase rel) ".json" = true.
Proof.
  induction 1 as [es name Hin Hj|es name inside rel Hin Hh IH]; [done|].
  unfold relJoin. destruct (decide (name = "")); [done|].
  destruct (decide (rel = "")) as [->|_]; [done|].
  apply endsWith_spec in IH as [stem Hs]. apply endsWith_spec.
  exists (Str.toLowerCase name +:+ "/" +:+ stem).
  rewrite !toLowerCase_app, Hs. by rewrite !append_assoc.
Qed.

Lemma listed_path_json rel :
  Str.endsWith (Str.toLowerCase rel) ".json" = true →
  Str.endsWith (Str.toLowerCase (Str.slashes rel)) ".json" = true.
Proof.
  intros [stem Hs]%endsWith_spec. apply endsWith_spec.
  exists (Str.slashes stem). by rewrite toLowerCase_slashes, Hs, slashes_app.
Qed.

(** The handler, in one equation. *)
Lemma list_indicator_files_eq env readdirSync w :
  let d := (getIndicatorsDir env (preparedDisk env (disk w))).2 in
  list_indicator_files env readdirSync w
  = (Returned match walk (readdirSync (resolvedDir env (disk w))) "" with
              | Returned paths => paths
              | Thrown _ => []
              end,
     {| disk := d; keychain := keychain w; requests := requests w;
        mainWindow := mainWindow w; sent := sent w |}).
Proof.
  intros d. subst d. unfold list_indicator_files, on_disk, preparedDisk.
  unfold try_catch, bind.
  pose proof (getIndicatorsDir_returns env (disk w)) as H1.
  destruct (getIndicatorsDir env (disk w)) as [o1 d1] eqn:E1. simpl in *. subst o1.
  pose proof (ensureDir_returns (resolvedDir env (disk w)) d1) as H2.
  destruct (ensureDir (resolvedDir env (disk w)) d1) as [o2 d2] eqn:E2.
  simpl in *. subst o2.
  pose proof (getIndicatorsDir_returns env d2) as H3.
  assert (resolvedDir env d2 = resolvedDir env (disk w)) as Hsame.
  { apply resolvedDir_ext. unfold installWritable.
    assert (fs_denied d2 = fs_denied (disk w)) as ->; [|done].
    replace d2 with (ensureDir (resolvedDir env (disk w)) d1).2 by (by rewrite E2).
    rewrite ensureDir_state, mkdirSync_denied.
    replace d1 with (getIndicatorsDir env (disk w)).2 by (by rewrite E1).
    apply getIndicatorsDir_denied. }
  destruct (getIndicatorsDir env d2) as [o3 d3]. simpl in *. subst o3.
  rewrite Hsame. unfold of_outcome, ret.
  by destruct (walk (readdirSync (resolvedDir env (disk w))) "").
Qed.

Lemma walk_sound listing base paths p :
  walk listing base = Returned paths → p ∈ paths →
  ∃ entries rel, listing = Returned entries ∧ HoldsJson entries rel
                 ∧ p = Str.slashes (relJoin base rel).
Proof.
  destruct listing as [entries|e]; [|done]. simpl. intros Hc Hp.
  destruct (collect_elem _ _ _ _ Hc Hp) as (e & found & He & Hf & Hpf).
  destruct (walkEntry_sound e base found p Hf Hpf) as (rel & Hh & ->).
  exists entries, rel. split; [done|]. split; [|done].
  eapply HoldsJson_mono; [|exact Hh].
  intros e' ->%list_elem_of_singleton. exact He.
Qed.

Lemma walk_unreadable listing base :
  readable listing = false → ∃ err, walk listing base = Thrown err.
Proof.
  destruct listing as [entries|e]; [|simpl; eauto]. simpl. intros Hr.
  destruct (walkEntry_throws (dirent_directory "" (Returned entries)) base Hr)
    as [err Herr].
  exists err. simpl in Herr.
  assert (relJoin base "" = base) as Hb.
  { unfold relJoin. by destruct (decide (base = "")). }
  by rewrite Hb in Herr.
Qed.

Lemma json_not_probe env dir p :
  Str.endsWith (Str.toLowerCase p) ".json" = true → path.join dir p ≠ probeFile env.
Proof.
  intros [stem Hs]%endsWith_spec.
  change ".json" with (".jso" +:+ String "n" "") in Hs.
  rewrite <- append_assoc in Hs.
  apply toLowerCase_last in Hs. destruct Hs as (s0 & c & -> & Hc).
  unfold probeFile.
  apply (join_last_differ _ _ _ c ".write_tes" "t"); try done;
    intros ->; discriminate.
Qed.

(** X18. [list-indicator-files] never throws and lists exactly the JSON
    files under the indicators directory.  When every directory below it
    can be read, the paths it returns are those of the files, at any
    depth, whose name ends in [.json] whatever the case of its letters,
    relative to the indicators directory and with every backslash turned
    into a slash; entries that are neither file nor directory are left
    out.  When some directory cannot be read, it returns the empty list,
    also for the directories that could be read.  It makes no request,
    sends nothing and leaves the keychain alone. *)
Theorem list_indicator_files_lists (env : Env)
    (readdirSync : string → Outcome (list Dirent)) (w : World) :
  let listing := readdirSync (passDir env w) in
  let r := list_indicator_files env readdirSync w in
  ∃ paths, r.1 = Returned paths
    ∧ (readable listing = false → paths = [])
    ∧ (∀ entries, listing = Returned entries → readable listing = true →
         ∀ p, p ∈ paths ↔ ∃ rel, HoldsJson entries rel ∧ p = Str.slashes rel)
    ∧ (∀ p, p ∈ paths →
         Str.endsWith (Str.toLowerCase p) ".json" = true
         ∧ Regex.hasBackslash p = false)
    ∧ requests r.2 = requests w ∧ sent r.2 = sent w ∧ keychain r.2 = keychain w.
Proof.
  intros listing r. subst r. rewrite list_indicator_files_eq. simpl.
  fold (passDir env w). fold listing.
  eexists. split; [reflexivity|].
  split; [|split; [|split; [|done]]].
  - intros Hr. by destruct (walk_unreadable listing "" Hr) as [err ->].
  - intros entries Hl Hr p.
    destruct (walk listing "") as [paths|err] eqn:Hw.
    + split.
      * intros Hp. destruct (walk_sound _ _ _ _ Hw Hp) as (es & rel & Hes & Hh & ->).
        rewrite Hl in Hes. injection Hes as <-. eauto.
      * intros (rel & Hh & ->). rewrite Hl in Hw, Hr. simpl in Hw, Hr.
        destruct (walk_complete entries rel Hh Hr "") as (paths' & Hc & Hin).
        rewrite Hw in Hc. by injection Hc as <-.
    + rewrite Hl in Hw, Hr. simpl in Hw, Hr.
      destruct (collect_walk_returns entries "" Hr) as [paths Hc]. congruence.
  - intros p Hp. destruct (walk listing "") as [paths|err] eqn:Hw;
      [|by apply elem_of_nil in Hp].
    destruct (walk_sound _ _ _ _ Hw Hp) as (es & rel & Hes & Hh & ->).
    rewrite relJoin_empty_l. split; [|apply hasBackslash_slashes].
    by apply listed_path_json, (HoldsJson_json es).
Qed.

(** A directory with a JSON file in upper case, a read-me, a link and a
    subdirectory; and the same where the subdirectory cannot be read. *)
Lemma list_indicator_files_witness :
  let env := Scenario.env false in
  let sub := [dirent_file "a.json"; dirent_file "b\c.json"] in
  let top inside := [dirent_file "X.JSON"; dirent_file "readme.md";
                     dirent_other "link.json";
                     dirent_directory "indicators" inside] in
  (list_indicator_files env (λ _, Returned (top (Returned sub))) Scenario.start).1
  = Returned ["X.JSON"; "indicators/a.json"; "indicators/b/c.json"]
  ∧ (list_indicator_files env (λ _, Returned (top (Thrown "EACCES")))
       Scenario.start).1
    = Returned [].
Proof.
  intros env sub top. split.
  - destruct (list_indicator_files_lists env (λ _, Returned (top (Returned sub)))
                Scenario.start) as (paths & Hr & _).
    rewrite Hr. rewrite <- Hr. vm_compute. reflexivity.
  - destruct (list_indicator_files_lists env (λ _, Returned (top (Thrown "EACCES")))
                Scenario.start) as (paths & Hr & He & _).
    rewrite Hr. f_equal. by apply He.
Defined.

(** X19. What [list-indicator-files] lists, [read-indicator-file] reads.
    When the listing of the indicators directory shows files that are on
    the disk and no name in it holds a backslash, every path that the
    listing handler returns is read back by the reading handler as the
    text of that file, its content decoded as UTF-8. *)
Theorem listed_file_reads_back (env : Env)
    (readdirSync : string → Outcome (list Dirent)) (w : World)
    (entries : list Dirent) (p : string) :
  readdirSync (passDir env w) = Returned entries →
  (∀ rel, HoldsJson entries rel →
     Regex.hasBackslash rel = false
     ∧ is_Some (fs_files (disk w) !! path.join (passDir env w) rel)) →
  let r := list_indicator_files env readdirSync w in
  ∀ paths, r.1 = Returned paths → p ∈ paths →
    ∃ bytes, fs_files (disk w) !! path.join (passDir env w) p = Some bytes
             ∧ (read_indicator_file env p r.2).1 = Returned (Some (Utf8.decode bytes)).
Proof.
  intros Hl Hdisk r paths Hr Hp. subst r.
  rewrite list_indicator_files_eq in Hr |- *. simpl in Hr.
  fold (passDir env w) in Hr. rewrite Hl in Hr.
  destruct (walk (Returned entries) "") as [found|err] eqn:Hw;
    injection Hr as <-; [|by apply elem_of_nil in Hp].
  destruct (walk_sound _ _ _ _ Hw Hp) as (es & rel & [= <-] & Hh & ->).
  rewrite relJoin_empty_l.
  destruct (Hdisk rel Hh) as [Hb [txt Htxt]].
  rewrite (slashes_id rel Hb).
  exists txt. split; [done|].
  rewrite read_indicator_file_eq. simpl. f_equal.
  change (Some (Utf8.decode txt)) with (Utf8.decode <$> Some txt). f_equal.
  assert (path.join (passDir env w) rel ≠ probeFile env) as Hnp
    by (by apply json_not_probe, (HoldsJson_json entries)).
  assert (resolvedDir env (getIndicatorsDir env (preparedDisk env (disk w))).2
          = passDir env w) as ->.
  { apply resolvedDir_ext. unfold installWritable.
    by rewrite getIndicatorsDir_denied, preparedDisk_denied. }
  rewrite !getIndicatorsDir_files by done.
  by rewrite preparedDisk_files, Htxt.
Qed.

Lemma listed_file_witness :
  let env := Scenario.env false in
  let w := Host.world0
             {| fs_files := {[ "/opt/WorldData/indicators/indicators/a.json" := "[1]" ]};
                fs_dirs := {[ "/opt/WorldData/indicators/indicators" ]};
                fs_denied := ∅ |} Live in
  let readdirSync := λ _ : string,
    Returned [dirent_directory "indicators" (Returned [dirent_file "a.json"])] in
  let r := list_indicator_files env readdirSync w in
  r.1 = Returned ["indicators/a.json"]
  ∧ (read_indicator_file env "indicators/a.json" r.2).1 = Returned (Some "[1]").
Proof.
  intros env w readdirSync r.
  assert (r.1 = Returned ["indicators/a.json"]) as Hr by (vm_compute; reflexivity).
  split; [exact Hr|].
  destruct (listed_file_reads_back env readdirSync w
              [dirent_directory "indicators" (Returned [dirent_file "a.json"])]
              "indicators/a.json" eq_refl) with (paths := ["indicators/a.json"])
    as (txt & Htxt & Hread).
  - intros rel Hh.
    assert (rel = "indicators/a.json") as ->; [|split; [reflexivity|by eexists]].
    inversion Hh as [es name Hin Hj|es name inside rel' Hin Hh']; subst.
    + apply list_elem_of_singleton in Hin. discriminate.
    + apply list_elem_of_singleton in Hin. simplify_eq.
      inversion Hh' as [es name Hin' Hj|es name inside rel'' Hin' Hh'']; subst.
      * apply list_elem_of_singleton in Hin'. by simplify_eq.
      * apply list_elem_of_singleton in Hin'. discriminate.
  - exact Hr.
  - apply list_elem_of_here.
  - assert (txt = "[1]") as ->; [|exact Hread].
    vm_compute in Htxt. by injection Htxt as <-.
Defined.

(** ** A sync that fails is tried again *)

(** X20. When the pass of a check fails at the listing, the installed
    version is after the check what it was before; so, on a host that
    answers a request the same way whenever it is made, the next check
    finds the same difference and attempts the pass again. *)
Theorem failed_sync_is_retried (env : Env) (w : World) (b : string) :
  answersByRequest env →
  remoteVersion env w = Some b → b ≠ "" → installedVersion env w ≠ Some b →
  listed env (checkOpts env w b) (checkStart env w) = None →
  let w' := (checkAndUpdateIndicators env w).2 in
  installedVersion env w' = installedVersion env w
  ∧ passAttempted env w' = true.
Proof.
  intros Hst Hb Hne Hi Hl w'.
  set (ws := checkStart env w) in *.
  set (opts := checkOpts env w b) in *.
  assert (configured opts) as Hc by (split; discriminate).
  destruct (perform_not_listed env opts ws Hc Hl) as ((e & Hr) & Hdisk & _).
  assert (disk w' = preparedDisk env (getIndicatorsDir env (disk w)).2) as Hd.
  { subst w'. rewrite (check_sync_eq env w b Hb Hne Hi). fold ws opts.
    rewrite Hr. simpl.
    match goal with
    | |- context [attempt (send ?ev) ?w2] =>
        pose proof (attempt_send_spec ev w2) as Hs
    end.
    cbv zeta in Hs. destruct Hs as (_ & -> & _). rewrite Hdisk. simpl.
    by rewrite readInstalled_state. }
  assert (installedVersion env w' = installedVersion env w) as Hsame.
  { unfold installedVersion. rewrite !readInstalledIndicatorVersion_spec, Hd.
    assert (resolvedDir env (preparedDisk env (getIndicatorsDir env (disk w)).2)
            = resolvedDir env (disk w)) as ->.
    { apply resolvedDir_ext. unfold installWritable.
      by rewrite preparedDisk_denied, getIndicatorsDir_denied. }
    rewrite preparedDisk_files by apply versionFile_not_probe.
    by rewrite getIndicatorsDir_files by apply versionFile_not_probe. }
  split; [done|].
  assert (remoteVersion env w' = Some b) as Hrem.
  { unfold remoteVersion in *.
    by rewrite (Hst (length (requests w')) (length (requests w))). }
  rewrite <- Hsame in Hi.
  destruct (check_syncs env w' b Hrem Hne Hi) as (rq & more & Hu & Hq).
  by eapply passAttempted_sync.
Qed.

(** The listing is answered with [{}]: nothing gets installed, and the
    next check tries again. *)
Lemma failed_sync_witness :
  let env := Scenario.envWith false
               (λ n rq, if decide (url rq = REMOTE_VERSION_URL) then http_end "v2"
                        else http_end "{}") in
  let w' := (checkAndUpdateIndicators env Scenario.start).2 in
  installedVersion env w' = None ∧ passAttempted env w' = true.
Proof.
  intros env w'.
  destruct (failed_sync_is_retried env Scenario.start "v2") as [H1 H2].
  - intros n m rq. reflexivity.
  - vm_compute. reflexivity.
  - discriminate.
  - vm_compute. discriminate.
  - vm_compute. reflexivity.
  - split; [|exact H2]. fold w' in H1. rewrite H1. vm_compute. reflexivity.
Defined.
